(** * Serena voice agent: the duplex voice session and its collaborators

    A shallow embedding of the parts of the backend that the voice session
    is made of:

    - [Py]     Python strings, exceptions and the state-and-exception monad
               the handlers are written in;
    - [Re]     the fragment of [re] the speech service uses;
    - [TTS]    app/services/deepgram_tts.py ([clean_text_for_tts],
               [create_short_tts_version], [generate_audio]);
    - [Store]  app/services/langgraph_store.py ([add_memory],
               [get_recent_memories]);
    - [STT]    app/services/deepgram_stt.py ([_on_message],
               [get_transcription]);
    - [Voice]  app/api/voice_websocket.py ([interrupt_current_response],
               [process_transcription], the consumer loop and the inbound
               message loop);
    - [Sample] concrete collaborators and sessions for the examples;
    - [Program] the sessions [voice_ws] reaches;
    - [LLM], [Router], [Maintenance], [Tools]
               app/services/llm_gemini.py, app/langgraph/nodes/router.py
               with the path map of app/langgraph/graph.py, the clean-up
               of app/services/langgraph_store.py and the account tools
               of app/services/agent_tools.py.

    Conventions.  A Python [str] is a list of code points below 256, an
    audio chunk a list of bytes.  Wall-clock time is an integer number of
    milliseconds.  What an external collaborator answers (the agent graph,
    the Deepgram clients, the embedding model, the MongoDB store,
    [json.loads]) is an input of the model, and so is what other coroutines
    do while a turn is suspended: setting the interruption event, or
    cancelling the task the turn awaits.  Sending a frame to the peer
    always succeeds. *)

From Stdlib Require Import String Ascii List ZArith Lia Bool Arith.
Import ListNotations.

(* ===================================================================== *)
(** * Python values, exceptions, effects *)
(* ===================================================================== *)

Module Py.

Definition str := list ascii.
Definition bytes := list Byte.byte.

(** A string literal of the source. *)
Definition lit (s : string) : str := list_ascii_of_string s.

(** Truth value of a sequence: [if xs:]. *)
Definition truthy {A : Type} (xs : list A) : bool :=
  match xs with [] => false | _ :: _ => true end.

Definition str_eqb (a b : str) : bool :=
  if list_eq_dec ascii_dec a b then true else false.

(** [str.isspace] on one character; these are also the characters [\s]
    matches and [strip] removes. *)
Definition isspace (c : ascii) : bool :=
  let n := nat_of_ascii c in
  ((9 <=? n) && (n <=? 13)) || ((28 <=? n) && (n <=? 32))
  || (n =? 133) || (n =? 160).

Fixpoint lstrip (s : str) : str :=
  match s with
  | c :: s' => if isspace c then lstrip s' else s
  | [] => []
  end.

Definition rstrip (s : str) : str := rev (lstrip (rev s)).

Definition strip (s : str) : str := lstrip (rstrip s).

(** [xs[:n]], for any integer [n]. *)
Definition slice_to {A : Type} (n : Z) (xs : list A) : list A :=
  if (0 <=? n)%Z then firstn (Z.to_nat n) xs
  else firstn (length xs - Z.to_nat (- n)) xs.

Fixpoint rfind_from (c : ascii) (s : str) (i best : Z) : Z :=
  match s with
  | [] => best
  | x :: s' => rfind_from c s' (i + 1)%Z (if Ascii.eqb x c then i else best)
  end.

(** [s.rfind(c)] for a one-character needle: the highest index, or -1. *)
Definition rfind (c : ascii) (s : str) : Z := rfind_from c s 0%Z (-1)%Z.

(** Lexicographic order on strings by code point: [a < b]. *)
Fixpoint str_ltb (a b : str) : bool :=
  match a, b with
  | _, [] => false
  | [], _ :: _ => true
  | x :: a', y :: b' =>
      let nx := nat_of_ascii x in
      let ny := nat_of_ascii y in
      if nx <? ny then true else if ny <? nx then false else str_ltb a' b'
  end.

(** ** Exceptions *)

Inductive error_class :=
| JSONDecodeError
| AttributeError
| WebSocketDisconnect
| ConnectionClosedOK
| ConnectionClosedError
| OtherException.

(** An instance of [Exception]; [message] is what [str(e)] gives. *)
Record error := mkError { cls : error_class; message : str }.

(** [asyncio.CancelledError] derives from [BaseException]: no
    [except Exception] clause catches it. *)
Inductive exc :=
| CancelledError
| Exception (e : error).

Definition is_Exception (e : exc) : bool :=
  match e with Exception _ => true | CancelledError => false end.

Definition is_CancelledError (e : exc) : bool :=
  match e with CancelledError => true | Exception _ => false end.

Definition is_class (c : error_class) (e : exc) : bool :=
  match e with
  | Exception {| cls := c' |} =>
      match c, c' with
      | JSONDecodeError, JSONDecodeError
      | AttributeError, AttributeError
      | WebSocketDisconnect, WebSocketDisconnect
      | ConnectionClosedOK, ConnectionClosedOK
      | ConnectionClosedError, ConnectionClosedError
      | OtherException, OtherException => true
      | _, _ => false
      end
  | CancelledError => false
  end.

Inductive result (A : Type) :=
| Ret (a : A)
| Raise (e : exc).
Arguments Ret {A} a.
Arguments Raise {A} e.

(** What an operation of a collaborator gives back when its failures are
    ordinary exceptions. *)
Definition fallible (A : Type) := (error + A)%type.

Definition lift_fallible {A : Type} (x : fallible A) : result A :=
  match x with inl e => Raise (Exception e) | inr a => Ret a end.

(** ** Computations over a state [S] that may raise *)

Section Monad.
Context {S : Type}.

Definition M (A : Type) : Type := S -> result A * S.

Definition ret {A : Type} (a : A) : M A := fun s => (Ret a, s).

Definition raise {A : Type} (e : exc) : M A := fun s => (Raise e, s).

Definition bind {A B : Type} (m : M A) (k : A -> M B) : M B :=
  fun s =>
    match m s with
    | (Ret a, s') => k a s'
    | (Raise e, s') => (Raise e, s')
    end.

Definition get : M S := fun s => (Ret s, s).

Definition modify (f : S -> S) : M unit := fun s => (Ret tt, f s).

Definition lift {A : Type} (r : result A) : M A := fun s => (r, s).

(** [try: m  except <classes caught>: h]. *)
Definition try_except {A : Type} (m : M A) (caught : exc -> bool)
    (h : exc -> M A) : M A :=
  fun s =>
    match m s with
    | (Ret a, s') => (Ret a, s')
    | (Raise e, s') => if caught e then h e s' else (Raise e, s')
    end.

End Monad.

Arguments M S A : clear implicits.

Declare Scope py_scope.
Delimit Scope py_scope with py.
Notation "x <- m ;; k" := (bind m (fun x => k))
  (at level 61, m at next level, right associativity) : py_scope.
Notation "m ;; k" := (bind m (fun _ => k))
  (at level 61, right associativity) : py_scope.

End Py.

(* ===================================================================== *)
(** * The fragment of [re] the speech service uses *)
(* ===================================================================== *)

Module Re.
Import Py.

(** A pattern is a sequence of character classes, each with a repetition
    count, optionally anchored by [^] (with [re.MULTILINE]); at most one
    capture group, marked on the items it contains. *)
Record item := mkItem {
  class : ascii -> bool;
  rmin : nat;
  rmax : option nat;
  greedy : bool;
  in_group : bool
}.

Record pattern := mkPattern { bol : bool; items : list item }.

Definition newline : ascii := ascii_of_nat 10.

Definition just (c : ascii) : ascii -> bool := Ascii.eqb c.
Definition other_than (c : ascii) : ascii -> bool := fun x => negb (Ascii.eqb c x).
Definition any : ascii -> bool := fun _ => true.
Definition one_of (cs : list ascii) : ascii -> bool :=
  fun x => existsb (Ascii.eqb x) cs.
Definition isdigit : ascii -> bool :=
  fun x => (48 <=? nat_of_ascii x) && (nat_of_ascii x <=? 57).

(** [c], [c+], [c*], [c*?], [c{lo,hi}]; [grp] puts the item in group 1. *)
Definition one (c : ascii -> bool) : item := mkItem c 1 (Some 1) true false.
Definition plus (c : ascii -> bool) : item := mkItem c 1 None true false.
Definition star (c : ascii -> bool) : item := mkItem c 0 None true false.
Definition star_lazy (c : ascii -> bool) : item := mkItem c 0 None false false.
Definition between (lo hi : nat) (c : ascii -> bool) : item :=
  mkItem c lo (Some hi) true false.
Definition at_least (lo : nat) (c : ascii -> bool) : item :=
  mkItem c lo None true false.
Definition grp (it : item) : item :=
  mkItem (class it) (rmin it) (rmax it) (greedy it) true.

(** How many leading characters of [s] are in the class, up to [limit]. *)
Fixpoint run (c : ascii -> bool) (limit : option nat) (s : str) : nat :=
  match s with
  | [] => 0
  | x :: s' =>
      if c x then
        match limit with
        | Some 0 => 0
        | Some (S n) => S (run c (Some n) s')
        | None => S (run c None s')
        end
      else 0
  end.

(** The repetition counts to try, in the order the matcher tries them. *)
Definition candidates (lo hi : nat) (greedy : bool) : list nat :=
  if hi <? lo then []
  else if greedy then rev (seq lo (S hi - lo)) else seq lo (S hi - lo).

Fixpoint first_success {A B : Type} (f : A -> option B) (xs : list A)
    : option B :=
  match xs with
  | [] => None
  | x :: xs' =>
      match f x with
      | Some b => Some b
      | None => first_success f xs'
      end
  end.

(** Match the items at the start of [s], backtracking over the counts:
    the text of group 1 and what is left of [s] after the match. *)
Fixpoint match_items (its : list item) (s : str) : option (str * str) :=
  match its with
  | [] => Some ([], s)
  | it :: its' =>
      first_success
        (fun k =>
           match match_items its' (skipn k s) with
           | Some (g, rest) =>
               Some (if in_group it then firstn k s ++ g else g, rest)
           | None => None
           end)
        (candidates (rmin it) (run (class it) (rmax it) s) (greedy it))
  end.

(** A match at the current position: [at_bol] tells whether the position
    is at the start of the string or just after a newline. *)
Definition match_here (p : pattern) (at_bol : bool) (s : str)
    : option (str * str) :=
  if bol p && negb at_bol then None else match_items (items p) s.

Definition ends_with_newline (matched : str) : bool :=
  match rev matched with
  | c :: _ => Ascii.eqb c newline
  | [] => false
  end.

(** Replacement templates: [r'\1'] or a constant. *)
Inductive repl :=
| Group1
| Const (s : str).

Definition expand (r : repl) (g : str) : str :=
  match r with Group1 => g | Const c => c end.

(** [re.sub(p, r, s)] from a position on; every pattern used needs at
    least one character, so matches are never empty. *)
Fixpoint sub_from (fuel : nat) (p : pattern) (r : repl) (at_bol : bool)
    (s : str) : str :=
  match fuel with
  | 0 => s
  | S fuel' =>
      match s with
      | [] => []
      | c :: s' =>
          match match_here p at_bol s with
          | Some (g, rest) =>
              let matched := firstn (length s - length rest) s in
              if truthy matched
              then expand r g
                   ++ sub_from fuel' p r (ends_with_newline matched) rest
              else c :: sub_from fuel' p r (Ascii.eqb c newline) s'
          | None => c :: sub_from fuel' p r (Ascii.eqb c newline) s'
          end
      end
  end.

Definition sub (p : pattern) (r : repl) (s : str) : str :=
  sub_from (S (length s)) p r true s.

(** [re.split(p, s)] for a pattern that is one capture group: the pieces
    between matches alternate with the matched texts. *)
Fixpoint split_from (fuel : nat) (its : list item) (piece : str) (s : str)
    : list str :=
  match fuel with
  | 0 => [piece ++ s]
  | S fuel' =>
      match s with
      | [] => [piece]
      | c :: s' =>
          match match_items its s with
          | Some (g, rest) =>
              if truthy g
              then piece :: g :: split_from fuel' its [] rest
              else split_from fuel' its (piece ++ [c]) s'
          | None => split_from fuel' its (piece ++ [c]) s'
          end
      end
  end.

Definition split (its : list item) (s : str) : list str :=
  split_from (S (length s)) its [] s.

End Re.

(* ===================================================================== *)
(** * app/services/deepgram_tts.py *)
(* ===================================================================== *)

Module TTS.
Import Py Re.

Definition ch (s : string) : ascii :=
  match s with String c _ => c | EmptyString => zero end.

Definition bold_stars : pattern :=
  mkPattern false
    [one (just (ch "*")); one (just (ch "*")); grp (plus (other_than (ch "*")));
     one (just (ch "*")); one (just (ch "*"))].
Definition italic_star : pattern :=
  mkPattern false
    [one (just (ch "*")); grp (plus (other_than (ch "*"))); one (just (ch "*"))].
Definition bold_underscores : pattern :=
  mkPattern false
    [one (just (ch "_")); one (just (ch "_")); grp (plus (other_than (ch "_")));
     one (just (ch "_")); one (just (ch "_"))].
Definition italic_underscore : pattern :=
  mkPattern false
    [one (just (ch "_")); grp (plus (other_than (ch "_"))); one (just (ch "_"))].
Definition code_block : pattern :=
  mkPattern false
    [one (just (ch "`")); one (just (ch "`")); one (just (ch "`")); star_lazy any;
     one (just (ch "`")); one (just (ch "`")); one (just (ch "`"))].
Definition inline_code : pattern :=
  mkPattern false
    [one (just (ch "`")); grp (plus (other_than (ch "`"))); one (just (ch "`"))].
Definition link : pattern :=
  mkPattern false
    [one (just (ch "[")); grp (plus (other_than (ch "]"))); one (just (ch "]"));
     one (just (ch "(")); plus (other_than (ch ")")); one (just (ch ")"))].
Definition header : pattern :=
  mkPattern true [between 1 6 (just (ch "#")); plus isspace].
Definition bullet : pattern :=
  mkPattern true
    [star isspace; one (one_of [ch "-"; ch "*"; ch "+"]); plus isspace].
Definition numbered : pattern :=
  mkPattern true [plus isdigit; one (just (ch ".")); plus isspace].
Definition image : pattern :=
  mkPattern false
    [one (just (ch "!")); one (just (ch "[")); grp (star (other_than (ch "]")));
     one (just (ch "]")); one (just (ch "(")); plus (other_than (ch ")"));
     one (just (ch ")"))].
Definition newlines3 : pattern := mkPattern false [at_least 3 (just newline)].

Definition clean_text_for_tts (text : str) : str :=
  if negb (truthy text) then []
  else
    let cleaned := sub bold_stars Group1 text in
    let cleaned := sub italic_star Group1 cleaned in
    let cleaned := sub bold_underscores Group1 cleaned in
    let cleaned := sub italic_underscore Group1 cleaned in
    let cleaned := sub code_block (Const []) cleaned in
    let cleaned := sub inline_code Group1 cleaned in
    let cleaned := sub link Group1 cleaned in
    let cleaned := sub header (Const []) cleaned in
    let cleaned := sub bullet (Const []) cleaned in
    let cleaned := sub numbered (Const []) cleaned in
    let cleaned := sub image Group1 cleaned in
    let cleaned := sub newlines3 (Const [newline; newline]) cleaned in
    strip cleaned.

(** [([.!?]+[\s\n]+)]: the sentence delimiter, as one group. *)
Definition punct : ascii -> bool := one_of [ch "."; ch "!"; ch "?"].
Definition delimiter : list item := [grp (plus punct); grp (plus isspace)].

(** Sentences recombined with their delimiter: the pieces at [i] and
    [i + 1] for [i = 0, 2, ...] below [len - 1]; a last piece without a
    delimiter is left out. *)
Fixpoint combine_sentences (sentences : list str) : list str :=
  match sentences with
  | body :: delim :: rest => (body ++ delim) :: combine_sentences rest
  | _ => []
  end.

(** The loop that accumulates sentences while they fit. *)
Fixpoint take_fitting (max_chars : Z) (result : str) (sentences : list str)
    : str :=
  match sentences with
  | [] => result
  | sentence :: rest =>
      if (Z.of_nat (length (result ++ sentence)) <=? max_chars)%Z
      then take_fitting max_chars (result ++ sentence) rest
      else result
  end.

Definition ellipsis : str := lit "...".

(** The word-boundary fallback.  [last_space > max_chars * 0.8] is the
    comparison of an integer with four fifths of an integer. *)
Definition truncate_at_word (cleaned : str) (max_chars : Z) : str :=
  let truncated := slice_to max_chars cleaned in
  let last_space := rfind (ch " ") truncated in
  if (4 * max_chars <? 5 * last_space)%Z
  then slice_to last_space truncated ++ ellipsis
  else truncated ++ ellipsis.

(** The function after [cleaned = clean_text_for_tts(text)]. *)
Definition shorten (cleaned : str) (max_chars max_sentences : Z) : str :=
  if (Z.of_nat (length cleaned) <=? max_chars)%Z then cleaned
  else
    let sentences := split delimiter cleaned in
    let combined_sentences := combine_sentences sentences in
    let result :=
      take_fitting max_chars [] (slice_to max_sentences combined_sentences) in
    if negb (truthy result) || (length result <? 100)
    then truncate_at_word cleaned max_chars
    else rstrip result.

Definition create_short_tts_version (text : str) (max_chars max_sentences : Z)
    : str :=
  if negb (truthy text) then []
  else shorten (clean_text_for_tts text) max_chars max_sentences.

(** [p] is what [s] starts with. *)
Definition prefix (p s : str) : Prop := exists rest, s = p ++ rest.

(** The audio stream of one synthesis request: the chunks the Deepgram
    client yields, then a normal end or an exception raised at the next
    pull. *)
Record stream := mkStream { chunks : list bytes; ending : option exc }.

(** [DeepgramTTSService.generate_audio]; [speak] is the Deepgram client's
    [speak.v1.audio.generate] for the given text. *)
Definition generate_audio (speak : str -> stream) (text : str)
    (max_chars max_sentences : Z) : stream :=
  let tts_text := create_short_tts_version text max_chars max_sentences in
  if negb (truthy tts_text) then mkStream [] None
  else
    let s := speak tts_text in
    mkStream (filter truthy (chunks s)) (ending s).

End TTS.

(* ===================================================================== *)
(** * app/services/langgraph_store.py *)
(* ===================================================================== *)

Module Store.
Import Py.

Definition metadata := list (str * str).
Definition embedding := list Z.
Definition namespace := list str.

(** The value [add_memory] writes. *)
Record put_value := mkPut {
  put_text : str;
  put_sender : str;
  put_timestamp : str;
  put_embedding : embedding;
  put_metadata : metadata
}.

(** A non-empty value read back: the keys the service looks up, each
    present or not. *)
Record got_value := mkGot {
  got_text : option str;
  got_sender : option str;
  got_timestamp : option str;
  got_metadata : option metadata
}.

(** An item of a search result; [value = None] stands for a falsy value. *)
Record item := mkItem { key : str; value : option got_value }.

(** The dict [get_recent_memories] builds for one item. *)
Record memory := mkMemory {
  mem_key : str;
  text : str;
  sender : str;
  timestamp : str;
  mem_metadata : metadata
}.

(** What the service calls: the embedding model, the clock and the
    MongoDB store. *)
Record backend := mkBackend {
  create_embedding : str -> fallible embedding;
  utcnow_isoformat : str;
  aput : namespace -> str -> put_value -> fallible unit;
  asearch : namespace -> Z -> fallible (list item)
}.

Record service := mkService { _available : bool; store : backend }.

Definition or_default {A : Type} (o : option A) (d : A) : A :=
  match o with Some a => a | None => d end.

Definition add_memory (self : service) (conversation_id text sender : str)
    (metadata : option metadata) : result (option str) :=
  if negb (_available self) then Ret None
  else
    let body : result (option str) :=
      match lift_fallible (create_embedding (store self) text) with
      | Raise e => Raise e
      | Ret embedding =>
          let timestamp := utcnow_isoformat (store self) in
          let key := sender ++ lit "_" ++ timestamp in
          let value := {| put_text := text;
                          put_sender := sender;
                          put_timestamp := timestamp;
                          put_embedding := embedding;
                          put_metadata := or_default metadata [] |} in
          match lift_fallible
                  (aput (store self) [conversation_id; lit "memories"] key value)
          with
          | Raise e => Raise e
          | Ret _ => Ret (Some key)
          end
      end in
    match body with
    | Raise e => if is_Exception e then Ret None else Raise e
    | Ret r => Ret r
    end.

(** [for item in results: if item.value: memories.append({...})]. *)
Fixpoint collect (results : list item) : list memory :=
  match results with
  | [] => []
  | it :: rest =>
      match value it with
      | Some v =>
          {| mem_key := key it;
             text := or_default (got_text v) [];
             sender := or_default (got_sender v) (lit "unknown");
             timestamp := or_default (got_timestamp v) [];
             mem_metadata := or_default (got_metadata v) [] |} :: collect rest
      | None => collect rest
      end
  end.

Fixpoint insert_by_timestamp (m : memory) (sorted : list memory) : list memory :=
  match sorted with
  | [] => [m]
  | m' :: rest =>
      if str_ltb (timestamp m') (timestamp m)
      then m' :: insert_by_timestamp m rest
      else m :: sorted
  end.

(** [memories.sort(key=timestamp)]: ascending and stable. *)
Definition sort_by_timestamp (ms : list memory) : list memory :=
  fold_right insert_by_timestamp [] ms.

Definition get_recent_memories (self : service) (conversation_id : str)
    (limit : Z) : result (list memory) :=
  if negb (_available self) then Ret []
  else
    let body : result (list memory) :=
      match lift_fallible
              (asearch (store self) [conversation_id; lit "memories"] limit)
      with
      | Raise e => Raise e
      | Ret results =>
          let memories := sort_by_timestamp (collect results) in
          Ret (slice_to limit memories)
      end in
    match body with
    | Raise e => if is_Exception e then Ret [] else Raise e
    | Ret r => Ret r
    end.

End Store.

(* ===================================================================== *)
(** * app/services/deepgram_stt.py *)
(* ===================================================================== *)

Module STT.
Import Py.

Record alternative := mkAlternative { transcript : option str }.

Record channel := mkChannel { alternatives : list alternative }.

(** The [is_final] attribute of a results event: absent, [None] or a bool. *)
Inductive is_final_attr :=
| NoAttr
| AttrNone
| AttrBool (b : bool).

Inductive event :=
| ListenV1SpeechStartedEvent
| ListenV1ResultsEvent (channel : option channel) (is_final : is_final_attr)
| OtherEvent.

(** [event.is_final if hasattr(event, 'is_final') else True], as a truth
    value. *)
Definition is_final_of (a : is_final_attr) : bool :=
  match a with
  | NoAttr => true
  | AttrNone => false
  | AttrBool b => b
  end.

(** The service state the handler touches: [self.transcription_queue],
    oldest entry first.  The queue is unbounded, so each [put] scheduled by
    the handler completes, in the order scheduled. *)
Definition queue := list str.

Definition _on_message (ev : event) (transcription_queue : queue) : queue :=
  match ev with
  | ListenV1SpeechStartedEvent => transcription_queue
  | ListenV1ResultsEvent (Some ch) is_final =>
      match alternatives ch with
      | alt :: _ =>
          match transcript alt with
          | Some sentence =>
              if truthy sentence && (0 <? length sentence) then
                if is_final_of is_final
                then transcription_queue ++ [sentence]
                else transcription_queue
              else transcription_queue
          | None => transcription_queue
          end
      | [] => transcription_queue
      end
  | ListenV1ResultsEvent None _ => transcription_queue
  | OtherEvent => transcription_queue
  end.

(** [get_transcription]: the next entry, or [None] when the wait times
    out on an empty queue. *)
Definition get_transcription (transcription_queue : queue)
    : option str * queue :=
  match transcription_queue with
  | [] => (None, [])
  | sentence :: rest => (Some sentence, rest)
  end.

(** The queue after the handler has seen [evs], in order. *)
Definition deliver (evs : list event) (q : queue) : queue :=
  fold_left (fun q ev => _on_message ev q) evs q.

(** The first alternative's transcript of a results event. *)
Definition first_transcript (ev : event) : option str :=
  match ev with
  | ListenV1ResultsEvent (Some ch) _ =>
      match alternatives ch with
      | alt :: _ => transcript alt
      | [] => None
      end
  | _ => None
  end.

(** An interim result: a results event whose [is_final] is false or [None]. *)
Definition interim (ev : event) : bool :=
  match ev with
  | ListenV1ResultsEvent _ (AttrBool false) => true
  | ListenV1ResultsEvent _ AttrNone => true
  | _ => false
  end.

(** A queued entry that comes from a results event which is not interim
    and is not empty. *)
Definition from_final (evs : list event) (sentence : str) : Prop :=
  sentence <> [] /\
  exists ev, In ev evs /\ first_transcript ev = Some sentence /\
             interim ev = false.

End STT.

(* ===================================================================== *)
(** * app/api/voice_websocket.py *)
(* ===================================================================== *)

Module Voice.
Import Py.
Local Open Scope py_scope.

(** ** The session: the closure variables of [voice_ws] and its effects *)

(** Frames handed to [ws.send_json] and [ws.send_bytes]. *)
Inductive frame :=
| Ready (message : str)
| Transcription (text : str)
| AgentResponse (text : str)
| TtsStart
| TtsEnd
| TtsError (message : str)
| Interrupt
| Pong
| Audio (chunk : bytes).

(** An [asyncio.Task] as the coordinator sees it: [done()] or not. *)
Inductive task :=
| Pending
| Done.

Inductive task_name :=
| AgentTask
| TtsTask.

Record session := mkSession {
  message_count : nat;
  current_agent_task : option task;
  current_tts_task : option task;
  interruption_event : bool;
  last_interruption_time : Z;
  deepgram_active : bool;
  (* effects, oldest first *)
  sent : list frame;                (* frames sent to the peer *)
  cancelled : list task_name;       (* [task.cancel()] calls *)
  stored : list (str * str);        (* [add_memory] calls: sender, text *)
  forwarded : list bytes;           (* audio passed to the STT service *)
  received : nat;                   (* frames read by [ws.receive()] *)
  closed : bool                     (* [ws.close()] called *)
}.

(** The closure variables as [voice_ws] initialises them. *)
Definition initial : session :=
  mkSession 0 None None false 0 false [] [] [] [] 0 false.

Definition INTERRUPTION_DEBOUNCE_MS : Z := 500.

Definition set_message_count (n : nat) (s : session) : session :=
  mkSession n (current_agent_task s) (current_tts_task s)
    (interruption_event s) (last_interruption_time s) (deepgram_active s)
    (sent s) (cancelled s) (stored s) (forwarded s) (received s) (closed s).
Definition set_current_agent_task (t : option task) (s : session) : session :=
  mkSession (message_count s) t (current_tts_task s)
    (interruption_event s) (last_interruption_time s) (deepgram_active s)
    (sent s) (cancelled s) (stored s) (forwarded s) (received s) (closed s).
Definition set_current_tts_task (t : option task) (s : session) : session :=
  mkSession (message_count s) (current_agent_task s) t
    (interruption_event s) (last_interruption_time s) (deepgram_active s)
    (sent s) (cancelled s) (stored s) (forwarded s) (received s) (closed s).
Definition set_interruption_event (b : bool) (s : session) : session :=
  mkSession (message_count s) (current_agent_task s) (current_tts_task s)
    b (last_interruption_time s) (deepgram_active s)
    (sent s) (cancelled s) (stored s) (forwarded s) (received s) (closed s).
Definition set_last_interruption_time (t : Z) (s : session) : session :=
  mkSession (message_count s) (current_agent_task s) (current_tts_task s)
    (interruption_event s) t (deepgram_active s)
    (sent s) (cancelled s) (stored s) (forwarded s) (received s) (closed s).
Definition set_deepgram_active (b : bool) (s : session) : session :=
  mkSession (message_count s) (current_agent_task s) (current_tts_task s)
    (interruption_event s) (last_interruption_time s) b
    (sent s) (cancelled s) (stored s) (forwarded s) (received s) (closed s).
Definition set_sent (fs : list frame) (s : session) : session :=
  mkSession (message_count s) (current_agent_task s) (current_tts_task s)
    (interruption_event s) (last_interruption_time s) (deepgram_active s)
    fs (cancelled s) (stored s) (forwarded s) (received s) (closed s).
Definition set_cancelled (cs : list task_name) (s : session) : session :=
  mkSession (message_count s) (current_agent_task s) (current_tts_task s)
    (interruption_event s) (last_interruption_time s) (deepgram_active s)
    (sent s) cs (stored s) (forwarded s) (received s) (closed s).
Definition set_stored (ms : list (str * str)) (s : session) : session :=
  mkSession (message_count s) (current_agent_task s) (current_tts_task s)
    (interruption_event s) (last_interruption_time s) (deepgram_active s)
    (sent s) (cancelled s) ms (forwarded s) (received s) (closed s).
Definition set_forwarded (bs : list bytes) (s : session) : session :=
  mkSession (message_count s) (current_agent_task s) (current_tts_task s)
    (interruption_event s) (last_interruption_time s) (deepgram_active s)
    (sent s) (cancelled s) (stored s) bs (received s) (closed s).
Definition set_received (n : nat) (s : session) : session :=
  mkSession (message_count s) (current_agent_task s) (current_tts_task s)
    (interruption_event s) (last_interruption_time s) (deepgram_active s)
    (sent s) (cancelled s) (stored s) (forwarded s) n (closed s).
Definition set_closed (b : bool) (s : session) : session :=
  mkSession (message_count s) (current_agent_task s) (current_tts_task s)
    (interruption_event s) (last_interruption_time s) (deepgram_active s)
    (sent s) (cancelled s) (stored s) (forwarded s) (received s) b.

(** ** What the collaborators answer *)

(** The places where [process_transcription] reads the interruption
    event. *)
Inductive checkpoint :=
| TurnStart                 (* was_interrupted = interruption_event.is_set() *)
| AfterAgent                (* after the agent task *)
| BeforeTts                 (* before tts_start *)
| BeforeChunk (i : nat)     (* before forwarding chunk i *)
| AfterTts.                 (* after the synthesis task *)

#[local] Set Warnings "-register-all".

Inductive json :=
| JNull
| JBool (b : bool)
| JNumber (n : Z)
| JString (s : str)
| JArray (xs : list json)
| JObject (fields : list (str * json)).

(** The [state] dict handed to the agent graph. *)
Record agent_state := mkAgentState {
  user_input : str;
  state_conversation_id : str;
  conversation_history : list (str * str);     (* role, content *)
  semantic_context : list Store.memory;
  response : str
}.

Record world := mkWorld {
  conversation_id : str;
  langgraph_store : Store.service;
  (* awaiting the [run_agent] task: the result dict's [response] entry if
     any, the exception [ainvoke] raised, or [CancelledError] when the
     task was cancelled *)
  ainvoke : agent_state -> result (option str);
  (* the Deepgram speak stream for a text; it ends in [CancelledError]
     when the task pulling it is cancelled *)
  speak : str -> TTS.stream;
  (* whether another coroutine has set the interruption event by the time
     of a check *)
  raised_at : checkpoint -> bool;
  (* [json.loads]: [None] is a [JSONDecodeError] *)
  json_loads : str -> option json;
  (* [stt_service.send_audio] *)
  send_audio : bytes -> fallible unit;
  (* what [json.loads] raises when it is not a [JSONDecodeError]: a plain
     [ValueError] for an integer over the digit limit, a [RecursionError]
     for deep nesting; [None] when it raises nothing else *)
  json_raises : str -> option error
}.

(** ** Primitive effects *)

Definition send (f : frame) : M session unit :=
  modify (fun s => set_sent (sent s ++ [f]) s).

(** [interruption_event.is_set()] at a checkpoint. *)
Definition is_set (w : world) (cp : checkpoint) : M session bool :=
  fun s =>
    let b := interruption_event s || raised_at w cp in
    (Ret b, set_interruption_event b s).

(** [task.cancel()] followed by [await task]: the task unwinds with
    [CancelledError] ([run_agent] and [generate_tts] re-raise it), and
    that is what the await raises. *)
Definition cancel_and_await (name : task_name) : M session unit :=
  modify (fun s => set_cancelled (cancelled s ++ [name]) s) ;;
  raise CancelledError.

(** [t and not t.done()]. *)
Definition running (t : option task) : bool :=
  match t with
  | Some Pending => true
  | Some Done => false
  | None => false
  end.

Definition agent_is_responding (s : session) : bool :=
  running (current_agent_task s) || running (current_tts_task s).

(** The tasks in flight, in the order the coordinator cancels them. *)
Definition active_tasks (s : session) : list task_name :=
  (if running (current_agent_task s) then [AgentTask] else [])
  ++ (if running (current_tts_task s) then [TtsTask] else []).

(** ** [interrupt_current_response] *)

Definition interrupt_current_response (now : Z) : M session unit :=
  s <- get ;;
  if negb (agent_is_responding s) then ret tt
  else
    let current_time := now in
    if (current_time - last_interruption_time s <? INTERRUPTION_DEBOUNCE_MS)%Z
    then ret tt
    else
      modify (set_last_interruption_time current_time) ;;
      modify (set_interruption_event true) ;;
      (if running (current_agent_task s) then
         try_except (cancel_and_await AgentTask)
           is_CancelledError (fun _ => ret tt) ;;
         modify (set_current_agent_task None)
       else ret tt) ;;
      (if running (current_tts_task s) then
         try_except (cancel_and_await TtsTask)
           is_CancelledError (fun _ => ret tt) ;;
         modify (set_current_tts_task None)
       else ret tt) ;;
      try_except (send Interrupt) is_Exception (fun _ => ret tt).

(** ** [process_transcription] *)

Definition error_response : str :=
  lit "I'm sorry, I encountered an error. Please try again.".

Definition default_response : str :=
  lit "I'm sorry, I couldn't process that request.".

(** [await langgraph_store.add_memory(...)] *)
Definition add_memory (w : world) (text sender : str)
    : M session (option str) :=
  modify (fun s => set_stored (stored s ++ [(sender, text)]) s) ;;
  lift (Store.add_memory (langgraph_store w) (conversation_id w)
          text sender None).

Definition count_message : M session unit :=
  modify (fun s => set_message_count (S (message_count s)) s).

(** The body of [generate_tts]: forward the chunks of the stream until
    the event is seen set. *)
Fixpoint forward_chunks (w : world) (i : nat) (chunks : list bytes)
    (ending : option exc) : M session unit :=
  match chunks with
  | [] =>
      match ending with
      | Some e => raise e
      | None => ret tt
      end
  | audio_chunk :: rest =>
      stop <- is_set w (BeforeChunk i) ;;
      if stop then ret tt
      else send (Audio audio_chunk) ;; forward_chunks w (S i) rest ending
  end.

Definition generate_tts (w : world) (response_text : str) : M session unit :=
  let audio := TTS.generate_audio (speak w) response_text 1500 5 in
  forward_chunks w 0 (TTS.chunks audio) (TTS.ending audio).

(** The synthesis block of a turn whose reasoning succeeded.  The task is
    bound to a local [current_tts_task] of [process_transcription]: the
    function has no [nonlocal] declaration for it, so the session's
    reference is not assigned. *)
Definition synthesize (w : world) (response_text : str) : M session unit :=
  try_except
    (interrupted <- is_set w BeforeTts ;;
     if interrupted then ret tt
     else
       send TtsStart ;;
       finished <- try_except (generate_tts w response_text ;; ret true)
                     is_CancelledError (fun _ => ret false) ;;
       if negb finished then ret tt
       else
         interrupted <- is_set w AfterTts ;;
         if interrupted then ret tt else send TtsEnd)
    is_Exception
    (fun e =>
       send (TtsError match e with
                      | Exception err => message err
                      | CancelledError => []
                      end)).

(** Synthesis of the fallback reply: no task, no interruption check. *)
Fixpoint play (chunks : list bytes) (ending : option exc) : M session unit :=
  match chunks with
  | [] =>
      match ending with
      | Some e => raise e
      | None => ret tt
      end
  | audio_chunk :: rest => send (Audio audio_chunk) ;; play rest ending
  end.

Definition synthesize_error_response (w : world) : M session unit :=
  try_except
    (send TtsStart ;;
     let audio := TTS.generate_audio (speak w) error_response 1500 5 in
     play (TTS.chunks audio) (TTS.ending audio) ;;
     send TtsEnd)
    is_Exception (fun _ => ret tt).

(** The agent block.  As for synthesis, the agent task is bound to a
    local of [process_transcription]. *)
Definition run_turn (w : world) (user_text : str) : M session unit :=
  try_except
    (was_interrupted <- is_set w TurnStart ;;
     modify (set_interruption_event false) ;;
     if was_interrupted then ret tt
     else
       recent_memories <-
         lift (Store.get_recent_memories (langgraph_store w)
                 (conversation_id w) 20) ;;
       let history :=
         map (fun mem => (Store.sender mem, Store.text mem)) recent_memories in
       let state :=
         mkAgentState user_text (conversation_id w) history [] [] in
       outcome <- try_except
                    (result <- lift (ainvoke w state) ;; ret (Some result))
                    is_CancelledError (fun _ => ret None) ;;
       match outcome with
       | None => ret tt
       | Some result =>
           interrupted <- is_set w AfterAgent ;;
           if interrupted then ret tt
           else
             let response_text := Store.or_default result default_response in
             try_except
               (add_memory w response_text (lit "agent") ;; count_message)
               is_Exception (fun _ => ret tt) ;;
             send (AgentResponse response_text) ;;
             synthesize w response_text
       end)
    is_Exception
    (fun _ =>
       send (AgentResponse error_response) ;;
       synthesize_error_response w).

Definition process_transcription (w : world) (now : Z) (user_text : str)
    : M session unit :=
  if negb (truthy (strip user_text)) then ret tt
  else
    interrupt_current_response now ;;
    try_except
      (send (Transcription user_text) ;;
       try_except
         (add_memory w user_text (lit "user") ;; count_message)
         is_Exception (fun _ => ret tt) ;;
       run_turn w user_text)
      is_Exception (fun _ => ret tt).

(** The session after some frames were sent and some entries handed to
    the memory store (each counted in [message_count]), with the
    interruption event left at [ev]; everything else as it was. *)
Definition emit (frames : list frame) (entries : list (str * str)) (ev : bool)
    (s : session) : session :=
  mkSession (length entries + message_count s)
    (current_agent_task s) (current_tts_task s)
    ev (last_interruption_time s) (deepgram_active s)
    (sent s ++ frames) (cancelled s) (stored s ++ entries)
    (forwarded s) (received s) (closed s).

(** No interruption is seen at any check of the turn. *)
Definition quiet (w : world) : Prop := forall cp, raised_at w cp = false.

(** The text a turn replies with, given how awaiting the agent ended. *)
Definition reply (outcome : result (option str)) : str :=
  match outcome with
  | Ret result => Store.or_default result default_response
  | Raise _ => error_response
  end.

(** [process_transcription_queue]: the consumer takes one transcript at a
    time and awaits its turn before it takes the next.  An entry gives
    what the collaborators answer during the turn, the clock when it
    starts and what [get_transcription] returned ([None] on a timeout). *)
Fixpoint process_transcription_queue (turns : list (world * Z * option str))
    : M session unit :=
  match turns with
  | [] => ret tt
  | (w, now, user_text) :: rest =>
      try_except
        (match user_text with
         | Some text =>
             if truthy text then process_transcription w now text else ret tt
         | None => ret tt
         end)
        is_Exception (fun _ => ret tt) ;;
      process_transcription_queue rest
  end.

Definition is_interrupt (f : frame) : bool :=
  match f with Interrupt => true | _ => false end.

(** What the coordinator reads and writes: the two task references, the
    time of the last interruption, the cancellations made and the
    [interrupt] frames sent. *)
Definition coordinator_view (s : session)
    : option task * option task * Z * list task_name * list frame :=
  (current_agent_task s, current_tts_task s, last_interruption_time s,
   cancelled s, filter is_interrupt (sent s)).

(** A computation that leaves the coordinator's view alone. *)
Definition keeps {A : Type} (m : M session A) : Prop :=
  forall s, coordinator_view (snd (m s)) = coordinator_view s.

(** ** The inbound message loop *)

Inductive ws_message :=
| TextMessage (text : str)
| BytesMessage (data : bytes)
| OtherMessage
| Disconnect.                   (* [ws.receive()] raises WebSocketDisconnect *)

Inductive control :=
| Continue
| Break.

Fixpoint lookup (k : str) (fields : list (str * json)) : option json :=
  match fields with
  | [] => None
  | (k', v) :: rest => if str_eqb k k' then Some v else lookup k rest
  end.

(** [data.get(k)]: only a dict has the method. *)
Definition dict_get (data : json) (k : str) : result (option json) :=
  match data with
  | JObject fields => Ret (lookup k fields)
  | _ =>
      Raise (Exception
               (mkError AttributeError (lit "object has no attribute 'get'")))
  end.

Definition is_string (v : option json) (s : str) : bool :=
  match v with
  | Some (JString s') => str_eqb s' s
  | _ => false
  end.

Definition on_text (w : world) (text : str) : M session control :=
  let text_content := strip text in
  if negb (truthy text_content) then ret Continue
  else
    try_except
      (data <- lift (match json_loads w text_content with
                     | Some v => Ret v
                     | None =>
                         match json_raises w text_content with
                         | Some e => Raise (Exception e)
                         | None =>
                             Raise (Exception (mkError JSONDecodeError []))
                         end
                     end) ;;
       message_type <- lift (dict_get data (lit "type")) ;;
       if is_string message_type (lit "stop") then ret Break
       else if is_string message_type (lit "ping")
       then send Pong ;; ret Continue
       else ret Continue)
      (is_class JSONDecodeError)
      (fun _ => ret Continue).

Definition on_bytes (w : world) (audio_data : bytes) : M session control :=
  s <- get ;;
  if deepgram_active s then
    try_except
      (lift (lift_fallible (send_audio w audio_data)) ;;
       modify (fun s => set_forwarded (forwarded s ++ [audio_data]) s) ;;
       ret Continue)
      is_Exception
      (fun e =>
         if is_class ConnectionClosedOK e || is_class ConnectionClosedError e
         then modify (set_deepgram_active false) ;; ret Break
         else ret Continue)
  else ret Continue.

(** The [while True] loop over the frames the peer sends.  [inbox] lists
    the frames received so far; when they are all handled and none ended
    the loop, the loop is waiting in [ws.receive()]. *)
Fixpoint receive_loop (w : world) (inbox : list ws_message) : M session unit :=
  match inbox with
  | [] => ret tt
  | message :: rest =>
      modify (fun s => set_received (S (received s)) s) ;;
      match message with
      | Disconnect => ret tt
      | TextMessage text =>
          c <- on_text w text ;;
          match c with Break => ret tt | Continue => receive_loop w rest end
      | BytesMessage data =>
          c <- on_bytes w data ;;
          match c with Break => ret tt | Continue => receive_loop w rest end
      | OtherMessage => receive_loop w rest
      end
  end.

(** The loop with its handlers and the teardown that follows it, for
    frames that end the loop and a consumer task that ends when the
    teardown cancels it.  (The handler awaits the cancelled consumer
    before it closes the socket.  A consumer cancelled while it awaits
    its agent or synthesis task catches the [CancelledError] inside
    [process_transcription] and goes on polling; the handler then waits
    for it and does not get to [ws.close()].) *)
Definition serve (w : world) (inbox : list ws_message) : M session unit :=
  try_except (receive_loop w inbox) is_Exception (fun _ => ret tt) ;;
  modify (set_deepgram_active false) ;;
  modify (set_closed true).

End Voice.

(* ===================================================================== *)
(** * Sample collaborators and sessions *)
(* ===================================================================== *)

Module Sample.
Import Py Voice.

Definition backend : Store.backend :=
  Store.mkBackend (fun _ => inr []) (lit "2025-01-01T00:00:00")
    (fun _ _ _ => inr tt) (fun _ _ => inr []).

Definition dquote : ascii := ascii_of_nat 34.

(** The text frame [{"type": "ping"}]. *)
Definition ping_text : str :=
  lit "{" ++ [dquote] ++ lit "type" ++ [dquote] ++ lit ": " ++ [dquote]
  ++ lit "ping" ++ [dquote] ++ lit "}".

(** [json.loads] on the three payloads the samples use. *)
Definition json_loads (text : str) : option json :=
  if str_eqb text (lit "[]") then Some (JArray [])
  else if str_eqb text ping_text
  then Some (JObject [(lit "type", JString (lit "ping"))])
  else None.

Definition chunk (b : Byte.byte) : bytes := [b; b].

(** A speech stream of two chunks, whatever the text. *)
Definition speak (text : str) : TTS.stream :=
  TTS.mkStream [chunk Byte.x01; chunk Byte.x02] None.

Definition shipped : str := lit "Your order has shipped.".

(** A world whose agent answers [outcome] and where the interruption event
    is raised as [raised] tells. *)
Definition world_with (outcome : result (option str))
    (raised : checkpoint -> bool) : world :=
  mkWorld (lit "conversation-1") (Store.mkService true backend)
    (fun _ => outcome) speak raised json_loads (fun _ => inr tt)
    (fun _ => None).

Definition never (cp : checkpoint) : bool := false.

Definition calm : world := world_with (Ret (Some shipped)) never.

Definition failing : world :=
  world_with (Raise (Exception (mkError OtherException (lit "agent down"))))
    never.

(** A reply of 1506 characters: a word, a space, and one long word. *)
Definition long_reply : str := lit "hello " ++ repeat (TTS.ch "a") 1500.

(** A reply of three sentences, 174 characters. *)
Definition three_sentences : str :=
  lit "Your order number 4521 was shipped on Monday morning. "
  ++ lit "It should arrive at your address within three working days. "
  ++ lit "You will get a message from the courier on the day of delivery.".

Definition question : str := lit "What is my order status?".
Definition barge_in : str := lit "Actually cancel that".

End Sample.

(* ===================================================================== *)
(** * What a turn can send and store *)
(* ===================================================================== *)

Module Traces.
Import Py Voice.

(** The audio chunks the speech service yields for a text. *)
Definition spoken (w : world) (text : str) : list bytes :=
  TTS.chunks (TTS.generate_audio (speak w) text 1500 5).

(** The frames of a synthesis block over the chunks [audio]: none; the
    bracket opened and left open after some of the chunks; the bracket
    closed by [tts_end] after all of them; [tts_error] after all of
    them. *)
Inductive synthesis_frames (audio : list bytes) : list frame -> Prop :=
| NotStarted : synthesis_frames audio []
| Stopped (k : nat) :
    synthesis_frames audio (TtsStart :: map Audio (firstn k audio))
| Ended : synthesis_frames audio (TtsStart :: map Audio audio ++ [TtsEnd])
| Failed (message : str) :
    synthesis_frames audio (TtsStart :: map Audio audio ++ [TtsError message]).

(** The frames a turn sends after the coordinator's part, with the
    entries it hands to the memory store. *)
Inductive turn_effects (w : world) (user_text : str)
    : list frame -> list (str * str) -> Prop :=
| Blank :
    truthy (strip user_text) = false ->
    turn_effects w user_text [] []
| Dropped :
    turn_effects w user_text
      [Transcription user_text] [(lit "user", user_text)]
| Replied (response_text : str) (fs : list frame) :
    synthesis_frames (spoken w response_text) fs ->
    turn_effects w user_text
      (Transcription user_text :: AgentResponse response_text :: fs)
      [(lit "user", user_text); (lit "agent", response_text)]
| FellBack (closed : bool) :
    turn_effects w user_text
      (Transcription user_text :: AgentResponse error_response :: TtsStart
       :: map Audio (spoken w error_response)
       ++ (if closed then [TtsEnd] else []))
      [(lit "user", user_text)].

(** How a call ends: normally, or with the cancellation of the caller. *)
Definition returns_or_cancelled (r : result unit) : Prop :=
  r = Ret tt \/ r = Raise CancelledError.

(** The session after the message loop: [pongs] answers sent, [audio]
    passed to the STT service, [read] frames read, the STT connection
    [active] or not; everything else as it was. *)
Definition after_loop (pongs : nat) (audio : list bytes) (read : nat)
    (active : bool) (s : session) : session :=
  mkSession (message_count s) (current_agent_task s) (current_tts_task s)
    (interruption_event s) (last_interruption_time s) active
    (sent s ++ repeat Pong pongs) (cancelled s) (stored s)
    (forwarded s ++ audio) (read + received s) (closed s).

Definition is_text (m : ws_message) : bool :=
  match m with TextMessage _ => true | _ => false end.

(** The payloads of the binary frames, in order. *)
Fixpoint payloads (inbox : list ws_message) : list bytes :=
  match inbox with
  | [] => []
  | BytesMessage data :: rest => data :: payloads rest
  | _ :: rest => payloads rest
  end.

(** [xs] is [ys] with some elements left out. *)
Inductive sublist {A : Type} : list A -> list A -> Prop :=
| sub_nil : sublist [] []
| sub_skip (x : A) (xs ys : list A) : sublist xs ys -> sublist xs (x :: ys)
| sub_keep (x : A) (xs ys : list A) :
    sublist xs ys -> sublist (x :: xs) (x :: ys).

End Traces.

Module Scenarios.
Import Py Voice.

(** A speech stream that fails after its two chunks. *)
Definition speak_failing (text : str) : TTS.stream :=
  TTS.mkStream [Sample.chunk Byte.x01; Sample.chunk Byte.x02]
    (Some (Exception (mkError OtherException (lit "deepgram closed")))).

Definition tts_down : world :=
  mkWorld (lit "conversation-1") (Store.mkService true Sample.backend)
    (fun _ => Ret (Some Sample.shipped)) speak_failing Sample.never
    Sample.json_loads (fun _ => inr tt) (fun _ => None).

(** The agent task is cancelled while the turn awaits it. *)
Definition agent_cancelled : world :=
  Sample.world_with (Raise CancelledError) Sample.never.

(** Two transcripts and a timeout, 100 ms apart. *)
Definition three_polls : list (world * Z * option str) :=
  [(Sample.calm, 1000%Z, Some Sample.question);
   (Sample.calm, 1100%Z, None);
   (Sample.calm, 1200%Z, Some Sample.barge_in)].

(** The STT connection has closed: forwarding audio fails. *)
Definition stt_closed : world :=
  mkWorld (lit "conversation-1") (Store.mkService true Sample.backend)
    (fun _ => Ret (Some Sample.shipped)) Sample.speak Sample.never
    Sample.json_loads
    (fun _ => inl (mkError ConnectionClosedOK (lit "closed")))
    (fun _ => None).

Definition listening : session := set_deepgram_active true initial.

(** A store whose search lists three items out of order, one of them
    without a value. *)
Definition stored_item (k text sender timestamp : string) : Store.item :=
  Store.mkItem (lit k)
    (Some (Store.mkGot (Some (lit text)) (Some (lit sender))
             (Some (lit timestamp)) None)).

Definition listed : list Store.item :=
  [stored_item "agent_2025-03-01T10:00:05" "It has shipped." "agent"
     "2025-03-01T10:00:05";
   Store.mkItem (lit "empty") None;
   stored_item "user_2025-03-01T10:00:00" "Where is my order?" "user"
     "2025-03-01T10:00:00";
   stored_item "user_2025-06-01T09:00:00" "Thanks" "user"
     "2025-06-01T09:00:00"].

Definition archive : Store.service :=
  Store.mkService true
    (Store.mkBackend (fun _ => inr []) (lit "2025-06-02T00:00:00")
       (fun _ _ _ => inr tt) (fun _ _ => inr listed)).

(** Deleting works for the agent's memory and fails for the user's. *)
Definition adelete_users_fail (ns : Store.namespace) (k : str)
    : fallible unit :=
  if str_eqb k (lit "user_2025-03-01T10:00:00")
  then inl (mkError OtherException (lit "write conflict"))
  else inr tt.

Definition cutoff_may (days : Z) : str := lit "2025-05-03T00:00:00".

End Scenarios.

Module Bounds.
Import Py Re.

(** The fewest characters a match of the items can span. *)
Fixpoint min_length (its : list item) : nat :=
  match its with
  | [] => 0
  | it :: its' => rmin it + min_length its'
  end.

(** The replacement is never longer than what it replaces: a group is
    part of the match, a constant is within the pattern's least span. *)
Definition shrinking (p : pattern) (r : repl) : Prop :=
  match r with
  | Group1 => True
  | Const c => length c <= min_length (items p)
  end.

End Bounds.

Module Order.
Import Py Store STT.

(** Adjacent entries never go back in time: no timestamp is smaller than
    the one before it. *)
Fixpoint chronological (ms : list memory) : bool :=
  match ms with
  | m :: rest =>
      match rest with
      | m' :: _ => negb (str_ltb (timestamp m') (timestamp m))
      | [] => true
      end && chronological rest
  | [] => true
  end.

(** The transcripts of the events that are final results with a
    non-empty first alternative, in the order of the events. *)
Definition final_transcripts (evs : list event) : list str :=
  flat_map
    (fun ev =>
       match first_transcript ev with
       | Some sentence =>
           if truthy sentence && negb (interim ev) then [sentence] else []
       | None => []
       end)
    evs.

(** [n] successive calls of [get_transcription]. *)
Fixpoint poll (n : nat) (q : queue) : list (option str) * queue :=
  match n with
  | 0 => ([], q)
  | S n' =>
      let (got, q') := get_transcription q in
      let (later, q'') := poll n' q' in
      (got :: later, q'')
  end.

End Order.

(* ===================================================================== *)
(** * String methods used by the router and the LLM service *)
(* ===================================================================== *)

Module Text.
Import Py.

(** [str.lower] on a character below 256: the letters A-Z and the
    Latin-1 capitals (all of 192-222 but the multiplication sign). *)
Definition lower_char (c : ascii) : ascii :=
  let n := nat_of_ascii c in
  if ((65 <=? n) && (n <=? 90))
     || ((192 <=? n) && (n <=? 222) && negb (n =? 215))
  then ascii_of_nat (n + 32)
  else c.

Definition lower (s : str) : str := map lower_char s.

(** [str.upper] on a character below 256, as code points: the sharp s
    becomes two letters, the micro sign and the y with diaeresis leave
    Latin-1. *)
Definition upper_char (c : ascii) : list nat :=
  let n := nat_of_ascii c in
  if ((97 <=? n) && (n <=? 122))
     || ((224 <=? n) && (n <=? 254) && negb (n =? 247))
  then [n - 32]
  else if n =? 223 then [83; 83]
  else if n =? 181 then [924]
  else if n =? 255 then [376]
  else [n].

Definition upper (s : str) : list nat := flat_map upper_char s.

Definition codes (s : string) : list nat := map nat_of_ascii (lit s).

Fixpoint starts_with {A : Type} (eqb : A -> A -> bool) (needle s : list A)
    : bool :=
  match needle, s with
  | [], _ => true
  | _ :: _, [] => false
  | x :: needle', y :: s' => eqb x y && starts_with eqb needle' s'
  end.

(** [needle in s]. *)
Fixpoint contains {A : Type} (eqb : A -> A -> bool) (needle s : list A)
    : bool :=
  starts_with eqb needle s
  || match s with
     | [] => false
     | _ :: s' => contains eqb needle s'
     end.

(** [xs[-n:]] for a positive [n]. *)
Definition last_n {A : Type} (n : nat) (xs : list A) : list A :=
  skipn (length xs - n) xs.

End Text.

(* ===================================================================== *)
(** * app/services/llm_gemini.py *)
(* ===================================================================== *)

Module LLM.
Import Py Text.

Inductive message :=
| SystemMessage (content : str)
| HumanMessage (content : str)
| AIMessage (content : str).

(** An entry of the conversation history: a dict whose [role] and
    [content] keys may be missing. *)
Record entry := mkEntry { role : option str; content : option str }.

Definition convert_history_to_langchain_messages
    (conversation_history : list entry) : list message :=
  flat_map
    (fun msg =>
       let role := Store.or_default (role msg) (lit "user") in
       let content := Store.or_default (content msg) [] in
       if str_eqb role (lit "user") then [HumanMessage content]
       else if str_eqb role (lit "assistant") || str_eqb role (lit "agent")
       then [AIMessage content]
       else [])
    conversation_history.

Definition LLM_ERROR : str := lit "__LLM_ERROR__".
Definition RATE_LIMIT_ERROR : str := lit "__RATE_LIMIT_ERROR__".

(** The messages [generate] builds for [llm.invoke]. *)
Definition request (text : str) (conversation_history : list entry)
    (system_prompt : option str) : list message :=
  match system_prompt with
  | Some p => if truthy p then [SystemMessage p] else []
  | None => []
  end
  ++ (if truthy conversation_history
      then convert_history_to_langchain_messages
             (last_n 10 conversation_history)
      else [])
  ++ [HumanMessage text].

(** The rate-limit test on [str(e).upper()]. *)
Definition rate_limited (error_str : list nat) : bool :=
  contains Nat.eqb (codes "429") error_str
  || contains Nat.eqb (codes "RESOURCE_EXHAUSTED") error_str
  || contains Nat.eqb (codes "QUOTA") error_str
  || contains Nat.eqb (codes "RATE") error_str.

(** [generate]; [invoke] is [llm.invoke]: the [content] of the response
    ([None] when there is none), or the exception raised.  A history of
    [None] behaves as the empty list. *)
Definition generate (invoke : list message -> fallible (option str))
    (text : str) (conversation_history : list entry)
    (system_prompt : option str) : str :=
  match invoke (request text conversation_history system_prompt) with
  | inr (Some content) => if truthy content then strip content else LLM_ERROR
  | inr None => LLM_ERROR
  | inl e =>
      if rate_limited (upper (Py.message e)) then RATE_LIMIT_ERROR
      else LLM_ERROR
  end.

End LLM.

(* ===================================================================== *)
(** * app/langgraph/nodes/router.py and app/langgraph/graph.py *)
(* ===================================================================== *)

Module Router.
Import Py Text LLM.

(** The keys of the state dict the router reads or writes; [None] is a
    missing key. *)
Record state := mkState {
  user_input : str;
  conversation_history : option (list entry);
  intent : option str;
  agent_type : option str;
  extracted_slots : option (list (str * str));
  missing_slots : option (list str)
}.

Definition has_files (user_input : str) : bool :=
  contains Ascii.eqb (lit "[Document:") user_input
  || contains Ascii.eqb (lit "[Image:") user_input
  || contains Ascii.eqb (lit "Attached files:") user_input.

Definition routed (intent agent_type : string) (st : state) : state :=
  mkState (user_input st) (conversation_history st)
    (Some (lit intent)) (Some (lit agent_type)) (Some []) (Some []).

(** [classify_intent]; the text of the orchestrator prompt is a
    parameter. *)
Definition classify_intent (invoke : list message -> fallible (option str))
    (orchestrator_prompt : str) (st : state) : state :=
  let conversation_history :=
    Store.or_default (conversation_history st) [] in
  if has_files (user_input st) then routed "file_analysis" "general_agent" st
  else
    let agent_classification :=
      generate invoke (user_input st)
        (if truthy conversation_history then last_n 5 conversation_history
         else [])
        (Some orchestrator_prompt) in
    let agent_classification := lower (strip agent_classification) in
    if contains Ascii.eqb (lit "order") agent_classification
    then routed "order_inquiry" "order_agent" st
    else if contains Ascii.eqb (lit "product") agent_classification
    then routed "product_inquiry" "product_agent" st
    else if contains Ascii.eqb (lit "billing") agent_classification
    then routed "billing_inquiry" "billing_agent" st
    else if contains Ascii.eqb (lit "account") agent_classification
    then routed "account_inquiry" "account_agent" st
    else if contains Ascii.eqb (lit "general") agent_classification
    then routed "general_inquiry" "general_agent" st
    else routed "general_inquiry" "general_agent" st.

Definition route_to_agent (st : state) : str :=
  Store.or_default (agent_type st) (lit "general_agent").

(** The path map of the conditional edges that leave the router. *)
Definition path_map : list (str * str) :=
  [(lit "order_agent", lit "order_agent");
   (lit "product_agent", lit "product_agent");
   (lit "billing_agent", lit "billing_agent");
   (lit "account_agent", lit "account_agent");
   (lit "general_agent", lit "general_agent")].

Fixpoint assoc {A : Type} (k : str) (d : list (str * A)) : option A :=
  match d with
  | [] => None
  | (k', v) :: rest => if str_eqb k k' then Some v else assoc k rest
  end.

(** The node that runs after the router: [None] when the path map has no
    entry for what [route_to_agent] returns. *)
Definition next_node (st : state) : option str :=
  assoc (route_to_agent st) path_map.

(** The intent the router records for each agent. *)
Definition intent_of (agent : str) : str :=
  lit (if str_eqb agent (lit "order_agent") then "order_inquiry"
       else if str_eqb agent (lit "product_agent") then "product_inquiry"
       else if str_eqb agent (lit "billing_agent") then "billing_inquiry"
       else if str_eqb agent (lit "account_agent") then "account_inquiry"
       else "general_inquiry").

End Router.

(* ===================================================================== *)
(** * app/services/langgraph_store.py: clean-up *)
(* ===================================================================== *)

Module Maintenance.
Import Py Store.

(** The deletion loop: the count so far and the keys deleted so far, in
    order; it stops at the first [adelete] that raises. *)
Fixpoint delete_each (adelete : namespace -> str -> fallible unit)
    (ns : namespace) (cutoff : str) (results : list item)
    (deleted_count : Z) (deleted : list str) : result Z * list str :=
  match results with
  | [] => (Ret deleted_count, deleted)
  | it :: rest =>
      match value it with
      | Some v =>
          let timestamp := or_default (got_timestamp v) [] in
          if str_ltb timestamp cutoff then
            match adelete ns (key it) with
            | inl e => (Raise (Exception e), deleted)
            | inr _ =>
                delete_each adelete ns cutoff rest (deleted_count + 1)%Z
                  (deleted ++ [key it])
            end
          else delete_each adelete ns cutoff rest deleted_count deleted
      | None => delete_each adelete ns cutoff rest deleted_count deleted
      end
  end.

(** [delete_old_memories]: what it returns, and the keys it deleted.
    [cutoff] is [(datetime.utcnow() - timedelta(days=days)).isoformat()]
    and [adelete] the store's method. *)
Definition delete_old_memories (self : service)
    (adelete : namespace -> str -> fallible unit) (cutoff : Z -> str)
    (conversation_id : str) (days : Z) : Z * list str :=
  if negb (_available self) then (0%Z, [])
  else
    match asearch (store self) [conversation_id; lit "memories"] 1000 with
    | inl _ => (0%Z, [])
    | inr results =>
        match delete_each adelete [conversation_id; lit "memories"]
                (cutoff days) results 0%Z []
        with
        | (Ret deleted_count, deleted) => (deleted_count, deleted)
        | (Raise _, deleted) => (0%Z, deleted)
        end
    end.

(** The keys of the items with a value whose timestamp is below the
    cutoff, in the order of the search result. *)
Definition expired (cutoff : str) (results : list item) : list str :=
  flat_map
    (fun it =>
       match value it with
       | Some v =>
           if str_ltb (or_default (got_timestamp v) []) cutoff
           then [key it] else []
       | None => []
       end)
    results.

End Maintenance.

Module Routes.
Import Py Text LLM Router.

(** The messages the router's call of [generate] hands to the model. *)
Definition asked (orchestrator_prompt : str) (st : state) : list message :=
  let conversation_history :=
    Store.or_default (conversation_history st) [] in
  request (user_input st)
    (if truthy conversation_history then last_n 5 conversation_history
     else [])
    (Some orchestrator_prompt).

Definition agents : list str :=
  [lit "order_agent"; lit "product_agent"; lit "billing_agent";
   lit "account_agent"; lit "general_agent"].

Definition is_system (m : message) : bool :=
  match m with SystemMessage _ => true | _ => false end.

(** What [chat_ws] hands to the graph for a message with file context. *)
Definition with_attachments (user_text file_context : str) : str :=
  user_text ++ [Re.newline; Re.newline] ++ lit "Attached files:"
  ++ file_context.

(** A model that fails with a given message, and one that answers. *)
Definition failing_model (msg : string) (_ : list message)
    : fallible (option str) :=
  inl (mkError OtherException (lit msg)).

Definition answering_model (answer : string) (_ : list message)
    : fallible (option str) :=
  inr (Some (lit answer)).

Definition asking (text : string) : state :=
  mkState (lit text) None None None None None.

End Routes.

(* ===================================================================== *)
(** * app/services/agent_tools.py: the account tools *)
(* ===================================================================== *)

Module Tools.
Import Py Text Voice.

(** An entry of [ACCOUNTS_DB]. *)
Record account := mkAccount {
  email : str;
  username : str;
  name : str;
  phone : str;
  address : str;
  account_created : str;
  verified : bool
}.

(** The dict [ACCOUNTS_DB], keys in insertion order. *)
Definition accounts := list (str * account).

Definition ACCOUNTS_DB : accounts :=
  [(lit "user@example.com",
    mkAccount (lit "user@example.com") (lit "johndoe") (lit "John Doe")
      (lit "555-123-4567") (lit "123 Main St, New York, NY")
      (lit "2025-06-15") true);
   (lit "jane@example.com",
    mkAccount (lit "jane@example.com") (lit "janedoe") (lit "Jane Doe")
      (lit "555-987-6543") (lit "456 Oak Ave, Los Angeles, CA")
      (lit "2025-09-20") true)].

Fixpoint find (k : str) (db : accounts) : option account :=
  match db with
  | [] => None
  | (k', a) :: rest => if str_eqb k k' then Some a else find k rest
  end.

(** [del db[k]]. *)
Definition remove (k : str) (db : accounts) : accounts :=
  filter (fun entry => negb (str_eqb k (fst entry))) db.

(** [db[k] = a]: in place for a key that is there, at the end for a new
    one. *)
Fixpoint assign (k : str) (a : account) (db : accounts) : accounts :=
  match db with
  | [] => [(k, a)]
  | (k', a') :: rest =>
      if str_eqb k k' then (k, a) :: rest else (k', a') :: assign k a rest
  end.

Definition set_email (e : str) (a : account) : account :=
  mkAccount e (username a) (name a) (phone a) (address a)
    (account_created a) (verified a).

Definition set_username (u : str) (a : account) : account :=
  mkAccount (email a) u (name a) (phone a) (address a)
    (account_created a) (verified a).

(** The dict of an account, as [json.dumps] gets it. *)
Definition account_fields (a : account) : list (str * json) :=
  [(lit "email", JString (email a));
   (lit "username", JString (username a));
   (lit "name", JString (name a));
   (lit "phone", JString (phone a));
   (lit "address", JString (address a));
   (lit "account_created", JString (account_created a));
   (lit "verified", JBool (verified a))].

Definition error (message : str) : json :=
  JObject [(lit "error", JString message)].

Definition get_account_info (email field : str) (db : accounts) : json :=
  let email := strip (lower email) in
  match find email db with
  | None => error (lit "Account with email " ++ email ++ lit " not found")
  | Some account =>
      if str_eqb field (lit "all") then JObject (account_fields account)
      else
        match lookup field (account_fields account) with
        | Some v => JObject [(field, v)]
        | None =>
            error (lit "Field '" ++ field ++ lit "' not found in account")
        end
  end.

Definition update_account_email (old_email new_email : str) (db : accounts)
    : json * accounts :=
  let old_email := strip (lower old_email) in
  let new_email := strip (lower new_email) in
  match find old_email db with
  | None =>
      (error (lit "Account with email " ++ old_email ++ lit " not found"), db)
  | Some account =>
      match find new_email db with
      | Some _ =>
          (error (lit "Email " ++ new_email ++ lit " is already in use"), db)
      | None =>
          (JObject
             [(lit "success", JBool true);
              (lit "message",
               JString (lit "Email updated from " ++ old_email ++ lit " to "
                        ++ new_email));
              (lit "verification_sent", JBool true)],
           remove old_email
             (assign new_email (set_email new_email account) db))
      end
  end.

(** [s.split()]: the maximal runs of characters that are not white
    space. *)
Fixpoint words_from (word : str) (s : str) : list str :=
  match s with
  | [] => if truthy word then [word] else []
  | c :: s' =>
      if isspace c
      then (if truthy word then word :: words_from [] s'
            else words_from [] s')
      else words_from (word ++ [c]) s'
  end.

Definition split_words (s : str) : list str := words_from [] s.

Definition update_account_username (email new_username : str)
    (db : accounts) : json * accounts :=
  let email := strip (lower email) in
  let new_username := strip new_username in
  match find email db with
  | None =>
      (error (lit "Account with email " ++ email ++ lit " not found"), db)
  | Some account =>
      let username_parts := split_words new_username in
      if length username_parts <? 2 then
        (JObject
           [(lit "success", JBool false);
            (lit "partial_input", JString new_username);
            (lit "message",
             JString (lit "Username must include both first and last name. Please provide the full name."));
            (lit "missing",
             JString (if length username_parts =? 1 then lit "last_name"
                      else lit "first_and_last_name"))],
         db)
      else
        let old_username := username account in
        (JObject
           [(lit "success", JBool true);
            (lit "message",
             JString (lit "Username updated from '" ++ old_username
                      ++ lit "' to '" ++ new_username ++ lit "'"))],
         assign email (set_username new_username account) db)
  end.

(** Every account is filed under its own address, and no address is used
    twice. *)
Definition consistent (db : accounts) : Prop :=
  NoDup (map fst db) /\
  Forall (fun entry => email (snd entry) = fst entry) db.

(** The calls an agent can make that change [ACCOUNTS_DB]. *)
Inductive call :=
| UpdateEmail (old_email new_email : str)
| UpdateUsername (email new_username : str).

Definition perform (c : call) (db : accounts) : accounts :=
  match c with
  | UpdateEmail old_email new_email =>
      snd (update_account_email old_email new_email db)
  | UpdateUsername email new_username =>
      snd (update_account_username email new_username db)
  end.

Definition succeeded (j : json) : bool :=
  match j with
  | JObject fields =>
      match lookup (lit "success") fields with
      | Some (JBool true) => true
      | _ => false
      end
  | _ => false
  end.

End Tools.

Module Book.
Import Py Text Voice Tools.

(** What a tool call answers. *)
Definition answer (c : call) (db : accounts) : json :=
  match c with
  | UpdateEmail old_email new_email =>
      fst (update_account_email old_email new_email db)
  | UpdateUsername email new_username =>
      fst (update_account_username email new_username db)
  end.

(** An address as the tools look it up. *)
Definition normalised (email : str) : str := strip (lower email).

End Book.

(* ===================================================================== *)
(** * The sessions [voice_ws] reaches *)
(* ===================================================================== *)

Module Program.
Import Py Voice.

(** [voice_ws] starts from [initial]; it marks the STT connection active
    and sends [ready]; its message loop handles the inbound frames; its
    one consumer task runs one call of [process_transcription] at a time
    and awaits it before it takes the next transcript from the queue.
    Nothing else runs.  [interrupt_current_response], the only code that
    sets the interruption event or cancels a task, is called by
    [process_transcription] alone, so while a turn runs no other
    coroutine sets the event: every check of a turn reads what the turn
    itself left, which is what [quiet] says of the turn's world. *)
Inductive reachable : session -> Prop :=
| reach_initial : reachable initial
| reach_connected (s : session) :
    reachable s -> reachable (set_deepgram_active true s)
| reach_ready (message : str) (s : session) :
    reachable s -> reachable (snd (send (Ready message) s))
| reach_frames (w : world) (inbox : list ws_message) (s : session) :
    reachable s -> reachable (snd (receive_loop w inbox s))
| reach_turn (w : world) (now : Z) (user_text : str) (s : session) :
    quiet w -> reachable s ->
    reachable (snd (process_transcription w now user_text s)).

(** A computation that leaves the interruption event clear when it finds
    it clear. *)
Definition steady {A : Type} (m : M session A) : Prop :=
  forall s, interruption_event s = false ->
            interruption_event (snd (m s)) = false.

(** The worlds of a list of turns are all quiet. *)
Definition quiet_turns (turns : list (world * Z * option str)) : Prop :=
  Forall (fun turn => quiet (fst (fst turn))) turns.

End Program.

Module Budget.
Import Py Re TTS.

(** The value of [result] in [create_short_tts_version] after the loop
    over the sentences, before the test that chooses between it and the
    word-boundary fallback. *)
Definition kept_sentences (cleaned : str) (max_chars max_sentences : Z)
    : str :=
  take_fitting max_chars []
    (slice_to max_sentences (combine_sentences (split delimiter cleaned))).

End Budget.

(* ===================================================================== *)
(** * Properties *)
(* ===================================================================== *)

Import Py.

(** ** Running a computation step by step *)

Section Steps.
Context {S A B : Type}.

Lemma bind_ret (m : M S A) (k : A -> M S B) (s s' : S) (a : A) :
  m s = (Ret a, s') -> bind m k s = k a s'.
Proof. intros H. unfold bind. rewrite H. reflexivity. Qed.

Lemma bind_raise (m : M S A) (k : A -> M S B) (s s' : S) (e : exc) :
  m s = (Raise e, s') -> bind m k s = (Raise e, s').
Proof. intros H. unfold bind. rewrite H. reflexivity. Qed.

Lemma try_ret (m : M S A) (caught : exc -> bool) (h : exc -> M S A)
    (s s' : S) (a : A) :
  m s = (Ret a, s') -> try_except m caught h s = (Ret a, s').
Proof. intros H. unfold try_except. rewrite H. reflexivity. Qed.

Lemma try_caught (m : M S A) (caught : exc -> bool) (h : exc -> M S A)
    (s s' : S) (e : exc) :
  m s = (Raise e, s') -> caught e = true -> try_except m caught h s = h e s'.
Proof. intros H Hc. unfold try_except. rewrite H, Hc. reflexivity. Qed.

Lemma try_uncaught (m : M S A) (caught : exc -> bool) (h : exc -> M S A)
    (s s' : S) (e : exc) :
  m s = (Raise e, s') -> caught e = false ->
  try_except m caught h s = (Raise e, s').
Proof. intros H Hc. unfold try_except. rewrite H, Hc. reflexivity. Qed.

End Steps.

(** ** The interruption coordinator *)

Section Coordinator.
Import Voice.

Lemma interrupt_idle (now : Z) (s : session) :
  agent_is_responding s = false ->
  interrupt_current_response now s = (Ret tt, s).
Proof.
  intros Hidle. unfold interrupt_current_response, bind, get.
  rewrite Hidle. reflexivity.
Qed.

Lemma interrupt_too_soon (now : Z) (s : session) :
  (now - last_interruption_time s < INTERRUPTION_DEBOUNCE_MS)%Z ->
  interrupt_current_response now s = (Ret tt, s).
Proof.
  intros Hsoon. unfold interrupt_current_response, bind, get.
  destruct (agent_is_responding s); [simpl | reflexivity].
  apply Z.ltb_lt in Hsoon. rewrite Hsoon. reflexivity.
Qed.

(** The session an accepted interruption leaves behind. *)
Lemma interrupt_accepted (now : Z) (s : session) :
  agent_is_responding s = true ->
  (INTERRUPTION_DEBOUNCE_MS <= now - last_interruption_time s)%Z ->
  interrupt_current_response now s =
    (Ret tt,
     mkSession (message_count s)
       (if running (current_agent_task s) then None else current_agent_task s)
       (if running (current_tts_task s) then None else current_tts_task s)
       true now (deepgram_active s)
       (sent s ++ [Interrupt]) (cancelled s ++ active_tasks s)
       (stored s) (forwarded s) (received s) (closed s)).
Proof.
  intros Hact Hlate. unfold interrupt_current_response, bind, get.
  rewrite Hact. simpl.
  apply Z.ltb_ge in Hlate. rewrite Hlate.
  unfold active_tasks, agent_is_responding in *.
  destruct s as [mc at_ tt_ ev lt da se ca st fw rc cl]; simpl in *.
  destruct (running at_), (running tt_); simpl in *;
    try discriminate; rewrite ?app_nil_r, <- ?app_assoc; reflexivity.
Qed.

End Coordinator.

(** ** The memory store *)

Section MemoryStore.
Import Store.

Lemma add_memory_returns (self : service) (conversation_id text sender : str)
    (md : option metadata) :
  exists r, add_memory self conversation_id text sender md = Ret r.
Proof.
  unfold add_memory.
  destruct (_available self); simpl; [| eauto].
  destruct (create_embedding (store self) text) as [e | emb]; simpl; [eauto |].
  destruct (aput (store self) _ _ _) as [e | []]; simpl; eauto.
Qed.

Lemma get_recent_memories_returns (self : service) (conversation_id : str)
    (limit : Z) :
  exists ms, get_recent_memories self conversation_id limit = Ret ms.
Proof.
  unfold get_recent_memories.
  destruct (_available self); simpl; [| eauto].
  destruct (asearch (store self) _ _) as [e | results]; simpl; eauto.
Qed.

(** C10.  [add_memory] and [get_recent_memories] never raise: each always
    returns a value; [add_memory] returns [None] when the store is
    unavailable, when the embedding cannot be computed and when the write
    fails (and the key otherwise); [get_recent_memories] returns the empty
    list when the store is unavailable and when the search fails. *)
Theorem C10_store_never_raises (self : service) (conversation_id text sender : str)
    (md : option metadata) (limit : Z) :
  (exists r,
     add_memory self conversation_id text sender md = Ret r /\
     (_available self = false -> r = None) /\
     (forall e, create_embedding (store self) text = inl e -> r = None) /\
     (forall emb e,
        create_embedding (store self) text = inr emb ->
        aput (store self) [conversation_id; lit "memories"]
          (sender ++ lit "_" ++ utcnow_isoformat (store self))
          (mkPut text sender (utcnow_isoformat (store self)) emb
             (or_default md [])) = inl e ->
        r = None) /\
     (forall emb,
        _available self = true ->
        create_embedding (store self) text = inr emb ->
        aput (store self) [conversation_id; lit "memories"]
          (sender ++ lit "_" ++ utcnow_isoformat (store self))
          (mkPut text sender (utcnow_isoformat (store self)) emb
             (or_default md [])) = inr tt ->
        r = Some (sender ++ lit "_" ++ utcnow_isoformat (store self))))
  /\
  (exists ms,
     get_recent_memories self conversation_id limit = Ret ms /\
     (_available self = false -> ms = []) /\
     (forall e,
        asearch (store self) [conversation_id; lit "memories"] limit = inl e ->
        ms = [])).
Proof.
  split.
  - unfold add_memory.
    destruct (_available self) eqn:Hav; simpl.
    + destruct (create_embedding (store self) text) as [e | emb] eqn:Hemb; simpl.
      * exists None. repeat split; intros; try reflexivity; discriminate.
      * destruct (aput (store self) _ _ _) as [e | []] eqn:Hput; simpl.
        -- exists None. repeat split; intros; try reflexivity; try discriminate.
           match goal with H : inr _ = inr _ |- _ => injection H as <- end.
           congruence.
        -- eexists. split; [reflexivity |].
           repeat split; intros; try discriminate; try reflexivity.
           match goal with H : inr _ = inr _ |- _ => injection H as <- end.
           congruence.
    + exists None. repeat split; intros; try reflexivity; discriminate.
  - unfold get_recent_memories.
    destruct (_available self) eqn:Hav; simpl.
    + destruct (asearch (store self) _ _) as [e | results] eqn:Hs; simpl.
      * exists []. repeat split; intros; reflexivity.
      * eexists. split; [reflexivity |]. split; intros; discriminate.
    + exists []. repeat split; intros; reflexivity.
Qed.

End MemoryStore.

(** ** The transcription source *)

Section TranscriptionSource.
Import STT.

(** What one call of the handler does to the queue. *)
Lemma on_message_cases (ev : event) (q : queue) :
  _on_message ev q = q \/
  exists sentence,
    first_transcript ev = Some sentence /\ sentence <> [] /\
    interim ev = false /\ _on_message ev q = q ++ [sentence].
Proof.
  destruct ev as [| [ch |] fin |]; simpl; auto.
  destruct (alternatives ch) as [| alt alts]; auto.
  destruct (transcript alt) as [sentence |]; auto.
  destruct sentence as [| c sentence]; simpl; auto.
  destruct fin as [| | []]; simpl; auto;
    right; exists (c :: sentence); repeat split; discriminate.
Qed.

Lemma deliver_from_final (evs seen : list event) (q : queue) :
  Forall (from_final seen) q ->
  Forall (from_final (seen ++ evs)) (deliver evs q).
Proof.
  revert seen q. induction evs as [| ev evs IH]; intros seen q Hq.
  - rewrite app_nil_r. exact Hq.
  - simpl. replace (seen ++ ev :: evs) with ((seen ++ [ev]) ++ evs)
      by (rewrite <- app_assoc; reflexivity).
    apply IH.
    assert (Hweak : Forall (from_final (seen ++ [ev])) q).
    { eapply Forall_impl; [| exact Hq].
      intros s [Hne (ev' & Hin & Ht & Hi)]. split; [exact Hne |].
      exists ev'. split; [apply in_or_app; left; exact Hin | auto]. }
    destruct (on_message_cases ev q) as [-> | (s & Ht & Hne & Hi & ->)];
      [exact Hweak |].
    apply Forall_app. split; [exact Hweak |].
    constructor; [| constructor].
    split; [exact Hne |]. exists ev.
    split; [apply in_or_app; right; left; reflexivity | auto].
Qed.

(** C9.  The message handler enqueues a transcript only when it is the
    non-empty first alternative of a results event that is not interim
    (its [is_final] is true; an event without the attribute counts as
    final); interim results and empty transcripts leave the queue as it
    is; so whatever the consumer dequeues is a non-empty transcript of a
    final result. *)
Theorem C9_only_final_transcripts_enqueued :
  (forall ev q,
     _on_message ev q = q \/
     exists sentence,
       first_transcript ev = Some sentence /\ sentence <> [] /\
       interim ev = false /\ _on_message ev q = q ++ [sentence]) /\
  (forall ch q,
     _on_message (ListenV1ResultsEvent ch (AttrBool false)) q = q /\
     _on_message (ListenV1ResultsEvent ch AttrNone) q = q) /\
  (forall ev q,
     first_transcript ev = None \/ first_transcript ev = Some [] ->
     _on_message ev q = q) /\
  (forall ch fin q sentence,
     In sentence (_on_message (ListenV1ResultsEvent ch fin) q) ->
     In sentence q \/
     (sentence <> [] /\ (fin = AttrBool true \/ fin = NoAttr))) /\
  (forall evs sentence rest,
     get_transcription (deliver evs []) = (Some sentence, rest) ->
     from_final evs sentence /\ Forall (from_final evs) rest).
Proof.
  split; [exact on_message_cases |].
  split.
  { intros ch q.
    destruct (on_message_cases (ListenV1ResultsEvent ch (AttrBool false)) q)
      as [H1 | (s & _ & _ & Hi & _)]; [| discriminate].
    destruct (on_message_cases (ListenV1ResultsEvent ch AttrNone) q)
      as [H2 | (s & _ & _ & Hi & _)]; [| discriminate].
    split; assumption. }
  split.
  { intros ev q Hempty.
    destruct (on_message_cases ev q) as [H | (s & Ht & Hne & _ & _)];
      [exact H |].
    destruct Hempty as [Hn | Hn]; rewrite Hn in Ht; [discriminate |].
    injection Ht as <-. contradiction. }
  split.
  { intros ch fin q sentence Hin.
    destruct (on_message_cases (ListenV1ResultsEvent ch fin) q)
      as [H | (s & Ht & Hne & Hi & H)]; rewrite H in Hin; [left; exact Hin |].
    apply in_app_or in Hin. destruct Hin as [Hin | [<- | []]];
      [left; exact Hin |].
    right. split; [exact Hne |].
    destruct fin as [| | []]; simpl in Hi; try discriminate; auto. }
  intros evs sentence rest Hget.
  pose proof (deliver_from_final evs [] [] (Forall_nil _)) as Hall.
  simpl in Hall.
  destruct (deliver evs []) as [| s q]; simpl in Hget; [discriminate |].
  injection Hget as <- <-.
  inversion Hall; subst. split; assumption.
Qed.

End TranscriptionSource.

(** ** One turn of the response pipeline *)

Section Turn.
Import Voice.
Local Open Scope py_scope.
Variable w : world.

Local Opaque TTS.generate_audio Store.get_recent_memories Store.add_memory.
Local Opaque lit strip.

Lemma emit_nothing (s : session) : emit [] [] (interruption_event s) s = s.
Proof. destruct s; unfold emit; simpl. rewrite !app_nil_r. reflexivity. Qed.

Lemma emit_emit (f1 f2 : list frame) (e1 e2 : list (str * str)) (b1 b2 : bool)
    (s : session) :
  emit f2 e2 b2 (emit f1 e1 b1 s) = emit (f1 ++ f2) (e1 ++ e2) b2 s.
Proof.
  unfold emit; simpl. rewrite <- !app_assoc, length_app.
  f_equal. lia.
Qed.

Lemma send_emit (f : frame) (s : session) :
  send f s = (Ret tt, emit [f] [] (interruption_event s) s).
Proof.
  destruct s; unfold send, modify, emit, set_sent; simpl.
  rewrite app_nil_r. reflexivity.
Qed.

Lemma remember_emit (text sender : str) (s : session) :
  try_except (add_memory w text sender ;; count_message)
    is_Exception (fun _ => ret tt) s
  = (Ret tt, emit [] [(sender, text)] (interruption_event s) s).
Proof.
  unfold try_except, add_memory, count_message, bind, modify, lift.
  destruct (add_memory_returns (langgraph_store w) (conversation_id w)
              text sender None) as [r ->].
  destruct s; unfold emit; simpl. rewrite app_nil_r. reflexivity.
Qed.

Lemma is_set_emit (cp : checkpoint) (s : session) :
  is_set w cp s =
    (Ret (interruption_event s || raised_at w cp),
     emit [] [] (interruption_event s || raised_at w cp) s).
Proof.
  destruct s; unfold is_set, emit, set_interruption_event; simpl.
  rewrite !app_nil_r. reflexivity.
Qed.

(** The synthesis loop when the event stays clear: every chunk is
    forwarded and the stream's ending is the loop's. *)
Lemma forward_chunks_clear (cs : list bytes) (e : option exc) :
  forall (i : nat) (s : session),
    interruption_event s = false ->
    (forall j, j < length cs -> raised_at w (BeforeChunk (i + j)) = false) ->
    forward_chunks w i cs e s =
      (match e with Some x => Raise x | None => Ret tt end,
       emit (map Audio cs) [] false s).
Proof.
  induction cs as [| c cs IH]; intros i s Hev Hq; simpl.
  - rewrite <- Hev, emit_nothing. destruct e; reflexivity.
  - erewrite bind_ret by apply is_set_emit.
    assert (H0 : raised_at w (BeforeChunk i) = false).
    { rewrite <- (Nat.add_0_r i). apply Hq. simpl. lia. }
    rewrite Hev, H0. simpl.
    erewrite bind_ret by apply send_emit.
    rewrite emit_emit. simpl.
    rewrite IH.
    + rewrite emit_emit. reflexivity.
    + reflexivity.
    + intros j Hj. replace (S i + j) with (i + S j) by lia.
      apply Hq. simpl. lia.
Qed.

Lemma play_all (cs : list bytes) (e : option exc) (s : session) :
  play cs e s =
    (match e with Some x => Raise x | None => Ret tt end,
     emit (map Audio cs) [] (interruption_event s) s).
Proof.
  revert s. induction cs as [| c cs IH]; intros s; simpl.
  - rewrite emit_nothing. destruct e; reflexivity.
  - erewrite bind_ret by apply send_emit.
    rewrite IH, emit_emit. reflexivity.
Qed.

Lemma clear_emit (s : session) :
  modify (set_interruption_event false) s = (Ret tt, emit [] [] false s).
Proof.
  destruct s; unfold modify, emit, set_interruption_event; simpl.
  rewrite !app_nil_r. reflexivity.
Qed.

(** Awaiting the agent task: a cancellation ends the turn, any other
    exception is left to the handler of the agent block. *)
Lemma await_agent (st : agent_state) (s : session) :
  try_except (result <- lift (ainvoke w st) ;; ret (Some result))
    is_CancelledError (fun _ => ret None) s
  = (match ainvoke w st with
     | Ret r => Ret (Some r)
     | Raise CancelledError => Ret None
     | Raise (Exception e) => Raise (Exception e)
     end, s).
Proof.
  unfold try_except, bind, lift, ret.
  destruct (ainvoke w st) as [r | [| e]]; reflexivity.
Qed.

(** The synthesis block, run to its end. *)
Lemma synthesize_completes (response_text : str) (s : session) :
  let audio := TTS.generate_audio (speak w) response_text 1500 5 in
  interruption_event s = false ->
  raised_at w BeforeTts = false ->
  (forall j, j < length (TTS.chunks audio) ->
             raised_at w (BeforeChunk j) = false) ->
  raised_at w AfterTts = false ->
  TTS.ending audio = None ->
  synthesize w response_text s =
    (Ret tt, emit (TtsStart :: map Audio (TTS.chunks audio) ++ [TtsEnd]) []
               false s).
Proof.
  intros audio Hev Hb Hc Ha Hend. unfold synthesize.
  apply try_ret.
  erewrite bind_ret by apply is_set_emit. rewrite Hev, Hb. simpl.
  erewrite bind_ret by apply send_emit. rewrite emit_emit. simpl.
  erewrite bind_ret.
  2:{ apply try_ret. erewrite bind_ret; [reflexivity |].
      unfold generate_tts. fold audio.
      rewrite forward_chunks_clear by (simpl; auto).
      rewrite Hend. reflexivity. }
  simpl. rewrite emit_emit.
  erewrite bind_ret by apply is_set_emit. simpl. rewrite Ha. simpl.
  rewrite send_emit, !emit_emit. simpl. reflexivity.
Qed.

(** Synthesis of the fallback reply, run to its end. *)
Lemma synthesize_error_response_completes (s : session) :
  let audio := TTS.generate_audio (speak w) error_response 1500 5 in
  TTS.ending audio = None ->
  synthesize_error_response w s =
    (Ret tt, emit (TtsStart :: map Audio (TTS.chunks audio) ++ [TtsEnd]) []
               (interruption_event s) s).
Proof.
  intros audio Hend. unfold synthesize_error_response.
  apply try_ret.
  erewrite bind_ret by apply send_emit.
  fold audio. erewrite bind_ret by (rewrite play_all, Hend; reflexivity).
  rewrite send_emit, !emit_emit. simpl. reflexivity.
Qed.

(** A turn that finds the event set when it starts clears it and stops. *)
Lemma run_turn_flagged (user_text : str) (s : session) :
  interruption_event s || raised_at w TurnStart = true ->
  run_turn w user_text s = (Ret tt, emit [] [] false s).
Proof.
  intros Hset. unfold run_turn. apply try_ret.
  erewrite bind_ret by apply is_set_emit. rewrite Hset.
  erewrite bind_ret by apply clear_emit.
  rewrite emit_emit. reflexivity.
Qed.

(** A turn whose reasoning returns goes on to synthesis with the reply
    stored and sent. *)
Lemma run_turn_replies (user_text : str) (r : option str) (s s' : session) :
  interruption_event s = false ->
  raised_at w TurnStart = false ->
  raised_at w AfterAgent = false ->
  (forall st, user_input st = user_text -> ainvoke w st = Ret r) ->
  synthesize w (reply (Ret r))
    (emit [AgentResponse (reply (Ret r))] [(lit "agent", reply (Ret r))]
       false s) = (Ret tt, s') ->
  run_turn w user_text s = (Ret tt, s').
Proof.
  intros Hev Hts Haa Hag Hsyn. unfold run_turn. apply try_ret.
  erewrite bind_ret by apply is_set_emit. rewrite Hev, Hts. simpl.
  erewrite bind_ret by apply clear_emit. rewrite emit_emit. simpl.
  destruct (get_recent_memories_returns (langgraph_store w)
              (conversation_id w) 20) as [ms Hms].
  erewrite bind_ret by (unfold lift; rewrite Hms; reflexivity).
  erewrite bind_ret by (rewrite await_agent, Hag; reflexivity).
  cbv beta iota.
  erewrite bind_ret by apply is_set_emit. simpl. rewrite Haa. simpl.
  rewrite emit_emit. simpl.
  erewrite bind_ret by apply remember_emit. simpl. rewrite emit_emit. simpl.
  erewrite bind_ret by apply send_emit. simpl. rewrite emit_emit. simpl.
  exact Hsyn.
Qed.

(** A turn whose reasoning raises sends the fallback reply and goes on to
    its synthesis, with nothing handed to the memory store. *)
Lemma run_turn_falls_back (user_text : str) (e : error) (s : session) :
  interruption_event s = false ->
  raised_at w TurnStart = false ->
  (forall st, user_input st = user_text ->
              ainvoke w st = Raise (Exception e)) ->
  run_turn w user_text s =
    synthesize_error_response w
      (emit [AgentResponse error_response] [] false s).
Proof.
  intros Hev Hts Hag. unfold run_turn.
  rewrite (try_caught _ _ _ s (emit [] [] false s) (Exception e));
    [| | reflexivity].
  2:{ erewrite bind_ret by apply is_set_emit. rewrite Hev, Hts. simpl.
      erewrite bind_ret by apply clear_emit. rewrite emit_emit. simpl.
      destruct (get_recent_memories_returns (langgraph_store w)
                  (conversation_id w) 20) as [ms Hms].
      erewrite bind_ret by (unfold lift; rewrite Hms; reflexivity).
      apply bind_raise. rewrite await_agent, Hag; reflexivity. }
  erewrite bind_ret by apply send_emit. rewrite emit_emit. reflexivity.
Qed.

(** [process_transcription] on a non-blank text: the coordinator, the
    [transcription] notice, the user entry, then the agent block. *)
Lemma process_transcription_steps (now : Z) (user_text : str)
    (s s1 s2 : session) :
  truthy (strip user_text) = true ->
  interrupt_current_response now s = (Ret tt, s1) ->
  run_turn w user_text
    (emit [Transcription user_text] [(lit "user", user_text)]
       (interruption_event s1) s1) = (Ret tt, s2) ->
  process_transcription w now user_text s = (Ret tt, s2).
Proof.
  intros Hne Hint Hrun. unfold process_transcription. rewrite Hne. simpl.
  erewrite bind_ret by exact Hint.
  apply try_ret.
  erewrite bind_ret by apply send_emit.
  erewrite bind_ret by apply remember_emit. simpl. rewrite emit_emit. simpl.
  exact Hrun.
Qed.

End Turn.

(** ** Claims about the coordinator *)

Section CoordinatorClaims.
Import Voice.

Local Opaque lit strip.

(** C8.  When neither the agent task nor the synthesis task is in flight,
    [interrupt_current_response] returns at once and leaves the session
    exactly as it was: no frame sent, nothing cancelled,
    [last_interruption_time] and the interruption event unchanged. *)
Theorem C8_interrupt_when_idle_is_noop (now : Z) (s : session) :
  agent_is_responding s = false ->
  interrupt_current_response now s = (Ret tt, s).
Proof. apply interrupt_idle. Qed.

End CoordinatorClaims.

(** ** Claims about a turn *)

Lemma user_is_not_agent : lit "user" <> lit "agent".
Proof. discriminate. Qed.

Section TurnClaims.
Import Voice.

Local Opaque TTS.generate_audio lit strip.

(** When the coordinator has nothing to do, the turn starts from the
    session as it is. *)
Lemma interrupt_skipped (now : Z) (s : session) :
  agent_is_responding s = false \/
  (now - last_interruption_time s < INTERRUPTION_DEBOUNCE_MS)%Z ->
  interrupt_current_response now s = (Ret tt, s).
Proof.
  intros [Hidle | Hsoon];
    [apply interrupt_idle | apply interrupt_too_soon]; assumption.
Qed.

Lemma audio_is_not_tts_end (cs : list bytes) : ~ In TtsEnd (map Audio cs).
Proof.
  intros Hin. apply in_map_iff in Hin. destruct Hin as (c & Hc & _).
  discriminate.
Qed.

(** The session after a turn that nothing interrupts and whose reasoning
    and synthesis both complete. *)
Lemma completed_turn (w : world) (now : Z) (user_text : str) (s : session)
    (r : option str) :
  truthy (strip user_text) = true ->
  agent_is_responding s = false \/
  (now - last_interruption_time s < INTERRUPTION_DEBOUNCE_MS)%Z ->
  interruption_event s = false ->
  quiet w ->
  (forall st, user_input st = user_text -> ainvoke w st = Ret r) ->
  TTS.ending (TTS.generate_audio (speak w) (reply (Ret r)) 1500 5) = None ->
  process_transcription w now user_text s =
    (Ret tt,
     emit ([Transcription user_text; AgentResponse (reply (Ret r)); TtsStart]
           ++ map Audio
                (TTS.chunks
                   (TTS.generate_audio (speak w) (reply (Ret r)) 1500 5))
           ++ [TtsEnd])
       [(lit "user", user_text); (lit "agent", reply (Ret r))] false s).
Proof.
  intros Hne Hskip Hev Hquiet Hag Hend.
  eapply process_transcription_steps;
    [exact Hne | apply interrupt_skipped; exact Hskip |].
  eapply run_turn_replies; try apply Hquiet; try exact Hag; [exact Hev |].
  rewrite synthesize_completes; try apply Hquiet; try exact Hend;
    try reflexivity.
  - rewrite !emit_emit. reflexivity.
  - intros j _. apply Hquiet.
Qed.

(** C4.  A turn that is not interrupted (the coordinator has nothing to
    cancel when it starts, the event is never seen set, the agent task is
    not cancelled) and runs to completion (the speech stream ends
    normally) sends exactly: [transcription], [agent_response] (with the
    agent's reply, or the fallback when the agent raised), [tts_start],
    the audio chunks, [tts_end]. *)
Theorem C4_completed_turn_sequence (w : world) (now : Z) (user_text : str)
    (s : session) (outcome : result (option str)) :
  truthy (strip user_text) = true ->
  agent_is_responding s = false \/
  (now - last_interruption_time s < INTERRUPTION_DEBOUNCE_MS)%Z ->
  interruption_event s = false ->
  quiet w ->
  (forall st, user_input st = user_text -> ainvoke w st = outcome) ->
  outcome <> Raise CancelledError ->
  TTS.ending (TTS.generate_audio (speak w) (reply outcome) 1500 5) = None ->
  exists s',
    process_transcription w now user_text s = (Ret tt, s') /\
    sent s' =
      sent s
      ++ [Transcription user_text; AgentResponse (reply outcome); TtsStart]
      ++ map Audio
           (TTS.chunks (TTS.generate_audio (speak w) (reply outcome) 1500 5))
      ++ [TtsEnd].
Proof.
  intros Hne Hskip Hev Hquiet Hag Hnc Hend.
  destruct outcome as [r | [| e]]; [| congruence |].
  - eexists. split.
    + exact (completed_turn w now user_text s r Hne Hskip Hev Hquiet Hag
               Hend).
    + reflexivity.
  - eexists. split.
    + eapply process_transcription_steps;
        [exact Hne | apply interrupt_skipped; exact Hskip |].
      rewrite (run_turn_falls_back w user_text e);
        [| exact Hev | apply Hquiet | exact Hag].
      apply synthesize_error_response_completes. exact Hend.
    + simpl. rewrite <- !app_assoc. reflexivity.
Qed.

(** C3, on the code.  When the agent raises, the turn sends the fixed
    fallback reply as [agent_response] and brackets its synthesis with
    [tts_start] and [tts_end], and [process_transcription] returns
    normally; but the only entry handed to the memory store is the user's
    utterance: the fallback reply is not persisted. *)
Theorem C3_fallback_sent_not_persisted (w : world) (now : Z)
    (user_text : str) (s : session) (e : error) :
  truthy (strip user_text) = true ->
  agent_is_responding s = false ->
  interruption_event s = false ->
  raised_at w TurnStart = false ->
  (forall st, user_input st = user_text ->
              ainvoke w st = Raise (Exception e)) ->
  TTS.ending (TTS.generate_audio (speak w) error_response 1500 5) = None ->
  exists s',
    process_transcription w now user_text s = (Ret tt, s') /\
    sent s' =
      sent s
      ++ [Transcription user_text; AgentResponse error_response; TtsStart]
      ++ map Audio
           (TTS.chunks (TTS.generate_audio (speak w) error_response 1500 5))
      ++ [TtsEnd] /\
    stored s' = stored s ++ [(lit "user", user_text)] /\
    ~ In (lit "agent", error_response)
         (skipn (length (stored s)) (stored s')).
Proof.
  intros Hne Hidle Hev Hts Hag Hend.
  eexists. split; [| split; [| split]].
  - eapply process_transcription_steps;
      [exact Hne | apply interrupt_idle; exact Hidle |].
    rewrite (run_turn_falls_back w user_text e);
      [| exact Hev | exact Hts | exact Hag].
    apply synthesize_error_response_completes. exact Hend.
  - simpl. rewrite <- !app_assoc. reflexivity.
  - simpl. rewrite !app_nil_r. reflexivity.
  - simpl. rewrite !app_nil_r, skipn_app, skipn_all, Nat.sub_diag. simpl.
    intros [H | []]. exact (user_is_not_agent (f_equal fst H)).
Qed.

End TurnClaims.

(** ** The task references the coordinator reads *)

Section TaskReferences.
Import Voice.
Local Open Scope py_scope.

Lemma keeps_ret {A : Type} (a : A) : keeps (ret a).
Proof. intros s. reflexivity. Qed.

Lemma keeps_raise {A : Type} (e : exc) : keeps (@raise session A e).
Proof. intros s. reflexivity. Qed.

Lemma keeps_lift {A : Type} (r : result A) : keeps (lift r).
Proof. intros s. reflexivity. Qed.

Lemma keeps_bind {A B : Type} (m : M session A) (k : A -> M session B) :
  keeps m -> (forall a, keeps (k a)) -> keeps (bind m k).
Proof.
  intros Hm Hk s. unfold bind. specialize (Hm s).
  destruct (m s) as [[a | e] s1]; simpl in *; [| exact Hm].
  rewrite <- Hm. apply Hk.
Qed.

Lemma keeps_try {A : Type} (m : M session A) (caught : exc -> bool)
    (h : exc -> M session A) :
  keeps m -> (forall e, keeps (h e)) -> keeps (try_except m caught h).
Proof.
  intros Hm Hh s. unfold try_except. specialize (Hm s).
  destruct (m s) as [[a | e] s1]; simpl in *; [exact Hm |].
  destruct (caught e); [| exact Hm].
  rewrite <- Hm. apply Hh.
Qed.

Lemma keeps_send (f : frame) : is_interrupt f = false -> keeps (send f).
Proof.
  intros Hf s. unfold send, modify, coordinator_view. simpl.
  rewrite filter_app. simpl. rewrite Hf, app_nil_r. reflexivity.
Qed.

Lemma keeps_is_set (w : world) (cp : checkpoint) : keeps (is_set w cp).
Proof. intros s. reflexivity. Qed.

Lemma keeps_clear : keeps (modify (set_interruption_event false)).
Proof. intros s. reflexivity. Qed.

Lemma keeps_add_memory (w : world) (text sender : str) :
  keeps (add_memory w text sender).
Proof.
  apply keeps_bind; [intros s; reflexivity | intros; apply keeps_lift].
Qed.

Lemma keeps_count_message : keeps count_message.
Proof. intros s. reflexivity. Qed.

Lemma keeps_if {A : Type} (b : bool) (m1 m2 : M session A) :
  keeps m1 -> keeps m2 -> keeps (if b then m1 else m2).
Proof. destruct b; auto. Qed.

Lemma keeps_forward_chunks (w : world) (cs : list bytes) (e : option exc) :
  forall i, keeps (forward_chunks w i cs e).
Proof.
  induction cs as [| c cs IH]; intros i; simpl.
  - destruct e; [apply keeps_raise | apply keeps_ret].
  - apply keeps_bind; [apply keeps_is_set | intros stop].
    apply keeps_if; [apply keeps_ret |].
    apply keeps_bind; [apply keeps_send; reflexivity | intros _; apply IH].
Qed.

Lemma keeps_play (cs : list bytes) (e : option exc) : keeps (play cs e).
Proof.
  induction cs as [| c cs IH]; simpl.
  - destruct e; [apply keeps_raise | apply keeps_ret].
  - apply keeps_bind; [apply keeps_send; reflexivity | intros _; exact IH].
Qed.

Lemma keeps_synthesize (w : world) (response_text : str) :
  keeps (synthesize w response_text).
Proof.
  unfold synthesize.
  apply keeps_try; [| intros e; apply keeps_send; reflexivity].
  apply keeps_bind; [apply keeps_is_set | intros b1].
  apply keeps_if; [apply keeps_ret |].
  apply keeps_bind; [apply keeps_send; reflexivity | intros _].
  apply keeps_bind.
  - apply keeps_try; [| intros; apply keeps_ret].
    apply keeps_bind; [apply keeps_forward_chunks | intros; apply keeps_ret].
  - intros finished. apply keeps_if; [apply keeps_ret |].
    apply keeps_bind; [apply keeps_is_set | intros b2].
    apply keeps_if; [apply keeps_ret | apply keeps_send; reflexivity].
Qed.

Lemma keeps_synthesize_error_response (w : world) :
  keeps (synthesize_error_response w).
Proof.
  unfold synthesize_error_response.
  apply keeps_try; [| intros; apply keeps_ret].
  apply keeps_bind; [apply keeps_send; reflexivity | intros _].
  apply keeps_bind; [apply keeps_play | intros _].
  apply keeps_send. reflexivity.
Qed.

Lemma keeps_remember (w : world) (text sender : str) :
  keeps (try_except (add_memory w text sender ;; count_message)
           is_Exception (fun _ => ret tt)).
Proof.
  apply keeps_try; [| intros; apply keeps_ret].
  apply keeps_bind; [apply keeps_add_memory | intros; apply keeps_count_message].
Qed.

(** The agent block binds its tasks to locals: the coordinator's view is
    the same before and after, however the turn ends. *)
Lemma keeps_run_turn (w : world) (user_text : str) :
  keeps (run_turn w user_text).
Proof.
  unfold run_turn. apply keeps_try.
  - apply keeps_bind; [apply keeps_is_set | intros was_interrupted].
    apply keeps_bind; [apply keeps_clear | intros _].
    apply keeps_if; [apply keeps_ret |].
    apply keeps_bind; [apply keeps_lift | intros recent_memories].
    apply keeps_bind.
    + apply keeps_try; [| intros; apply keeps_ret].
      apply keeps_bind; [apply keeps_lift | intros; apply keeps_ret].
    + intros [result |]; [| apply keeps_ret].
      apply keeps_bind; [apply keeps_is_set | intros interrupted].
      apply keeps_if; [apply keeps_ret |].
      apply keeps_bind; [apply keeps_remember | intros _].
      apply keeps_bind; [apply keeps_send; reflexivity | intros _].
      apply keeps_synthesize.
  - intros e.
    apply keeps_bind; [apply keeps_send; reflexivity | intros _].
    apply keeps_synthesize_error_response.
Qed.

(** With no task registered, a whole call of [process_transcription]
    leaves the coordinator's view as it was: it registers none either. *)
Lemma process_transcription_registers_no_task (w : world) (now : Z)
    (user_text : str) (s : session) :
  agent_is_responding s = false ->
  coordinator_view (snd (process_transcription w now user_text s))
    = coordinator_view s.
Proof.
  intros Hidle. unfold process_transcription.
  destruct (negb (truthy (strip user_text))); [reflexivity |].
  erewrite bind_ret by (apply interrupt_idle; exact Hidle).
  apply keeps_try; [| intros; apply keeps_ret].
  apply keeps_bind; [apply keeps_send; reflexivity | intros _].
  apply keeps_bind; [apply keeps_remember | intros _].
  apply keeps_run_turn.
Qed.

(** X1.  In a session served by [voice_ws] the coordinator never acts: starting
    with no task registered, as [voice_ws] does, the consumer loop sends
    no [interrupt], cancels nothing and never moves
    [last_interruption_time], whatever transcripts arrive and whenever. *)
Theorem consumer_never_interrupts (turns : list (world * Z * option str)) :
  forall s,
    agent_is_responding s = false ->
    coordinator_view (snd (process_transcription_queue turns s))
      = coordinator_view s.
Proof.
  induction turns as [| [[w now] user_text] turns IH]; intros s Hidle;
    [reflexivity |].
  simpl. unfold bind at 1.
  set (turn := try_except _ _ _).
  assert (Hturn : coordinator_view (snd (turn s)) = coordinator_view s).
  { subst turn. unfold try_except.
    destruct user_text as [text |]; [| reflexivity].
    destruct (truthy text); [| reflexivity].
    pose proof (process_transcription_registers_no_task w now text s Hidle)
      as Hkeep.
    destruct (process_transcription w now text s) as [[[] | e] s1];
      simpl in *; [exact Hkeep |].
    destruct (is_Exception e); exact Hkeep. }
  destruct (turn s) as [[[] | e] s1]; simpl in *; [| exact Hturn].
  rewrite <- Hturn. apply IH.
  unfold agent_is_responding.
  unfold coordinator_view in Hturn. injection Hturn as Ha Ht _ _ _.
  rewrite Ha, Ht. exact Hidle.
Qed.

End TaskReferences.

(** ** The text handed to speech synthesis *)

Section Matching.
Import Re.

Lemma first_success_some {A B : Type} (f : A -> option B) (xs : list A)
    (b : B) :
  first_success f xs = Some b -> exists x, In x xs /\ f x = Some b.
Proof.
  induction xs as [| x xs IH]; simpl; [discriminate |].
  destruct (f x) as [b' |] eqn:Hfx.
  - intros H. injection H as <-. exists x. auto.
  - intros H. destruct (IH H) as (y & Hin & Hy). exists y. auto.
Qed.

Lemma candidates_range (lo hi k : nat) (g : bool) :
  In k (candidates lo hi g) -> lo <= k <= hi.
Proof.
  unfold candidates. destruct (hi <? lo) eqn:Hlt; [intros [] |].
  apply Nat.ltb_ge in Hlt.
  destruct g; [rewrite <- in_rev |]; rewrite in_seq; lia.
Qed.

Lemma run_counts (c : ascii -> bool) (s : str) :
  forall (limit : option nat) (k : nat),
    k <= run c limit s ->
    forallb c (firstn k s) = true /\ length (firstn k s) = k.
Proof.
  induction s as [| x s IH]; intros limit k Hk; simpl in Hk.
  - assert (k = 0) by lia. subst. split; reflexivity.
  - destruct k as [| k]; [split; reflexivity |].
    destruct (c x) eqn:Hcx; [| lia].
    destruct limit as [[| n] |]; [lia | |].
    + destruct (IH (Some n) k) as [Hall Hlen]; [lia |].
      simpl. rewrite Hcx, Hall, Hlen. split; reflexivity.
    + destruct (IH None k) as [Hall Hlen]; [lia |].
      simpl. rewrite Hcx, Hall, Hlen. split; reflexivity.
Qed.

(** A pattern that is one capture group captures exactly what it
    matched. *)
Lemma match_items_group (its : list item) :
  Forall (fun it => in_group it = true) its ->
  forall s g rest, match_items its s = Some (g, rest) -> s = g ++ rest.
Proof.
  induction 1 as [| it its Hit _ IH]; intros s g rest Hm; simpl in Hm.
  - injection Hm as <- <-. reflexivity.
  - apply first_success_some in Hm. destruct Hm as (k & _ & Hk).
    destruct (match_items its (skipn k s)) as [[g' rest'] |] eqn:Hm';
      [| discriminate].
    rewrite Hit in Hk. injection Hk as <- <-.
    apply IH in Hm'. rewrite <- app_assoc, <- Hm'.
    symmetry. apply firstn_skipn.
Qed.

End Matching.

Section Sentences.
Import Re TTS.

(** What the sentence delimiter matches: marks, then whitespace. *)
Lemma delimiter_match (s g rest : str) :
  match_items delimiter s = Some (g, rest) ->
  s = g ++ rest /\
  exists marks spaces,
    g = marks ++ spaces /\
    marks <> [] /\ forallb punct marks = true /\
    spaces <> [] /\ forallb isspace spaces = true.
Proof.
  intros Hm. split.
  { revert Hm. apply match_items_group.
    repeat constructor. }
  unfold delimiter in Hm. simpl in Hm.
  apply first_success_some in Hm. destruct Hm as (k1 & Hk1 & Hm).
  apply candidates_range in Hk1.
  destruct (first_success _ _) as [[g2 rest2] |] eqn:Hm2; [| discriminate].
  injection Hm as <- <-.
  apply first_success_some in Hm2. destruct Hm2 as (k2 & Hk2 & Hm2).
  apply candidates_range in Hk2.
  injection Hm2 as <- <-.
  destruct (run_counts punct s None k1) as [Ha La]; [lia |].
  destruct (run_counts isspace (skipn k1 s) None k2) as [Hb Lb]; [lia |].
  exists (firstn k1 s), (firstn k2 (skipn k1 s)).
  rewrite app_nil_r. repeat split; auto.
  - intros Hnil. rewrite Hnil in La. simpl in La. lia.
  - intros Hnil. rewrite Hnil in Lb. simpl in Lb. lia.
Qed.

Local Opaque delimiter match_items.

(** Splitting loses nothing. *)
Lemma split_from_concat (fuel : nat) :
  forall piece s, concat (split_from fuel delimiter piece s) = piece ++ s.
Proof.
  induction fuel as [| fuel IH]; intros piece s; simpl.
  - rewrite app_nil_r. reflexivity.
  - destruct s as [| c s'].
    + simpl. reflexivity.
    + destruct (match_items delimiter (c :: s')) as [[g rest] |] eqn:Hm.
      * destruct (truthy g).
        -- simpl. rewrite IH. simpl.
           apply delimiter_match in Hm. destruct Hm as [-> _]. reflexivity.
        -- rewrite IH, <- app_assoc. reflexivity.
      * rewrite IH, <- app_assoc. reflexivity.
Qed.

(** The recombined sentences, in order, are the start of the text. *)
Lemma combine_sentences_prefix (pieces : list str) :
  prefix (concat (combine_sentences pieces)) (concat pieces).
Proof.
  assert (H : forall n l, length l <= n ->
                prefix (concat (combine_sentences l)) (concat l)).
  { induction n as [| n IH]; intros l Hl.
    - destruct l; [| simpl in Hl; lia]. exists []. reflexivity.
    - destruct l as [| a [| b l]].
      + exists []. reflexivity.
      + exists (a ++ []). reflexivity.
      + simpl in Hl. destruct (IH l) as [rest Hrest]; [lia |].
        exists rest. simpl. rewrite Hrest, <- !app_assoc. reflexivity. }
  apply (H (length pieces)). lia.
Qed.

Lemma concat_firstn_prefix (k : nat) (l : list str) :
  prefix (concat (firstn k l)) (concat l).
Proof.
  exists (concat (skipn k l)).
  rewrite <- concat_app, firstn_skipn. reflexivity.
Qed.

Lemma prefix_trans (a b c : str) : prefix a b -> prefix b c -> prefix a c.
Proof.
  intros [r1 ->] [r2 ->]. exists (r1 ++ r2). rewrite app_assoc. reflexivity.
Qed.

(** The accumulation loop keeps some number of leading sentences, and
    what it has added fits the budget. *)
Lemma take_fitting_spec (max_chars : Z) (l : list str) :
  forall acc,
    exists k,
      take_fitting max_chars acc l = acc ++ concat (firstn k l) /\
      (k = 0 \/
       (Z.of_nat (length (take_fitting max_chars acc l)) <= max_chars)%Z).
Proof.
  induction l as [| x l IH]; intros acc; simpl.
  - exists 0. rewrite app_nil_r. auto.
  - destruct (Z.of_nat (length (acc ++ x)) <=? max_chars)%Z eqn:Hfit.
    + destruct (IH (acc ++ x)) as (k & Hk & Hlen).
      exists (S k). simpl. rewrite Hk, <- app_assoc. split; [reflexivity |].
      right. destruct Hlen as [-> | Hlen].
      * simpl. rewrite app_nil_r. apply Z.leb_le. exact Hfit.
      * rewrite Hk, <- app_assoc in Hlen. exact Hlen.
    + exists 0. simpl. rewrite app_nil_r. auto.
Qed.

Lemma lstrip_split (s : str) :
  exists ws, s = ws ++ lstrip s /\ forallb isspace ws = true.
Proof.
  induction s as [| c s IH]; simpl.
  - exists []. split; reflexivity.
  - destruct (isspace c) eqn:Hc.
    + destruct IH as (ws & Hs & Hws). exists (c :: ws). simpl.
      rewrite Hc, Hws, <- Hs. split; reflexivity.
    + exists []. split; reflexivity.
Qed.

Lemma forallb_rev {A : Type} (f : A -> bool) (l : list A) :
  forallb f (rev l) = forallb f l.
Proof.
  induction l as [| x l IH]; simpl; [reflexivity |].
  rewrite forallb_app, IH. simpl. rewrite andb_true_r. apply andb_comm.
Qed.

(** [rstrip] only removes whitespace from the end. *)
Lemma rstrip_split (s : str) :
  exists ws, s = rstrip s ++ ws /\ forallb isspace ws = true.
Proof.
  unfold rstrip. destruct (lstrip_split (rev s)) as (ws & Hs & Hws).
  exists (rev ws). split; [| rewrite forallb_rev; exact Hws].
  rewrite <- rev_app_distr, <- Hs, rev_involutive. reflexivity.
Qed.

Lemma rstrip_length (s : str) : length (rstrip s) <= length s.
Proof.
  destruct (rstrip_split s) as (ws & Hs & _).
  rewrite Hs at 2. rewrite length_app. lia.
Qed.

(** [rfind] gives the last position of the character, or -1. *)
Lemma rfind_from_spec (c : ascii) (s : str) :
  forall (i best : Z),
    let r := rfind_from c s i best in
    (r = best /\ forall j, nth_error s j <> Some c) \/
    ((i <= r < i + Z.of_nat (length s))%Z /\
     nth_error s (Z.to_nat (r - i)) = Some c /\
     forall j, Z.to_nat (r - i) < j -> nth_error s j <> Some c).
Proof.
  induction s as [| x s IH]; intros i best; simpl.
  - left. split; [reflexivity |]. intros [| j]; discriminate.
  - destruct (IH (i + 1)%Z (if Ascii.eqb x c then i else best))
      as [[Hr Hnone] | (Hrange & Hat & Hlast)].
    + destruct (Ascii.eqb x c) eqn:Hxc.
      * right. apply Ascii.eqb_eq in Hxc. subst x. rewrite Hr.
        replace (i - i)%Z with 0%Z by lia. simpl.
        split; [lia |]. split; [reflexivity |].
        intros [| j] Hj; [lia |]. simpl. apply Hnone.
      * left. split; [exact Hr |].
        intros [| j]; simpl; [| apply Hnone].
        intros H. injection H as ->. rewrite Ascii.eqb_refl in Hxc.
        discriminate.
    + right. set (r := rfind_from c s (i + 1) _) in *.
      replace (Z.to_nat (r - i)) with (S (Z.to_nat (r - (i + 1)))) by lia.
      simpl. split; [lia |]. split; [exact Hat |].
      intros [| j] Hj; [lia |]. simpl. apply Hlast. lia.
Qed.

Lemma rfind_spec (c : ascii) (s : str) :
  (rfind c s = (-1)%Z /\ forall j, nth_error s j <> Some c) \/
  ((0 <= rfind c s < Z.of_nat (length s))%Z /\
   nth_error s (Z.to_nat (rfind c s)) = Some c /\
   forall j, Z.to_nat (rfind c s) < j -> nth_error s j <> Some c).
Proof.
  unfold rfind.
  destruct (rfind_from_spec c s 0 (-1)) as [H | (Hrange & Hat & Hlast)];
    [left; exact H |].
  right. rewrite Z.sub_0_r in *. repeat split; try lia; assumption.
Qed.

Lemma nth_error_firstn_lt {A : Type} (l : list A) (n j : nat) :
  j < n -> nth_error (firstn n l) j = nth_error l j.
Proof.
  revert n j. induction l as [| x l IH]; intros n j Hj.
  - rewrite firstn_nil. reflexivity.
  - destruct n as [| n]; [lia |]. destruct j as [| j]; [reflexivity |].
    simpl. apply IH. lia.
Qed.

(** The word-boundary fallback: the first [max_chars] characters, cut
    back to their last space when it lies beyond four fifths of the
    budget, followed by the ellipsis. *)
Lemma truncate_at_word_spec (cleaned : str) (max_chars : Z) :
  (0 <= max_chars < Z.of_nat (length cleaned))%Z ->
  (exists i,
     (4 * max_chars < 5 * Z.of_nat i)%Z /\ (Z.of_nat i < max_chars)%Z /\
     nth_error cleaned i = Some (ch " ") /\
     (forall j, i < j -> (Z.of_nat j < max_chars)%Z ->
                nth_error cleaned j <> Some (ch " ")) /\
     truncate_at_word cleaned max_chars = firstn i cleaned ++ ellipsis)
  \/
  ((forall j, (4 * max_chars < 5 * Z.of_nat j)%Z ->
              (Z.of_nat j < max_chars)%Z ->
              nth_error cleaned j <> Some (ch " ")) /\
   truncate_at_word cleaned max_chars =
     firstn (Z.to_nat max_chars) cleaned ++ ellipsis).
Proof.
  intros Hm. unfold truncate_at_word, slice_to.
  destruct (Z.leb_spec 0 max_chars) as [_ | ?]; [| lia].
  set (truncated := firstn (Z.to_nat max_chars) cleaned).
  assert (Hlen : length truncated = Z.to_nat max_chars).
  { unfold truncated. rewrite length_firstn. lia. }
  destruct (rfind_spec (ch " ") truncated)
    as [[Hr Hnone] | (Hrange & Hat & Hlast)].
  - right. rewrite Hr.
    destruct (Z.ltb_spec (4 * max_chars) (5 * -1)) as [? | _]; [lia |].
    split; [| reflexivity].
    intros j _ Hj. rewrite <- (nth_error_firstn_lt cleaned (Z.to_nat max_chars))
      by lia. apply Hnone.
  - set (r := rfind (ch " ") truncated) in *.
    destruct (Z.ltb_spec (4 * max_chars) (5 * r)) as [Hfar | Hnear].
    + left. exists (Z.to_nat r).
      destruct (Z.leb_spec 0 r) as [_ | ?]; [| lia].
      repeat split; try lia.
      * rewrite <- (nth_error_firstn_lt cleaned (Z.to_nat max_chars)) by lia.
        exact Hat.
      * intros j Hj Hjm.
        rewrite <- (nth_error_firstn_lt cleaned (Z.to_nat max_chars)) by lia.
        apply Hlast. exact Hj.
      * unfold truncated. rewrite firstn_firstn.
        replace (Nat.min (Z.to_nat r) (Z.to_nat max_chars)) with (Z.to_nat r)
          by lia.
        reflexivity.
    + right. split; [| reflexivity].
      intros j Hfar Hjm.
      rewrite <- (nth_error_firstn_lt cleaned (Z.to_nat max_chars)) by lia.
      apply Hlast. lia.
Qed.

(** The text [shorten] returns for a cleaned text over the budget. *)
Lemma shorten_spec (cleaned : str) (max_chars max_sentences : Z) :
  (0 <= max_chars < Z.of_nat (length cleaned))%Z ->
  (exists sentences,
     ((0 <= max_sentences)%Z ->
      (Z.of_nat (length sentences) <= max_sentences)%Z) /\
     prefix (concat sentences) cleaned /\
     100 <= length (concat sentences) /\
     (Z.of_nat (length (concat sentences)) <= max_chars)%Z /\
     shorten cleaned max_chars max_sentences = rstrip (concat sentences))
  \/
  shorten cleaned max_chars max_sentences = truncate_at_word cleaned max_chars.
Proof.
  intros Hm. unfold shorten.
  destruct (Z.leb_spec (Z.of_nat (length cleaned)) max_chars) as [? | _];
    [lia |].
  set (combined := combine_sentences (split delimiter cleaned)).
  destruct (take_fitting_spec max_chars (slice_to max_sentences combined) [])
    as (k & Hk & Hfit).
  simpl in Hk.
  destruct (negb (truthy (take_fitting max_chars [] _))
            || (length (take_fitting max_chars [] _) <? 100)) eqn:Hshort;
    [right; reflexivity | left].
  apply orb_false_elim in Hshort. destruct Hshort as [Hne Hlong].
  apply Nat.ltb_ge in Hlong.
  exists (firstn k (slice_to max_sentences combined)).
  assert (Hsub : exists n,
            firstn k (slice_to max_sentences combined) = firstn n combined
            /\ ((0 <= max_sentences)%Z -> (Z.of_nat n <= max_sentences)%Z)).
  { unfold slice_to.
    destruct (Z.leb_spec 0 max_sentences) as [Hpos | Hneg].
    - exists (Nat.min k (Z.to_nat max_sentences)).
      rewrite firstn_firstn. split; [reflexivity | lia].
    - exists (Nat.min k (length combined - Z.to_nat (- max_sentences))).
      rewrite firstn_firstn. split; [reflexivity | lia]. }
  destruct Hsub as (n & Hn & Hbound).
  rewrite <- Hk.
  split.
  { intros Hpos. rewrite Hn, length_firstn. specialize (Hbound Hpos). lia. }
  split.
  { rewrite Hk, Hn. eapply prefix_trans; [apply concat_firstn_prefix |].
    eapply prefix_trans; [apply combine_sentences_prefix |].
    unfold split. rewrite split_from_concat. exists []. simpl.
    rewrite app_nil_r. reflexivity. }
  split; [exact Hlong |].
  split; [| reflexivity].
  destruct Hfit as [-> | Hfit]; [| exact Hfit].
  simpl in Hk. rewrite Hk in Hlong. simpl in Hlong. lia.
Qed.

End Sentences.

(** ** The inbound message loop *)

Section MessageLoop.
Import Voice.

(** A text frame that [json.loads] rejects with a [JSONDecodeError] is
    skipped: nothing is sent, the session is unchanged and the loop goes
    on. *)
Lemma undecodable_text_is_skipped (w : world) (text : str) (s : session) :
  json_loads w (strip text) = None ->
  json_raises w (strip text) = None ->
  on_text w text s = (Ret Continue, s).
Proof.
  intros Hnone Hother. unfold on_text.
  destruct (truthy (strip text)); [| reflexivity]. simpl.
  unfold try_except, bind, lift. rewrite Hnone, Hother. reflexivity.
Qed.

Lemma non_object_text_raises (w : world) (text : str) (v : json)
    (s : session) :
  truthy (strip text) = true ->
  json_loads w (strip text) = Some v ->
  (forall fields, v <> JObject fields) ->
  on_text w text s =
    (Raise (Exception
              (mkError AttributeError (lit "object has no attribute 'get'"))),
     s).
Proof.
  intros Hne Hload Hobj. unfold on_text. rewrite Hne. simpl.
  unfold try_except, bind, lift. rewrite Hload.
  destruct v; try reflexivity. exfalso. eapply Hobj. reflexivity.
Qed.

(** C6, on the code.  A text frame whose payload is valid JSON but not an
    object makes [data.get] raise [AttributeError], which the
    [JSONDecodeError] clause does not catch: the message loop ends, the
    frames after it are never read and the connection is closed. *)
Theorem C6_non_object_payload_ends_session (w : world) (text : str)
    (v : json) (rest : list ws_message) (s : session) :
  truthy (strip text) = true ->
  json_loads w (strip text) = Some v ->
  (forall fields, v <> JObject fields) ->
  (exists e, on_text w text s = (Raise (Exception e), s) /\
             cls e = AttributeError) /\
  serve w (TextMessage text :: rest) s =
    (Ret tt,
     set_closed true
       (set_deepgram_active false (set_received (S (received s)) s))).
Proof.
  intros Hne Hload Hobj. split.
  - eexists. split; [apply (non_object_text_raises w text v); assumption |].
    reflexivity.
  - unfold serve. simpl. unfold try_except, bind, modify.
    rewrite (non_object_text_raises w text v) by assumption.
    reflexivity.
Qed.

End MessageLoop.

(* ===================================================================== *)
(** * Concrete runs *)
(* ===================================================================== *)

Lemma C8_witness :
  Voice.agent_is_responding Voice.initial = false /\
  Voice.interrupt_current_response 1000 Voice.initial
    = (Ret tt, Voice.initial).
Proof.
  split; [reflexivity |].
  apply C8_interrupt_when_idle_is_noop. reflexivity.
Defined.

Lemma never_is_quiet (outcome : result (option str)) :
  Voice.quiet (Sample.world_with outcome Sample.never).
Proof. intros cp. reflexivity. Defined.

Lemma C4_witness :
  truthy (strip Sample.question) = true /\
  Voice.quiet Sample.calm /\
  exists s',
    Voice.process_transcription Sample.calm 1000 Sample.question
      Voice.initial = (Ret tt, s') /\
    Voice.sent s' =
      [Voice.Transcription Sample.question;
       Voice.AgentResponse Sample.shipped; Voice.TtsStart;
       Voice.Audio (Sample.chunk Byte.x01);
       Voice.Audio (Sample.chunk Byte.x02); Voice.TtsEnd].
Proof.
  split; [reflexivity |]. split; [apply never_is_quiet |].
  destruct (C4_completed_turn_sequence Sample.calm 1000 Sample.question
              Voice.initial (Ret (Some Sample.shipped)))
    as (s' & Hp & Hs).
  - reflexivity.
  - left. reflexivity.
  - reflexivity.
  - apply never_is_quiet.
  - intros st _. reflexivity.
  - discriminate.
  - reflexivity.
  - exists s'. split; [exact Hp | exact Hs].
Defined.

Lemma C3_witness :
  truthy (strip Sample.question) = true /\
  exists s',
    Voice.process_transcription Sample.failing 1000 Sample.question
      Voice.initial = (Ret tt, s') /\
    Voice.sent s' =
      [Voice.Transcription Sample.question;
       Voice.AgentResponse Voice.error_response; Voice.TtsStart;
       Voice.Audio (Sample.chunk Byte.x01);
       Voice.Audio (Sample.chunk Byte.x02); Voice.TtsEnd] /\
    Voice.stored s' = [(lit "user", Sample.question)].
Proof.
  split; [reflexivity |].
  destruct (C3_fallback_sent_not_persisted Sample.failing 1000
              Sample.question Voice.initial
              (mkError OtherException (lit "agent down")))
    as (s' & Hp & Hs & Hst & _).
  - reflexivity.
  - reflexivity.
  - reflexivity.
  - reflexivity.
  - intros st _. reflexivity.
  - reflexivity.
  - exists s'. split; [exact Hp |]. split; [exact Hs | exact Hst].
Defined.

(** A frame that is not JSON is skipped and the [ping] after it is
    answered; after the frame [[]] the [ping] is never read. *)
Example skipped_frame_then_ping :
  let s' :=
    snd (Voice.serve Sample.calm
           [Voice.TextMessage (lit "not json");
            Voice.TextMessage Sample.ping_text] Voice.initial) in
  Voice.sent s' = [Voice.Pong] /\ Voice.received s' = 2.
Proof. vm_compute. split; reflexivity. Qed.

Lemma C6_witness :
  truthy (strip (lit "[]")) = true /\
  Voice.json_loads Sample.calm (strip (lit "[]")) = Some (Voice.JArray []) /\
  let s' :=
    snd (Voice.serve Sample.calm
           [Voice.TextMessage (lit "[]"); Voice.TextMessage Sample.ping_text]
           Voice.initial) in
  Voice.sent s' = [] /\ Voice.received s' = 1 /\ Voice.closed s' = true.
Proof.
  split; [reflexivity |]. split; [reflexivity |].
  destruct (C6_non_object_payload_ends_session Sample.calm (lit "[]")
              (Voice.JArray []) [Voice.TextMessage Sample.ping_text]
              Voice.initial) as [_ Hserve].
  - reflexivity.
  - reflexivity.
  - intros fields. discriminate.
  - rewrite Hserve. split; [reflexivity |]. split; reflexivity.
Defined.

(** The three-sentence reply under a budget of 130 characters: the first
    two sentences are kept, without the space after the second. *)
Example two_sentences_kept :
  TTS.create_short_tts_version Sample.three_sentences 130 5 =
    lit "Your order number 4521 was shipped on Monday morning. "
    ++ lit "It should arrive at your address within three working days.".
Proof. vm_compute. reflexivity. Qed.

(* ===================================================================== *)
(** * Further properties of the voice session *)
(* ===================================================================== *)

Section TurnShapes.
Import Voice Traces.
Local Open Scope py_scope.
Variable w : world.

Local Opaque TTS.generate_audio Store.get_recent_memories Store.add_memory.
Local Opaque lit strip.

(** The synthesis loop, whatever happens: some of the chunks are
    forwarded; it stops early only with the event set, and raises only
    what the stream raises, after the last chunk. *)
Lemma forward_chunks_any (cs : list bytes) (e : option exc) :
  forall (i : nat) (s : session),
    exists k ev,
      (forward_chunks w i cs e s
         = (Ret tt, emit (map Audio (firstn k cs)) [] ev s) /\
       ((k < length cs /\ ev = true) \/
        (k = length cs /\ e = None /\
         ev = interruption_event s || false))) \/
      (exists x, e = Some x /\ k = length cs /\
                 forward_chunks w i cs e s
                   = (Raise x, emit (map Audio cs) [] ev s)).
Proof.
  induction cs as [| c cs IH]; intros i s; simpl.
  - exists 0, (interruption_event s). simpl. rewrite !emit_nothing.
    destruct e as [x |].
    + right. exists x. repeat split.
    + left. rewrite orb_false_r. split; [reflexivity | auto].
  - erewrite bind_ret by apply is_set_emit.
    destruct (interruption_event s || raised_at w (BeforeChunk i)) eqn:Hb.
    + exists 0, true. left. split; [reflexivity |]. left. split; [lia | auto].
    + apply orb_false_elim in Hb. destruct Hb as [Hev Hr].
      erewrite bind_ret by apply send_emit. rewrite emit_emit. simpl.
      destruct (IH (S i) (emit [Audio c] [] false s))
        as (k & ev & [[Hrun Hk] | (x & He & Hk & Hrun)]).
      * exists (S k), ev. left. rewrite Hrun, emit_emit. simpl.
        split; [reflexivity |].
        destruct Hk as [[Hlt ->] | (-> & -> & ->)].
        -- left. split; [lia | reflexivity].
        -- right. rewrite Hev. auto.
      * exists (S k), ev. right. exists x. rewrite Hrun, emit_emit, Hk.
        auto.
Qed.

(** The synthesis block always returns, and its frames are a bracket. *)
Lemma synthesize_any (response_text : str) (s : session) :
  exists fs ev,
    synthesize w response_text s = (Ret tt, emit fs [] ev s) /\
    synthesis_frames (spoken w response_text) fs.
Proof.
  unfold synthesize.
  destruct (interruption_event s || raised_at w BeforeTts) eqn:Hb.
  { exists [], true. split; [| constructor].
    apply try_ret. erewrite bind_ret by apply is_set_emit.
    rewrite Hb. reflexivity. }
  set (s1 := emit [TtsStart] [] false s).
  destruct (forward_chunks_any (spoken w response_text)
              (TTS.ending (TTS.generate_audio (speak w) response_text 1500 5))
              0 s1)
    as (k & ev & [[Hrun Hk] | (x & He & Hk & Hrun)]).
  - destruct Hk as [[Hlt ->] | (-> & Hend & ->)].
    + exists (TtsStart :: map Audio (firstn k (spoken w response_text))), true.
      split; [| constructor].
      apply try_ret. erewrite bind_ret by apply is_set_emit. rewrite Hb.
      erewrite bind_ret by apply send_emit. rewrite emit_emit.
      erewrite bind_ret
        by (apply try_ret; erewrite bind_ret by exact Hrun; reflexivity).
      simpl. erewrite bind_ret by apply is_set_emit. simpl.
      unfold ret, s1. rewrite !emit_emit. simpl. rewrite app_nil_r.
      reflexivity.
    + rewrite firstn_all in Hrun. simpl in Hrun.
      destruct (raised_at w AfterTts) eqn:Ha.
      * exists (TtsStart :: map Audio (firstn (length (spoken w response_text))
                                      (spoken w response_text))), true.
        split; [| constructor]. rewrite firstn_all.
        apply try_ret. erewrite bind_ret by apply is_set_emit. rewrite Hb.
        erewrite bind_ret by apply send_emit. rewrite emit_emit.
        erewrite bind_ret
          by (apply try_ret; erewrite bind_ret by exact Hrun; reflexivity).
        simpl. erewrite bind_ret by apply is_set_emit. simpl. rewrite Ha.
        unfold ret, s1. rewrite !emit_emit. simpl. rewrite app_nil_r.
        reflexivity.
      * exists (TtsStart :: map Audio (spoken w response_text) ++ [TtsEnd]),
          false.
        split; [| constructor].
        apply try_ret. erewrite bind_ret by apply is_set_emit. rewrite Hb.
        erewrite bind_ret by apply send_emit. rewrite emit_emit.
        erewrite bind_ret
          by (apply try_ret; erewrite bind_ret by exact Hrun; reflexivity).
        simpl. erewrite bind_ret by apply is_set_emit. simpl. rewrite Ha.
        rewrite send_emit. unfold s1. rewrite !emit_emit. reflexivity.
  - destruct x as [| err].
    + exists (TtsStart :: map Audio (firstn (length (spoken w response_text))
                                    (spoken w response_text))), ev.
      split; [| constructor]. rewrite firstn_all.
      apply try_ret. erewrite bind_ret by apply is_set_emit. rewrite Hb.
      erewrite bind_ret by apply send_emit. rewrite emit_emit.
      erewrite bind_ret.
      2:{ unfold try_except. erewrite bind_raise by exact Hrun.
          reflexivity. }
      simpl. unfold ret, s1. rewrite !emit_emit. reflexivity.
    + exists (TtsStart :: map Audio (spoken w response_text)
              ++ [TtsError (message err)]), ev.
      split; [| constructor].
      rewrite (try_caught _ _ _ s
                 (emit (TtsStart :: map Audio (spoken w response_text)) [] ev s)
                 (Exception err)); [| | reflexivity].
      * rewrite send_emit, emit_emit. reflexivity.
      * erewrite bind_ret by apply is_set_emit. rewrite Hb.
        erewrite bind_ret by apply send_emit. rewrite emit_emit.
        apply bind_raise. apply try_uncaught; [| reflexivity].
        apply bind_raise. unfold s1 in Hrun. rewrite emit_emit in Hrun.
        exact Hrun.
Qed.

(** Synthesis of the fallback reply, whatever the stream does. *)
Lemma synthesize_error_response_any (s : session) :
  exists (ended : bool) (res : result unit),
    synthesize_error_response w s =
      (res,
       emit (TtsStart :: map Audio (spoken w error_response)
             ++ (if ended then [TtsEnd] else []))
         [] (interruption_event s) s) /\
    returns_or_cancelled res.
Proof.
  unfold spoken.
  destruct (TTS.ending (TTS.generate_audio (speak w) error_response 1500 5))
    as [[| err] |] eqn:Hend; unfold synthesize_error_response.
  - exists false, (Raise CancelledError). split; [| right; reflexivity].
    apply try_uncaught; [| reflexivity].
    erewrite bind_ret by apply send_emit.
    erewrite bind_raise by (rewrite play_all, Hend; reflexivity).
    rewrite emit_emit. simpl. rewrite app_nil_r. reflexivity.
  - exists false, (Ret tt). split; [| left; reflexivity].
    rewrite (try_caught _ _ _ s
               (emit (TtsStart
                      :: map Audio
                           (TTS.chunks
                              (TTS.generate_audio (speak w) error_response
                                 1500 5)))
                  [] (interruption_event s) s) (Exception err));
      [rewrite app_nil_r; reflexivity | | reflexivity].
    erewrite bind_ret by apply send_emit.
    erewrite bind_raise by (rewrite play_all, Hend; reflexivity).
    rewrite emit_emit. reflexivity.
  - exists true, (Ret tt). split; [| left; reflexivity].
    apply synthesize_error_response_completes. exact Hend.
Qed.

(** The start of the agent block when the event is clear: the history
    is fetched and the agent awaited. *)
Lemma run_turn_head (user_text : str) (s : session) (ms : list Store.memory)
    (k : option (option str) -> M session unit)
    (r : result unit * session) :
  interruption_event s = false ->
  raised_at w TurnStart = false ->
  Store.get_recent_memories (langgraph_store w) (conversation_id w) 20
    = Ret ms ->
  (outcome <- try_except
                (result <-
                   lift (ainvoke w
                           (mkAgentState user_text (conversation_id w)
                              (map (fun mem =>
                                      (Store.sender mem, Store.text mem)) ms)
                              [] [])) ;;
                 ret (Some result))
                is_CancelledError (fun _ => ret None) ;;
   k outcome) (emit [] [] false s) = r ->
  (was_interrupted <- is_set w TurnStart ;;
   modify (set_interruption_event false) ;;
   if was_interrupted then ret tt
   else
     recent_memories <-
       lift (Store.get_recent_memories (langgraph_store w)
               (conversation_id w) 20) ;;
     outcome <- try_except
                  (result <-
                     lift (ainvoke w
                             (mkAgentState user_text (conversation_id w)
                                (map (fun mem =>
                                        (Store.sender mem, Store.text mem))
                                   recent_memories) [] [])) ;;
                   ret (Some result))
                  is_CancelledError (fun _ => ret None) ;;
     k outcome) s = r.
Proof.
  intros Hev Hts Hms Hk.
  erewrite bind_ret by apply is_set_emit. rewrite Hev, Hts. simpl.
  erewrite bind_ret by apply clear_emit. rewrite emit_emit. simpl.
  erewrite bind_ret by (unfold lift; rewrite Hms; reflexivity).
  exact Hk.
Qed.

(** The agent block, whatever the collaborators answer. *)
Lemma run_turn_any (user_text : str) (s : session) :
  exists fs es ev res,
    run_turn w user_text s = (res, emit fs es ev s) /\
    returns_or_cancelled res /\
    turn_effects w user_text
      (Transcription user_text :: fs) ((lit "user", user_text) :: es).
Proof.
  destruct (interruption_event s || raised_at w TurnStart) eqn:Hstart.
  { exists [], [], false, (Ret tt).
    split; [apply run_turn_flagged; exact Hstart |].
    split; [left; reflexivity | constructor]. }
  apply orb_false_elim in Hstart. destruct Hstart as [Hev Hts].
  destruct (get_recent_memories_returns (langgraph_store w)
              (conversation_id w) 20) as [ms Hms].
  destruct (ainvoke w
              (mkAgentState user_text (conversation_id w)
                 (map (fun mem => (Store.sender mem, Store.text mem)) ms)
                 [] [])) as [r | [| err]] eqn:Hag.
  - destruct (raised_at w AfterAgent) eqn:Haa.
    + exists [], [], true, (Ret tt).
      split; [| split; [left; reflexivity | constructor]].
      apply try_ret. apply (run_turn_head user_text s ms); auto.
      erewrite bind_ret by (rewrite await_agent, Hag; reflexivity).
      cbv beta iota.
      erewrite bind_ret by apply is_set_emit. simpl. rewrite Haa.
      unfold ret. rewrite emit_emit. reflexivity.
    + destruct (synthesize_any (reply (Ret r))
                  (emit [AgentResponse (reply (Ret r))]
                     [(lit "agent", reply (Ret r))] false s))
        as (fs & ev & Hsyn & Hfs).
      exists (AgentResponse (reply (Ret r)) :: fs),
        [(lit "agent", reply (Ret r))], ev, (Ret tt).
      split; [| split; [left; reflexivity | constructor; exact Hfs]].
      apply try_ret. apply (run_turn_head user_text s ms); auto.
      erewrite bind_ret by (rewrite await_agent, Hag; reflexivity).
      cbv beta iota.
      erewrite bind_ret by apply is_set_emit. simpl. rewrite Haa. simpl.
      rewrite emit_emit. simpl.
      erewrite bind_ret by apply remember_emit. simpl.
      rewrite emit_emit. simpl.
      erewrite bind_ret by apply send_emit. simpl. rewrite emit_emit. simpl.
      rewrite emit_emit in Hsyn. exact Hsyn.
  - exists [], [], false, (Ret tt).
    split; [| split; [left; reflexivity | constructor]].
    apply try_ret. apply (run_turn_head user_text s ms); auto.
    erewrite bind_ret by (rewrite await_agent, Hag; reflexivity).
    reflexivity.
  - destruct (synthesize_error_response_any
                (emit [AgentResponse error_response] [] false s))
      as (ended & res & Hsyn & Hres).
    exists (AgentResponse error_response :: TtsStart
            :: map Audio (spoken w error_response)
            ++ (if ended then [TtsEnd] else [])), [], false, res.
    split; [| split; [exact Hres | constructor]].
    unfold run_turn.
    rewrite (try_caught _ _ _ s (emit [] [] false s) (Exception err));
      [| | reflexivity].
    + erewrite bind_ret by apply send_emit. rewrite emit_emit. simpl.
      rewrite emit_emit in Hsyn. exact Hsyn.
    + apply (run_turn_head user_text s ms); auto.
      apply bind_raise. rewrite await_agent, Hag. reflexivity.
Qed.

(** The coordinator always returns: it leaves the session as it was, or
    it has sent one [interrupt] and touched neither the memory store nor
    [message_count]. *)
Lemma interrupt_any (now : Z) (s : session) :
  exists s1 pre,
    interrupt_current_response now s = (Ret tt, s1) /\
    (pre = [] \/ pre = [Interrupt]) /\
    sent s1 = sent s ++ pre /\ stored s1 = stored s /\
    message_count s1 = message_count s.
Proof.
  destruct (agent_is_responding s) eqn:Hact.
  - destruct (Z.lt_ge_cases (now - last_interruption_time s)
                INTERRUPTION_DEBOUNCE_MS) as [Hsoon | Hlate].
    + exists s, []. rewrite app_nil_r.
      split; [apply interrupt_too_soon; exact Hsoon | auto].
    + eexists. exists [Interrupt].
      split; [apply interrupt_accepted; assumption |].
      simpl. auto.
  - exists s, []. rewrite app_nil_r.
    split; [apply interrupt_idle; exact Hact | auto].
Qed.

(** A whole call of [process_transcription], whatever the session and
    the collaborators. *)
Lemma process_transcription_any (now : Z) (user_text : str) (s : session) :
  exists pre fs es res s',
    process_transcription w now user_text s = (res, s') /\
    returns_or_cancelled res /\
    (pre = [] \/ pre = [Interrupt]) /\
    sent s' = sent s ++ pre ++ fs /\
    stored s' = stored s ++ es /\
    message_count s' = length es + message_count s /\
    turn_effects w user_text fs es.
Proof.
  unfold process_transcription.
  destruct (truthy (strip user_text)) eqn:Hne; simpl.
  - destruct (interrupt_any now s) as (s1 & pre & Hint & Hpre & Hs & Hst & Hm).
    destruct (run_turn_any user_text
                (emit [Transcription user_text] [(lit "user", user_text)]
                   (interruption_event s1) s1))
      as (fs & es & ev & res & Hrun & Hres & Heff).
    exists pre, (Transcription user_text :: fs),
      ((lit "user", user_text) :: es), res.
    eexists. split; [| split; [exact Hres | split; [exact Hpre |]]].
    + erewrite bind_ret by exact Hint.
      assert (Hbody :
        (send (Transcription user_text) ;;
         try_except (add_memory w user_text (lit "user") ;; count_message)
           is_Exception (fun _ => ret tt) ;;
         run_turn w user_text) s1
        = (res, emit (Transcription user_text :: fs)
                  ((lit "user", user_text) :: es) ev s1)).
      { erewrite bind_ret by apply send_emit.
        erewrite bind_ret by apply remember_emit. simpl.
        rewrite emit_emit. simpl. rewrite Hrun, emit_emit. reflexivity. }
      destruct Hres as [-> | ->];
        [apply try_ret | apply try_uncaught; [| reflexivity]]; exact Hbody.
    + simpl. rewrite Hs, Hst, Hm, <- !app_assoc. auto.
  - exists [], [], [], (Ret tt), s. rewrite !app_nil_r.
    repeat split; auto; try (left; reflexivity). constructor. exact Hne.
Qed.

End TurnShapes.

Section TurnProperties.
Import Voice Traces.
Local Open Scope py_scope.

Local Opaque TTS.generate_audio lit strip.

(** X2.  Whatever the session, the collaborators' answers and the moments
    the interruption event is set, one call of [process_transcription]
    sends at most one [interrupt] and then: nothing (blank text); or
    [transcription] alone; or [transcription], [agent_response] and a
    synthesis bracket that is absent, left open after some of the audio
    chunks, closed by [tts_end] after all of them, or ended by
    [tts_error] after all of them; or, when the agent raised, the
    fallback [agent_response], [tts_start], all the chunks and possibly
    [tts_end].  The memory store is handed the user's utterance whenever
    [transcription] is sent and the agent's reply whenever it is sent (the
    fallback never), and [message_count] grows by the number of
    entries. *)
Theorem turn_sends_and_stores (w : world) (now : Z) (user_text : str)
    (s : session) :
  exists pre fs es,
    let s' := snd (process_transcription w now user_text s) in
    (pre = [] \/ pre = [Interrupt]) /\
    sent s' = sent s ++ pre ++ fs /\
    stored s' = stored s ++ es /\
    message_count s' = length es + message_count s /\
    turn_effects w user_text fs es.
Proof.
  destruct (process_transcription_any w now user_text s)
    as (pre & fs & es & res & s' & Hrun & _ & Hpre & Hs & Hst & Hm & Heff).
  exists pre, fs, es. rewrite Hrun. simpl. auto.
Qed.

(** X3.  No exception of a collaborator escapes a turn or the consumer
    loop: [process_transcription] and [process_transcription_queue]
    return normally or raise the [CancelledError] of their own
    cancellation, never an [Exception]. *)
Theorem consumer_survives_every_turn :
  (forall w now user_text s,
     returns_or_cancelled (fst (process_transcription w now user_text s))) /\
  (forall turns s,
     returns_or_cancelled (fst (process_transcription_queue turns s))).
Proof.
  assert (Hturn : forall w now user_text s,
            returns_or_cancelled
              (fst (process_transcription w now user_text s))).
  { intros w now user_text s.
    destruct (process_transcription_any w now user_text s)
      as (pre & fs & es & res & s' & Hrun & Hres & _).
    rewrite Hrun. exact Hres. }
  split; [exact Hturn |].
  induction turns as [| [[w now] user_text] turns IH]; intros s;
    [left; reflexivity |].
  simpl. unfold bind at 1.
  set (turn := try_except _ _ _).
  assert (Hres : returns_or_cancelled (fst (turn s))).
  { subst turn. unfold try_except.
    destruct user_text as [text |]; [| left; reflexivity].
    destruct (truthy text); [| left; reflexivity].
    pose proof (Hturn w now text s) as Ht.
    destruct (process_transcription w now text s) as [[[] | e] s1];
      simpl in *; [left; reflexivity |].
    destruct Ht as [Ht | Ht]; [discriminate |].
    injection Ht as ->. right. reflexivity. }
  destruct (turn s) as [[[] | e] s1]; simpl in *; [apply IH | exact Hres].
Qed.

Lemma synthesize_fails (w : world) (response_text : str) (err : error)
    (s : session) :
  interruption_event s = false ->
  quiet w ->
  TTS.ending (TTS.generate_audio (speak w) response_text 1500 5)
    = Some (Exception err) ->
  synthesize w response_text s =
    (Ret tt,
     emit (TtsStart :: map Audio (spoken w response_text)
           ++ [TtsError (message err)]) [] false s).
Proof.
  intros Hev Hquiet Hend. unfold synthesize, spoken.
  rewrite (try_caught _ _ _ s
             (emit (TtsStart
                    :: map Audio
                         (TTS.chunks
                            (TTS.generate_audio (speak w) response_text
                               1500 5))) [] false s) (Exception err));
    [| | reflexivity].
  - rewrite send_emit, emit_emit. reflexivity.
  - erewrite bind_ret by apply is_set_emit. rewrite Hev, Hquiet. simpl.
    erewrite bind_ret by apply send_emit. rewrite emit_emit. simpl.
    apply bind_raise. apply try_uncaught; [| reflexivity].
    apply bind_raise. unfold generate_tts.
    rewrite forward_chunks_clear
      by (simpl; first [reflexivity | intros; apply Hquiet]).
    rewrite Hend, emit_emit. reflexivity.
Qed.

(** X4.  When the speech stream fails after the reply was sent, the turn
    sends the chunks it got and then [tts_error] with the failure's
    message, no [tts_end]; the reply stays stored and sent, and the call
    returns normally. *)
Theorem synthesis_failure_sends_tts_error (w : world) (now : Z)
    (user_text : str) (s : session) (r : option str) (err : error) :
  truthy (strip user_text) = true ->
  agent_is_responding s = false ->
  interruption_event s = false ->
  quiet w ->
  (forall st, user_input st = user_text -> ainvoke w st = Ret r) ->
  TTS.ending (TTS.generate_audio (speak w) (reply (Ret r)) 1500 5)
    = Some (Exception err) ->
  exists s',
    process_transcription w now user_text s = (Ret tt, s') /\
    sent s' =
      sent s
      ++ [Transcription user_text; AgentResponse (reply (Ret r)); TtsStart]
      ++ map Audio (spoken w (reply (Ret r)))
      ++ [TtsError (message err)] /\
    stored s' =
      stored s ++ [(lit "user", user_text); (lit "agent", reply (Ret r))].
Proof.
  intros Hne Hidle Hev Hquiet Hag Hend.
  eexists. split.
  - eapply process_transcription_steps;
      [exact Hne | apply interrupt_idle; exact Hidle |].
    eapply run_turn_replies; try apply Hquiet; try exact Hag; [exact Hev |].
    rewrite (synthesize_fails w (reply (Ret r)) err);
      [| reflexivity | exact Hquiet | exact Hend].
    rewrite !emit_emit. reflexivity.
  - split; simpl; rewrite <- ?app_assoc; reflexivity.
Qed.

(** X5.  A reply the turn never uses: when the agent task is cancelled,
    or when the reply arrives with the interruption event set, the turn
    ends after its [transcription]; the reply is neither stored nor sent
    nor spoken. *)
Theorem interrupted_reasoning_discards_reply (w : world) (now : Z)
    (user_text : str) (s : session) :
  truthy (strip user_text) = true ->
  agent_is_responding s = false ->
  interruption_event s = false ->
  raised_at w TurnStart = false ->
  (forall st, user_input st = user_text ->
              ainvoke w st = Raise CancelledError) \/
  (raised_at w AfterAgent = true /\
   exists r, forall st, user_input st = user_text -> ainvoke w st = Ret r) ->
  exists s',
    process_transcription w now user_text s = (Ret tt, s') /\
    sent s' = sent s ++ [Transcription user_text] /\
    stored s' = stored s ++ [(lit "user", user_text)].
Proof.
  intros Hne Hidle Hev Hts Hcase.
  assert (Hrun : exists ev,
            process_transcription w now user_text s =
              (Ret tt,
               emit [Transcription user_text] [(lit "user", user_text)] ev s)).
  { destruct (get_recent_memories_returns (langgraph_store w)
                (conversation_id w) 20) as [ms Hms].
    destruct Hcase as [Hag | (Haa & r & Hag)];
      [exists false | exists true];
      (eapply process_transcription_steps;
       [exact Hne | apply interrupt_idle; exact Hidle |]);
      unfold run_turn; apply try_ret;
      apply (run_turn_head w user_text _ ms); auto.
    - erewrite bind_ret by (rewrite await_agent, Hag; reflexivity).
      unfold ret. rewrite !emit_emit. reflexivity.
    - erewrite bind_ret by (rewrite await_agent, Hag; reflexivity).
      cbv beta iota.
      erewrite bind_ret by apply is_set_emit. simpl. rewrite Haa.
      unfold ret. rewrite !emit_emit. reflexivity. }
  destruct Hrun as [ev Hrun].
  eexists. split; [exact Hrun |]. split; reflexivity.
Qed.

End TurnProperties.

Lemma X1_witness :
  Voice.agent_is_responding Voice.initial = false /\
  Voice.coordinator_view
    (snd (Voice.process_transcription_queue Scenarios.three_polls
            Voice.initial))
  = Voice.coordinator_view Voice.initial.
Proof.
  split; [reflexivity |].
  apply consumer_never_interrupts. reflexivity.
Defined.

Lemma X4_witness :
  truthy (strip Sample.question) = true /\
  exists s',
    Voice.process_transcription Scenarios.tts_down 1000 Sample.question
      Voice.initial = (Ret tt, s') /\
    Voice.sent s' =
      [Voice.Transcription Sample.question;
       Voice.AgentResponse Sample.shipped; Voice.TtsStart;
       Voice.Audio (Sample.chunk Byte.x01);
       Voice.Audio (Sample.chunk Byte.x02);
       Voice.TtsError (lit "deepgram closed")].
Proof.
  split; [reflexivity |].
  destruct (synthesis_failure_sends_tts_error Scenarios.tts_down 1000
              Sample.question Voice.initial (Some Sample.shipped)
              (mkError OtherException (lit "deepgram closed")))
    as (s' & Hp & Hs & _).
  - reflexivity.
  - reflexivity.
  - reflexivity.
  - intros cp. reflexivity.
  - intros st _. reflexivity.
  - reflexivity.
  - exists s'. split; [exact Hp | exact Hs].
Defined.

Lemma X5_witness :
  truthy (strip Sample.question) = true /\
  exists s',
    Voice.process_transcription Scenarios.agent_cancelled 1000 Sample.question
      Voice.initial = (Ret tt, s') /\
    Voice.sent s' = [Voice.Transcription Sample.question] /\
    Voice.stored s' = [(lit "user", Sample.question)].
Proof.
  split; [reflexivity |].
  destruct (interrupted_reasoning_discards_reply Scenarios.agent_cancelled 1000
              Sample.question Voice.initial)
    as (s' & Hp & Hs & Hst).
  - reflexivity.
  - reflexivity.
  - reflexivity.
  - reflexivity.
  - left. intros st _. reflexivity.
  - exists s'. split; [exact Hp |]. split; [exact Hs | exact Hst].
Defined.

(** ** The inbound message loop, for every peer *)

Section MessageLoopShapes.
Import Voice Traces.
Local Open Scope py_scope.

Local Opaque lit strip.

Lemma after_loop_nothing (s : session) :
  after_loop 0 [] 0 (deepgram_active s) s = s.
Proof.
  destruct s. unfold after_loop. simpl. rewrite !app_nil_r. reflexivity.
Qed.

Lemma after_loop_after_loop (p1 p2 : nat) (a1 a2 : list bytes) (r1 r2 : nat)
    (b1 b2 : bool) (s : session) :
  after_loop p2 a2 r2 b2 (after_loop p1 a1 r1 b1 s)
    = after_loop (p1 + p2) (a1 ++ a2) (r2 + r1) b2 s.
Proof.
  unfold after_loop. simpl.
  rewrite repeat_app, <- !app_assoc, Nat.add_assoc. reflexivity.
Qed.

Lemma sublist_nil {A : Type} (l : list A) : sublist [] l.
Proof. induction l; constructor; assumption. Qed.

Lemma on_text_any (w : world) (text : str) (s : session) :
  exists c p,
    on_text w text s = (c, after_loop p [] 0 (deepgram_active s) s) /\
    p <= 1 /\
    (c = Ret Continue \/
     (p = 0 /\ (c = Ret Break \/ exists e, c = Raise (Exception e)))).
Proof.
  unfold on_text. destruct (negb (truthy (strip text))).
  - exists (Ret Continue), 0. rewrite after_loop_nothing. auto.
  - unfold try_except, bind, lift.
    destruct (json_loads w (strip text)) as [v |].
    + destruct (dict_get v (lit "type")) as [mt | e] eqn:Hget.
      * destruct (is_string mt (lit "stop")).
        { exists (Ret Break), 0. rewrite after_loop_nothing. auto 7. }
        destruct (is_string mt (lit "ping")).
        { exists (Ret Continue), 1. split; [| auto].
          destruct s. unfold after_loop. simpl. rewrite app_nil_r.
          reflexivity. }
        exists (Ret Continue), 0. rewrite after_loop_nothing. auto.
      * destruct v; simpl in Hget; try discriminate;
          injection Hget as <-; simpl;
          (eexists; exists 0; rewrite after_loop_nothing;
           split; [reflexivity |]; split; [lia |]; right; split; [reflexivity |];
           right; eexists; reflexivity).
    + destruct (json_raises w (strip text)) as [[c msg] |]; simpl.
      * destruct c; simpl;
          first
            [ exists (Ret Continue), 0; rewrite after_loop_nothing;
              solve [auto]
            | eexists; exists 0; rewrite after_loop_nothing;
              split; [reflexivity |]; split; [lia |]; right;
              split; [reflexivity |]; right; eexists; reflexivity ].
      * exists (Ret Continue), 0. rewrite after_loop_nothing. auto.
Qed.

Lemma on_bytes_any (w : world) (data : bytes) (s : session) :
  exists c audio active,
    on_bytes w data s = (Ret c, after_loop 0 audio 0 active s) /\
    (audio = [] \/ (audio = [data] /\ deepgram_active s = true)) /\
    (active = deepgram_active s \/ active = false) /\
    (c = Continue \/ audio = []).
Proof.
  unfold on_bytes, bind at 1, get. simpl.
  destruct (deepgram_active s) eqn:Hactive.
  - unfold try_except, bind, lift, modify, ret.
    destruct (send_audio w data) as [e | []]; simpl.
    + destruct e as [[] msg]; simpl;
        first
          [ exists Continue, [], true; rewrite <- Hactive, after_loop_nothing;
            solve [auto]
          | exists Break, [], false; split; [| auto];
            destruct s; unfold after_loop; simpl; rewrite !app_nil_r;
            reflexivity ].
    + exists Continue, [data], true. split; [| auto].
      destruct s. unfold after_loop. simpl in *. rewrite app_nil_r.
      subst. reflexivity.
  - exists Continue, [], false. rewrite <- Hactive, after_loop_nothing. auto.
Qed.

Lemma read_one (s : session) :
  set_received (S (received s)) s = after_loop 0 [] 1 (deepgram_active s) s.
Proof.
  destruct s. unfold after_loop. simpl. rewrite !app_nil_r. reflexivity.
Qed.

Lemma receive_loop_any (w : world) (inbox : list ws_message) :
  forall s,
  exists res pongs audio read active,
    receive_loop w inbox s = (res, after_loop pongs audio read active s) /\
    (res = Ret tt \/ exists e, res = Raise (Exception e)) /\
    read <= length inbox /\
    pongs <= length (filter is_text (firstn read inbox)) /\
    sublist audio (payloads (firstn read inbox)) /\
    (active = deepgram_active s \/ active = false) /\
    (deepgram_active s = false -> audio = []).
Proof.
  induction inbox as [| message rest IH]; intros s.
  - exists (Ret tt), 0, [], 0, (deepgram_active s). simpl.
    rewrite after_loop_nothing. repeat split; auto. constructor.
  - simpl. unfold bind at 1, modify. rewrite read_one.
    set (s1 := after_loop 0 [] 1 (deepgram_active s) s).
    assert (Hs1 : deepgram_active s1 = deepgram_active s) by reflexivity.
    destruct message as [text | data | |].
    + destruct (on_text_any w text s1) as (c & p & Hrun & Hp & Hc).
      unfold bind. rewrite Hrun, Hs1. subst s1.
      rewrite after_loop_after_loop. simpl.
      destruct Hc as [-> | (-> & [-> | [e ->]])].
      * destruct (IH (after_loop p [] 1 (deepgram_active s) s))
          as (res & p' & a' & r' & b' & Hrest & Hres & Hr & Hpongs & Hsub
              & Hb & Hoff).
        rewrite Hrest, after_loop_after_loop. simpl in Hb, Hoff.
        exists res, (p + p'), a', (r' + 1), b'.
        rewrite Nat.add_1_r. simpl.
        repeat split; auto; lia.
      * exists (Ret tt), 0, [], 1, (deepgram_active s). simpl.
        repeat split; auto; try lia. constructor.
      * exists (Raise (Exception e)), 0, [], 1, (deepgram_active s). simpl.
        repeat split; eauto; try lia. constructor.
    + destruct (on_bytes_any w data s1) as (c & a & b & Hrun & Ha & Hb & Hc).
      unfold bind. rewrite Hrun. subst s1.
      rewrite after_loop_after_loop. simpl. simpl in Ha, Hb.
      destruct c.
      * destruct (IH (after_loop 0 a 1 b s))
          as (res & p' & a' & r' & b' & Hrest & Hres & Hr & Hpongs & Hsub
              & Hb' & Hoff).
        rewrite Hrest, after_loop_after_loop. simpl in Hb', Hoff.
        exists res, p', (a ++ a'), (r' + 1), b'.
        rewrite Nat.add_1_r. simpl.
        repeat split; auto; try lia.
        -- destruct Ha as [-> | [-> _]]; simpl; constructor; exact Hsub.
        -- destruct Hb' as [-> | ->]; auto.
        -- intros Hoff'. destruct Ha as [-> | [_ Hon]]; [| congruence].
           simpl. apply Hoff. destruct Hb as [-> | ->]; auto.
      * destruct Hc as [Hc | ->]; [discriminate |].
        exists (Ret tt), 0, [], 1, b. simpl.
        repeat split; auto; try lia. constructor. constructor.
    + destruct (IH s1)
        as (res & p' & a' & r' & b' & Hrest & Hres & Hr & Hpongs & Hsub
            & Hb' & Hoff).
      rewrite Hrest. subst s1. rewrite after_loop_after_loop.
      simpl in Hb', Hoff.
      exists res, p', a', (r' + 1), b'.
      rewrite Nat.add_1_r. simpl.
      repeat split; auto; lia.
    + unfold ret. subst s1.
      exists (Ret tt), 0, [], 1, (deepgram_active s). simpl.
      repeat split; auto; try lia. constructor.
Qed.

(** X6.  Whatever frames the peer has sent and however [json.loads] and
    the STT service answer, what the message loop has done to the session
    is this: it sent nothing but [pong] frames, at most one per text
    frame it read; what it passed to the STT service are payloads of
    binary frames it read, in their order, and none at all while the
    connection was inactive; it never marks the connection active; the
    tasks, the interruption state and the memory store are as they
    were. *)
Theorem message_loop_effects (w : world) (inbox : list ws_message)
    (s : session) :
  exists pongs audio read active,
    snd (receive_loop w inbox s) = after_loop pongs audio read active s /\
    read <= length inbox /\
    pongs <= length (filter is_text (firstn read inbox)) /\
    sublist audio (payloads (firstn read inbox)) /\
    (active = deepgram_active s \/ active = false) /\
    (deepgram_active s = false -> audio = []).
Proof.
  destruct (receive_loop_any w inbox s)
    as (res & p & a & r & b & Hrun & _ & Hr & Hp & Hsub & Hb & Hoff).
  exists p, a, r, b. rewrite Hrun. auto 7.
Qed.

(** X7.  A binary frame whose forwarding fails while the STT connection
    is active: when the failure is [ConnectionClosedOK] or
    [ConnectionClosedError] the loop ends at that frame and the frames
    after it are never read; after any other exception the frame is
    dropped and the loop goes on with the next frame. *)
Theorem send_failure_ends_or_skips (w : world) (data : bytes) (e : error)
    (rest : list ws_message) (s : session) :
  deepgram_active s = true ->
  send_audio w data = inl e ->
  serve w (BytesMessage data :: rest) s =
    match cls e with
    | ConnectionClosedOK | ConnectionClosedError =>
        (Ret tt, set_closed true (after_loop 0 [] 1 false s))
    | _ => serve w rest (set_received (S (received s)) s)
    end.
Proof.
  intros Hactive Hsend.
  assert (Hstep : on_bytes w data (set_received (S (received s)) s) =
            match cls e with
            | ConnectionClosedOK | ConnectionClosedError =>
                (Ret Break,
                 set_deepgram_active false (set_received (S (received s)) s))
            | _ => (Ret Continue, set_received (S (received s)) s)
            end).
  { unfold on_bytes, bind at 1, get. simpl. rewrite Hactive.
    unfold try_except, bind, lift, modify. rewrite Hsend. simpl.
    destruct e as [[] msg]; reflexivity. }
  assert (Hloop : receive_loop w (BytesMessage data :: rest) s =
            match on_bytes w data (set_received (S (received s)) s) with
            | (Ret Continue, s') => receive_loop w rest s'
            | (Ret Break, s') => (Ret tt, s')
            | (Raise e', s') => (Raise e', s')
            end).
  { simpl. unfold bind, modify.
    destruct (on_bytes w data (set_received (S (received s)) s))
      as [[[] | e'] s']; reflexivity. }
  unfold serve. unfold bind at 1 3. unfold try_except.
  rewrite Hloop, Hstep.
  destruct e as [[] msg]; simpl; try reflexivity;
    destruct s; unfold after_loop; simpl; rewrite ?app_nil_r; reflexivity.
Qed.

End MessageLoopShapes.

(** ** The text handed to speech synthesis: lengths *)

Section Cleaning.
Import Re TTS Bounds.

Lemma match_items_span (its : list item) :
  forall s g rest,
    match_items its s = Some (g, rest) ->
    exists m, s = m ++ rest /\ length g <= length m /\
              min_length its <= length m.
Proof.
  induction its as [| it its IH]; intros s g rest Hm; simpl in Hm.
  - injection Hm as <- <-. exists []. simpl. auto.
  - apply first_success_some in Hm. destruct Hm as (k & Hin & Hk).
    destruct (match_items its (skipn k s)) as [[g' rest'] |] eqn:Hm';
      [| discriminate].
    injection Hk as <- <-.
    apply candidates_range in Hin.
    destruct (run_counts (class it) s (rmax it) k) as [_ Hlen]; [lia |].
    destruct (IH _ _ _ Hm') as (m' & Hs & Hg & Hmin).
    exists (firstn k s ++ m'). rewrite <- app_assoc, <- Hs, firstn_skipn.
    split; [reflexivity |].
    rewrite length_app, Hlen. simpl.
    destruct (in_group it); [rewrite length_app, Hlen |]; lia.
Qed.

Lemma sub_from_length (p : pattern) (r : repl) :
  shrinking p r ->
  forall fuel at_bol s, length (sub_from fuel p r at_bol s) <= length s.
Proof.
  intros Hr. induction fuel as [| fuel IH]; intros at_bol s; simpl; [lia |].
  destruct s as [| c s']; [simpl; lia |].
  assert (Hskip : forall b, length (c :: sub_from fuel p r b s')
                            <= length (c :: s')).
  { intros b. simpl. specialize (IH b s'). lia. }
  destruct (match_here p at_bol (c :: s')) as [[g rest] |] eqn:Hm;
    [| apply Hskip].
  destruct (truthy _); [| apply Hskip].
  unfold match_here in Hm.
  destruct (bol p && negb at_bol); [discriminate |].
  apply match_items_span in Hm. destruct Hm as (m & Hs & Hg & Hmin).
  generalize (ends_with_newline
                (firstn (length (c :: s') - length rest) (c :: s'))).
  intros b. specialize (IH b rest).
  rewrite Hs, !length_app.
  assert (length (expand r g) <= length m).
  { destruct r as [| k]; simpl in *; lia. }
  lia.
Qed.

Lemma sub_length (p : pattern) (r : repl) (s : str) :
  shrinking p r -> length (sub p r s) <= length s.
Proof. intros Hr. apply sub_from_length. exact Hr. Qed.

Lemma lstrip_length (s : str) : length (lstrip s) <= length s.
Proof.
  destruct (lstrip_split s) as (ws & Hs & _).
  rewrite Hs at 2. rewrite length_app. lia.
Qed.

Lemma strip_length (s : str) : length (strip s) <= length s.
Proof.
  unfold strip.
  pose proof (lstrip_length (rstrip s)). pose proof (rstrip_length s). lia.
Qed.

Lemma clean_text_length (text : str) :
  length (clean_text_for_tts text) <= length text.
Proof.
  unfold clean_text_for_tts. destruct (negb (truthy text)); [simpl; lia |].
  etransitivity; [apply strip_length |].
  repeat (etransitivity; [apply sub_length; simpl; lia |]).
  reflexivity.
Qed.

(** X8.  Cleaning never lengthens a text, so a text within the budget is
    never truncated: [create_short_tts_version] returns exactly what
    [clean_text_for_tts] makes of it, with no ellipsis and no sentence
    dropped. *)
Theorem text_within_budget_is_only_cleaned (text : str)
    (max_chars max_sentences : Z) :
  (Z.of_nat (length text) <= max_chars)%Z ->
  length (clean_text_for_tts text) <= length text /\
  create_short_tts_version text max_chars max_sentences
    = clean_text_for_tts text.
Proof.
  intros Hfit. pose proof (clean_text_length text) as Hclean.
  split; [exact Hclean |].
  unfold create_short_tts_version, shorten.
  destruct text as [| c text]; [reflexivity |]. cbv beta iota delta [truthy negb].
  destruct (Z.leb_spec (Z.of_nat (length (clean_text_for_tts (c :: text))))
              max_chars) as [_ | Hover]; [reflexivity | lia].
Qed.

(** X9.  For a budget of at least 0 the text handed to the speech
    service is never more than three characters over the budget,
    whatever the reply: with the budget of 1500 the voice handler passes,
    a request to Deepgram carries at most 1503 characters. *)
Theorem tts_text_length_bound (text : str) (max_chars max_sentences : Z) :
  (0 <= max_chars)%Z ->
  (Z.of_nat (length (create_short_tts_version text max_chars max_sentences))
   <= max_chars + 3)%Z.
Proof.
  intros Hpos. unfold create_short_tts_version.
  destruct (negb (truthy text)); [simpl; lia |].
  set (cleaned := clean_text_for_tts text).
  destruct (Z.leb_spec (Z.of_nat (length cleaned)) max_chars) as [Hfit | Hover].
  - unfold shorten. apply Z.leb_le in Hfit. rewrite Hfit.
    apply Z.leb_le in Hfit. lia.
  - destruct (shorten_spec cleaned max_chars max_sentences)
      as [(sentences & _ & _ & _ & Hlen & ->) | ->]; [lia | |].
    + pose proof (rstrip_length (concat sentences)). lia.
    + destruct (truncate_at_word_spec cleaned max_chars)
        as [(i & _ & Hi & _ & _ & ->) | (_ & ->)]; [lia | |];
        rewrite length_app, length_firstn; simpl; lia.
Qed.

End Cleaning.

Lemma X8_witness :
  (Z.of_nat (length (lit "**Hi** [there](http://x)")) <= 1500)%Z /\
  TTS.create_short_tts_version (lit "**Hi** [there](http://x)") 1500 5
    = lit "Hi there".
Proof.
  split; [vm_compute; discriminate |].
  destruct (text_within_budget_is_only_cleaned
              (lit "**Hi** [there](http://x)") 1500 5) as [_ ->];
    [vm_compute; discriminate | vm_compute; reflexivity].
Defined.

Lemma X9_witness :
  (0 <= 1500)%Z /\
  (Z.of_nat (length (TTS.create_short_tts_version Sample.long_reply 1500 5))
   <= 1500 + 3)%Z.
Proof.
  split; [lia |]. apply tts_text_length_bound. lia.
Defined.

(** ** The memory store and the transcription queue: order *)

Section Chronology.
Import Store Order.

Local Opaque lit.

Lemma str_ltb_asym (a : str) :
  forall b, str_ltb a b = true -> str_ltb b a = false.
Proof.
  induction a as [| x a IH]; intros [| y b]; simpl; try discriminate;
    try reflexivity.
  destruct (Nat.ltb_spec (nat_of_ascii x) (nat_of_ascii y)) as [Hxy | Hxy].
  - intros _. destruct (Nat.ltb_spec (nat_of_ascii y) (nat_of_ascii x));
      [lia | reflexivity].
  - destruct (Nat.ltb_spec (nat_of_ascii y) (nat_of_ascii x)) as [Hyx | Hyx];
      [discriminate |].
    apply IH.
Qed.

Lemma insert_chronological (m : memory) (l : list memory) :
  chronological l = true -> chronological (insert_by_timestamp m l) = true.
Proof.
  induction l as [| m' rest IH]; intros Hl; [reflexivity |].
  cbn [insert_by_timestamp].
  destruct (str_ltb (timestamp m') (timestamp m)) eqn:Hlt.
  - cbn [chronological] in Hl. apply andb_prop in Hl.
    destruct Hl as [Hhead Hrest]. specialize (IH Hrest).
    cbn [chronological]. rewrite IH, andb_true_r.
    destruct rest as [| m'' r]; cbn [insert_by_timestamp].
    + rewrite (str_ltb_asym _ _ Hlt). reflexivity.
    + destruct (str_ltb (timestamp m'') (timestamp m)); [exact Hhead |].
      rewrite (str_ltb_asym _ _ Hlt). reflexivity.
  - cbn [chronological]. cbn [chronological] in Hl.
    rewrite Hlt, Hl. reflexivity.
Qed.

Lemma sort_chronological (l : list memory) :
  chronological (sort_by_timestamp l) = true.
Proof.
  induction l as [| m l IH]; [reflexivity |].
  apply insert_chronological. exact IH.
Qed.

Lemma firstn_chronological (n : nat) :
  forall l, chronological l = true -> chronological (firstn n l) = true.
Proof.
  induction n as [| n IH]; intros [| m l] Hl; try reflexivity.
  cbn [firstn chronological]. cbn [chronological] in Hl.
  apply andb_prop in Hl. destruct Hl as [Hhead Hrest].
  rewrite (IH l Hrest), andb_true_r.
  destruct l as [| m' l]; [rewrite firstn_nil; reflexivity |].
  destruct n; [reflexivity | exact Hhead].
Qed.

Lemma insert_in (x m : memory) (l : list memory) :
  In x (insert_by_timestamp m l) -> x = m \/ In x l.
Proof.
  induction l as [| m' l IH]; simpl.
  - intros [<- | []]. auto.
  - destruct (str_ltb (timestamp m') (timestamp m)); simpl.
    + intros [<- | H]; [auto |]. destruct (IH H); auto.
    + intros [<- | [<- | H]]; auto.
Qed.

Lemma sort_in (x : memory) (l : list memory) :
  In x (sort_by_timestamp l) -> In x l.
Proof.
  induction l as [| m l IH]; simpl; [auto |].
  intros H. apply insert_in in H. destruct H as [<- | H]; auto.
Qed.

Lemma firstn_in {A : Type} (x : A) (n : nat) (l : list A) :
  In x (firstn n l) -> In x l.
Proof.
  intros H. rewrite <- (firstn_skipn n l). apply in_or_app. auto.
Qed.

(** X10.  For a limit of at least 0 [get_recent_memories] returns at
    most [limit] memories, oldest first: no entry has a timestamp smaller
    than the one before it.  Every entry is built from an item with a
    value that the store's search returned; when the store is unavailable
    or the search fails the list is empty. *)
Theorem recent_memories_are_chronological (self : service)
    (conversation_id : str) (limit : Z) :
  (0 <= limit)%Z ->
  exists ms,
    get_recent_memories self conversation_id limit = Ret ms /\
    chronological ms = true /\
    (Z.of_nat (length ms) <= limit)%Z /\
    (forall m, In m ms ->
       _available self = true /\
       exists results,
         asearch (store self) [conversation_id; lit "memories"] limit
           = inr results /\
         In m (collect results)).
Proof.
  intros Hlimit. unfold get_recent_memories.
  destruct (_available self); simpl;
    [| exists []; split; [reflexivity |]; split; [reflexivity |];
       split; [simpl; lia | intros m []]].
  destruct (asearch (store self) [conversation_id; lit "memories"] limit)
    as [e | results]; simpl;
    [exists []; split; [reflexivity |]; split; [reflexivity |];
     split; [simpl; lia | intros m []] |].
  eexists. split; [reflexivity |].
  unfold slice_to. destruct (Z.leb_spec 0 limit) as [_ | ?]; [| lia].
  split; [apply firstn_chronological, sort_chronological |].
  split; [rewrite length_firstn; lia |].
  intros m Hm. split; [reflexivity |]. exists results.
  split; [reflexivity |]. apply sort_in. eapply firstn_in. exact Hm.
Qed.

End Chronology.

Section QueueOrder.
Import STT Order.

Lemma on_message_appends (ev : event) (q : queue) :
  _on_message ev q = q ++ final_transcripts [ev].
Proof.
  unfold final_transcripts. simpl. rewrite app_nil_r.
  destruct ev as [| [[[| [[sentence |]] alts]] |] final |]; simpl;
    rewrite ?app_nil_r; try reflexivity.
  destruct sentence as [| c sentence]; simpl; [rewrite app_nil_r; reflexivity |].
  destruct final as [| | []]; simpl; rewrite ?app_nil_r; reflexivity.
Qed.

Lemma poll_all (q : queue) :
  poll (length q) q = (map Some q, []).
Proof.
  induction q as [| sentence q IH]; [reflexivity |].
  simpl. rewrite IH. reflexivity.
Qed.

(** X11.  The transcription queue is first in, first out and loses
    nothing: after any sequence of Deepgram events it holds what it held
    before followed by the transcript of every final, non-empty result,
    once each and in the order of arrival; [get_transcription] hands
    them out in that order and then times out. *)
Theorem final_transcripts_are_queued_in_order (evs : list event) (q : queue) :
  deliver evs q = q ++ final_transcripts evs /\
  poll (S (length (deliver evs q))) (deliver evs q)
    = (map Some (q ++ final_transcripts evs) ++ [None], []).
Proof.
  assert (Hd : deliver evs q = q ++ final_transcripts evs).
  { revert q. induction evs as [| ev evs IH]; intros q.
    - simpl. rewrite app_nil_r. reflexivity.
    - unfold deliver in *. simpl fold_left. rewrite IH, on_message_appends.
      rewrite <- app_assoc. unfold final_transcripts. simpl.
      rewrite app_nil_r. reflexivity. }
  split; [exact Hd |]. rewrite Hd.
  generalize (q ++ final_transcripts evs). intros l.
  induction l as [| sentence l IH]; [reflexivity |].
  change (poll (S (length (sentence :: l))) (sentence :: l))
    with (let (later, q'') := poll (S (length l)) l in
          (Some sentence :: later, q'')).
  rewrite IH. reflexivity.
Qed.

End QueueOrder.

Lemma X10_witness :
  (0 <= 2)%Z /\
  exists ms,
    Store.get_recent_memories Scenarios.archive (lit "conversation-1") 2
      = Ret ms /\
    map Store.text ms = [lit "Where is my order?"; lit "It has shipped."].
Proof.
  split; [lia |].
  destruct (recent_memories_are_chronological Scenarios.archive
              (lit "conversation-1") 2) as (ms & Hms & _); [lia |].
  exists ms. split; [exact Hms |].
  vm_compute in Hms. injection Hms as <-. reflexivity.
Defined.

(** ** The router *)

Section Trimming.

Lemma lstrip_lstrip (s : str) : lstrip (lstrip s) = lstrip s.
Proof.
  induction s as [| c s IH]; [reflexivity |]. simpl.
  destruct (isspace c) eqn:Hc; [exact IH |]. simpl. rewrite Hc. reflexivity.
Qed.

Lemma lstrip_head (s : str) :
  lstrip s = [] \/ exists x s', lstrip s = x :: s' /\ isspace x = false.
Proof.
  induction s as [| c s IH]; [left; reflexivity |]. simpl.
  destruct (isspace c) eqn:Hc; [exact IH |]. right. eauto.
Qed.

Lemma lstrip_keeps_last (s : str) (x : ascii) :
  isspace x = false -> exists s', lstrip (s ++ [x]) = s' ++ [x].
Proof.
  intros Hx. induction s as [| c s IH]; simpl.
  - rewrite Hx. exists []. reflexivity.
  - destruct (isspace c); [exact IH |]. exists (c :: s). reflexivity.
Qed.

Lemma rstrip_fixed (s : str) (x : ascii) :
  isspace x = false -> rstrip (s ++ [x]) = s ++ [x].
Proof.
  intros Hx. unfold rstrip. rewrite rev_app_distr. simpl. rewrite Hx.
  simpl. rewrite rev_involutive. reflexivity.
Qed.

Lemma strip_strip (s : str) : strip (strip s) = strip s.
Proof.
  unfold strip at 2 3.
  assert (Hr : rstrip s = [] \/
               exists s0 x, rstrip s = s0 ++ [x] /\ isspace x = false).
  { unfold rstrip. destruct (lstrip_head (rev s)) as [-> | (x & s' & -> & Hx)].
    - left. reflexivity.
    - right. exists (rev s'), x. split; [reflexivity | exact Hx]. }
  destruct Hr as [-> | (s0 & x & -> & Hx)]; [reflexivity |].
  destruct (lstrip_keeps_last s0 x Hx) as [s' Hs'].
  unfold strip. rewrite Hs', (rstrip_fixed s' x Hx), <- Hs'.
  apply lstrip_lstrip.
Qed.

End Trimming.

Section Routing.
Import Text LLM Router Routes.

Lemma contains_here {A : Type} (eqb : A -> A -> bool) (needle rest : list A) :
  (forall x, eqb x x = true) -> starts_with eqb needle (needle ++ rest) = true.
Proof.
  intros Hrefl. induction needle as [| x needle IH]; [reflexivity |].
  simpl. rewrite Hrefl, IH. reflexivity.
Qed.

Lemma contains_inside {A : Type} (eqb : A -> A -> bool)
    (before needle rest : list A) :
  (forall x, eqb x x = true) ->
  contains eqb needle (before ++ needle ++ rest) = true.
Proof.
  intros Hrefl. induction before as [| y before IH].
  - destruct (needle ++ rest) eqn:Hnr; simpl;
      rewrite <- ?Hnr, contains_here by exact Hrefl; reflexivity.
  - simpl. simpl in IH. rewrite IH. apply orb_true_r.
Qed.

Lemma generate_cases (invoke : list message -> fallible (option str))
    (text : str) (history : list entry) (system_prompt : option str) :
  (exists content,
     invoke (request text history system_prompt) = inr (Some content) /\
     truthy content = true /\
     generate invoke text history system_prompt = strip content) \/
  generate invoke text history system_prompt = LLM_ERROR \/
  generate invoke text history system_prompt = RATE_LIMIT_ERROR.
Proof.
  unfold generate.
  destruct (invoke (request text history system_prompt)) as [e | [content |]].
  - destruct (rate_limited (upper (Py.message e))); auto.
  - destruct (truthy content) eqn:Hc; [left; eauto | auto].
  - auto.
Qed.

(** X12.  Routing always resolves.  Whatever the state and whatever the
    model answers or raises, [classify_intent] leaves in [agent_type] one
    of the five agent names, for which the graph's path map has a node,
    records the matching intent ([file_analysis] for a message with
    attachments), resets the slots and keeps the user's input. *)
Theorem routing_always_resolves
    (invoke : list message -> fallible (option str))
    (orchestrator_prompt : str) (st : state) :
  let st' := classify_intent invoke orchestrator_prompt st in
  exists agent,
    In agent agents /\
    agent_type st' = Some agent /\
    next_node st' = Some agent /\
    (intent st' = Some (intent_of agent) \/
     (has_files (user_input st) = true /\
      intent st' = Some (lit "file_analysis"))) /\
    extracted_slots st' = Some [] /\ missing_slots st' = Some [] /\
    user_input st' = user_input st.
Proof.
  unfold classify_intent.
  destruct (has_files (user_input st)) eqn:Hfiles.
  - exists (lit "general_agent"). cbn. repeat split; auto 10.
  - set (a := lower (strip _)).
    destruct (contains Ascii.eqb (lit "order") a);
      [exists (lit "order_agent"); cbn; repeat split; auto 10 |].
    destruct (contains Ascii.eqb (lit "product") a);
      [exists (lit "product_agent"); cbn; repeat split; auto 10 |].
    destruct (contains Ascii.eqb (lit "billing") a);
      [exists (lit "billing_agent"); cbn; repeat split; auto 10 |].
    destruct (contains Ascii.eqb (lit "account") a);
      [exists (lit "account_agent"); cbn; repeat split; auto 10 |].
    destruct (contains Ascii.eqb (lit "general") a);
      exists (lit "general_agent"); cbn; repeat split; auto 10.
Qed.

(** X13.  A message that carries one of the attachment markers, as every
    message to which [chat_ws] appended file context does, goes to the
    general agent with intent [file_analysis]; the model is not
    consulted, so neither its answer nor its failure changes the
    route. *)
Theorem attachments_bypass_classifier
    (invoke : list message -> fallible (option str))
    (orchestrator_prompt : str) (st : state) (before marker rest : str) :
  In marker [lit "[Document:"; lit "[Image:"; lit "Attached files:"] ->
  user_input st = before ++ marker ++ rest ->
  classify_intent invoke orchestrator_prompt st
    = routed "file_analysis" "general_agent" st.
Proof.
  intros Hmarker Hinput. unfold classify_intent.
  replace (has_files (user_input st)) with true; [reflexivity |].
  rewrite Hinput. unfold has_files.
  destruct Hmarker as [<- | [<- | [<- | []]]];
    rewrite (contains_inside Ascii.eqb) by apply Ascii.eqb_refl;
    rewrite ?orb_true_r; reflexivity.
Qed.

(** X14.  When the model cannot be used (the call raises, whatever the
    exception, or the response has no content) [generate] returns one of
    its two error markers and the router falls through to the general
    agent: a failure of the classifier never reaches a domain agent and
    never raises. *)
Theorem classifier_failure_routes_to_general
    (invoke : list message -> fallible (option str))
    (orchestrator_prompt : str) (st : state) :
  has_files (user_input st) = false ->
  (exists e, invoke (asked orchestrator_prompt st) = inl e) \/
  invoke (asked orchestrator_prompt st) = inr None \/
  invoke (asked orchestrator_prompt st) = inr (Some []) ->
  classify_intent invoke orchestrator_prompt st
    = routed "general_inquiry" "general_agent" st.
Proof.
  intros Hfiles Hfail. unfold classify_intent. rewrite Hfiles.
  unfold asked in Hfail.
  set (h := if truthy (Store.or_default (conversation_history st) [])
            then _ else _) in *.
  assert (Ha : generate invoke (user_input st) h (Some orchestrator_prompt)
               = LLM_ERROR \/
               generate invoke (user_input st) h (Some orchestrator_prompt)
               = RATE_LIMIT_ERROR).
  { unfold generate. destruct Hfail as [[e ->] | [-> | ->]]; auto.
    destruct (rate_limited (upper (Py.message e))); auto. }
  destruct Ha as [-> | ->]; reflexivity.
Qed.

(** X15.  An answer that is, up to letter case and surrounding white
    space, the name of an agent is routed to that agent, with that
    agent's intent: no agent name is mistaken for another by the keyword
    cascade. *)
Theorem agent_name_routes_to_its_agent
    (invoke : list message -> fallible (option str))
    (orchestrator_prompt : str) (st : state) (content agent : str) :
  has_files (user_input st) = false ->
  invoke (asked orchestrator_prompt st) = inr (Some content) ->
  In agent agents ->
  lower (strip content) = agent ->
  let st' := classify_intent invoke orchestrator_prompt st in
  agent_type st' = Some agent /\ intent st' = Some (intent_of agent) /\
  next_node st' = Some agent.
Proof.
  intros Hfiles Hanswer Hagent Hname. unfold classify_intent.
  rewrite Hfiles. unfold asked in Hanswer.
  set (h := if truthy (Store.or_default (conversation_history st) [])
            then _ else _) in *.
  assert (Ha : lower (strip (generate invoke (user_input st) h
                               (Some orchestrator_prompt))) = agent).
  { unfold generate. rewrite Hanswer.
    destruct content as [| c content].
    - subst agent. exfalso.
      destruct Hagent as [H | [H | [H | [H | [H | []]]]]]; discriminate H.
    - cbn [truthy]. rewrite strip_strip. exact Hname. }
  rewrite Ha. clear Ha Hname Hanswer.
  destruct Hagent as [<- | [<- | [<- | [<- | [<- | []]]]]];
    repeat split; reflexivity.
Qed.

Lemma last_n_length {A : Type} (n : nat) (xs : list A) :
  length (last_n n xs) <= n.
Proof. unfold last_n. rewrite length_skipn. lia. Qed.

Lemma last_n_short {A : Type} (n : nat) (xs : list A) :
  length xs <= n -> last_n n xs = xs.
Proof.
  intros H. unfold last_n.
  replace (length xs - n) with 0 by lia. reflexivity.
Qed.

Lemma convert_history_shape (h : list entry) :
  length (convert_history_to_langchain_messages h) <= length h /\
  forallb (fun m => negb (is_system m))
    (convert_history_to_langchain_messages h) = true.
Proof.
  unfold convert_history_to_langchain_messages.
  induction h as [| msg h [IHlen IHall]]; [split; [simpl; lia | reflexivity] |].
  cbn [flat_map]. rewrite length_app, forallb_app, IHall.
  set (rest := flat_map _ h) in *. cbn [length].
  destruct (str_eqb _ (lit "user"));
    [split; [cbn [length]; lia | reflexivity] |].
  destruct (_ || _); split; cbn [length]; try lia; reflexivity.
Qed.

(** X16.  What the classifier is shown: the system prompt (when it is
    not empty), then the messages of at most the last five history
    entries, only those whose role is [user], [assistant] or [agent] and
    in their order, and last the user's input. *)
Theorem classifier_request_shape (orchestrator_prompt : str) (st : state) :
  exists kept,
    asked orchestrator_prompt st =
      (if truthy orchestrator_prompt
       then [SystemMessage orchestrator_prompt] else [])
      ++ kept ++ [HumanMessage (user_input st)] /\
    kept = convert_history_to_langchain_messages
             (last_n 5 (Store.or_default (conversation_history st) [])) /\
    length kept <= 5 /\
    forallb (fun m => negb (is_system m)) kept = true.
Proof.
  set (history := Store.or_default (conversation_history st) []).
  exists (convert_history_to_langchain_messages (last_n 5 history)).
  pose proof (last_n_length 5 history) as Hfive.
  destruct (convert_history_shape (last_n 5 history)) as [Hlen Hall].
  split; [| split; [reflexivity | split; [lia | exact Hall]]].
  unfold asked, request. fold history.
  clearbody history.
  destruct (truthy history) eqn:Hh;
    [| destruct history; [reflexivity | discriminate]].
  destruct (last_n 5 history) as [| m l] eqn:Hl; [reflexivity |].
  cbn [truthy]. rewrite last_n_short by lia. reflexivity.
Qed.

End Routing.

Lemma X13_witness :
  In (lit "Attached files:")
    [lit "[Document:"; lit "[Image:"; lit "Attached files:"] /\
  Router.route_to_agent
    (Router.classify_intent (Routes.answering_model "order_agent") (lit "p")
       (Router.mkState
          (Routes.with_attachments (lit "Where is my order?")
             (lit "[Document: a.txt]"))
          None None None None None))
  = lit "general_agent".
Proof.
  split; [simpl; auto |].
  rewrite (attachments_bypass_classifier _ _ _
             (lit "Where is my order?" ++ [Re.newline; Re.newline])
             (lit "Attached files:") (lit "[Document: a.txt]"));
    [reflexivity | simpl; auto | reflexivity].
Defined.

Lemma X14_witness :
  Router.has_files (lit "Where is my order?") = false /\
  Router.classify_intent (Routes.failing_model "429 Too Many Requests")
    (lit "p") (Routes.asking "Where is my order?")
  = Router.routed "general_inquiry" "general_agent"
      (Routes.asking "Where is my order?").
Proof.
  split; [reflexivity |].
  apply classifier_failure_routes_to_general; [reflexivity |].
  left. eexists. reflexivity.
Defined.

Lemma X15_witness :
  Text.lower (strip (lit "  Billing_Agent ")) = lit "billing_agent" /\
  Router.agent_type
    (Router.classify_intent (Routes.answering_model "  Billing_Agent ")
       (lit "p") (Routes.asking "I need a refund"))
  = Some (lit "billing_agent").
Proof.
  split; [reflexivity |].
  destruct (agent_name_routes_to_its_agent
              (Routes.answering_model "  Billing_Agent ") (lit "p")
              (Routes.asking "I need a refund") (lit "  Billing_Agent ")
              (lit "billing_agent")) as [Hagent _].
  - reflexivity.
  - reflexivity.
  - simpl. auto.
  - reflexivity.
  - exact Hagent.
Defined.

(** ** Clean-up of old memories *)

Section CleanUp.
Import Store Maintenance.

Local Opaque lit.

Lemma delete_each_spec (adelete : namespace -> str -> fallible unit)
    (ns : namespace) (cutoff : str) (results : list item) :
  forall count deleted,
  exists k,
    k <= length (expired cutoff results) /\
    snd (delete_each adelete ns cutoff results count deleted)
      = deleted ++ firstn k (expired cutoff results) /\
    (forall key, In key (firstn k (expired cutoff results)) ->
                 adelete ns key = inr tt) /\
    ((fst (delete_each adelete ns cutoff results count deleted)
        = Ret (count + Z.of_nat k)%Z /\
      k = length (expired cutoff results)) \/
     (exists e bad,
        fst (delete_each adelete ns cutoff results count deleted)
          = Raise (Exception e) /\
        nth_error (expired cutoff results) k = Some bad /\
        adelete ns bad = inl e)).
Proof.
  induction results as [| it rest IH]; intros count deleted.
  - exists 0. simpl. rewrite app_nil_r, Z.add_0_r.
    repeat split; auto. intros key [].
  - unfold expired. cbn [delete_each flat_map]. fold (expired cutoff rest).
    destruct (value it) as [v |]; [| apply IH].
    destruct (str_ltb (or_default (got_timestamp v) []) cutoff);
      [| apply IH].
    destruct (adelete ns (key it)) as [e | []] eqn:Hdel.
    + exists 0. simpl. rewrite app_nil_r.
      split; [lia |]. split; [reflexivity |].
      split; [intros key0 [] |].
      right. exists e, (key it). auto.
    + destruct (IH (count + 1)%Z (deleted ++ [key it]))
        as (k & Hk & Hsnd & Hok & Hfst).
      exists (S k). cbn [app firstn length nth_error].
      split; [lia |]. split; [rewrite Hsnd, <- app_assoc; reflexivity |].
      split.
      * intros key0 [<- | Hin]; [exact Hdel | apply Hok; exact Hin].
      * destruct Hfst as [[Hfst ->] | (e & bad & Hfst & Hnth & Hbad)].
        -- left. rewrite Hfst. split; [f_equal; lia | reflexivity].
        -- right. exists e, bad. auto.
Qed.

(** X17.  [delete_old_memories] deletes only memories whose timestamp is
    below the cutoff (a memory without a timestamp counts as older than
    any cutoff), in the order the store lists them, and each at most
    once; it never raises.  The number it returns is the number of
    memories deleted, or 0. *)
Theorem delete_old_memories_deletes_only_expired (self : service)
    (adelete : namespace -> str -> fallible unit) (cutoff : Z -> str)
    (conversation_id : str) (days : Z) :
  let out := delete_old_memories self adelete cutoff conversation_id days in
  exists results k,
    (asearch (store self) [conversation_id; lit "memories"] 1000
       = inr results \/ results = []) /\
    snd out = firstn k (expired (cutoff days) results) /\
    (fst out = Z.of_nat (length (snd out)) \/ fst out = 0%Z).
Proof.
  unfold delete_old_memories.
  destruct (_available self); cbn [negb];
    [| exists [], 0; simpl; auto].
  destruct (asearch (store self) [conversation_id; lit "memories"] 1000)
    as [e | results] eqn:Hsearch; [exists [], 0; simpl; auto |].
  destruct (delete_each_spec adelete [conversation_id; lit "memories"]
              (cutoff days) results 0%Z [])
    as (k & Hk & Hsnd & _ & Hfst).
  exists results, k. split; [auto |].
  destruct (delete_each adelete _ (cutoff days) results 0%Z [])
    as [[n | e] deleted]; simpl in *; subst deleted.
  - split; [reflexivity |].
    destruct Hfst as [[Hn ->] | (e & bad & Hn & _)]; [| discriminate].
    injection Hn as ->. left. rewrite firstn_all. lia.
  - auto.
Qed.

(** X18.  A failed deletion hides the ones before it: when the store
    deletes the first expired memories and then raises on the next,
    [delete_old_memories] returns 0 although those memories are gone. *)
Theorem failed_deletion_reports_zero (self : service)
    (adelete : namespace -> str -> fallible unit) (cutoff : Z -> str)
    (conversation_id : str) (days : Z) (results : list item)
    (gone later : list str) (bad : str) (e : error) :
  _available self = true ->
  asearch (store self) [conversation_id; lit "memories"] 1000 = inr results ->
  expired (cutoff days) results = gone ++ bad :: later ->
  (forall key, In key gone ->
     adelete [conversation_id; lit "memories"] key = inr tt) ->
  adelete [conversation_id; lit "memories"] bad = inl e ->
  delete_old_memories self adelete cutoff conversation_id days = (0%Z, gone).
Proof.
  intros Havail Hsearch Hexpired Hgone Hbad.
  unfold delete_old_memories. rewrite Havail, Hsearch. cbn [negb].
  destruct (delete_each_spec adelete [conversation_id; lit "memories"]
              (cutoff days) results 0%Z [])
    as (k & Hk & Hsnd & Hok & Hfst).
  rewrite Hexpired in *.
  assert (Hkgone : k = length gone).
  { destruct (Nat.lt_trichotomy k (length gone)) as [Hlt | [Heq | Hgt]];
      [| exact Heq |]; exfalso.
    - destruct Hfst as [[_ ->] | (e' & bad' & _ & Hnth & Hbad')].
      + rewrite length_app in Hlt. lia.
      + rewrite nth_error_app1 in Hnth by exact Hlt.
        apply nth_error_In in Hnth. rewrite (Hgone _ Hnth) in Hbad'.
        discriminate.
    - assert (Hin : In bad (firstn k (gone ++ bad :: later))).
      { rewrite firstn_app.
        apply in_or_app. right.
        destruct (k - length gone) as [| d] eqn:Hd; [lia |].
        simpl. auto. }
      rewrite (Hok _ Hin) in Hbad. discriminate. }
  subst k.
  assert (Hfirst : firstn (length gone) (gone ++ bad :: later) = gone).
  { rewrite firstn_app, Nat.sub_diag, firstn_all. simpl.
    apply app_nil_r. }
  rewrite Hfirst in Hsnd. simpl in Hsnd.
  destruct Hfst as [[_ Hlen] | (e' & bad' & Hfst & _)].
  - rewrite length_app in Hlen. simpl in Hlen. lia.
  - destruct (delete_each adelete _ (cutoff days) results 0%Z [])
      as [r deleted]. simpl in *. subst. reflexivity.
Qed.

End CleanUp.

(** ** The account tools *)

Section Accounts.
Import Text Voice Tools Book.

Lemma str_eqb_true (a b : str) : str_eqb a b = true -> a = b.
Proof. unfold str_eqb. destruct (list_eq_dec ascii_dec a b); congruence. Qed.

Lemma str_eqb_refl (a : str) : str_eqb a a = true.
Proof. unfold str_eqb. destruct (list_eq_dec ascii_dec a a); congruence. Qed.

Lemma str_eqb_false (a b : str) : a <> b -> str_eqb a b = false.
Proof. unfold str_eqb. destruct (list_eq_dec ascii_dec a b); congruence. Qed.

Lemma find_in (k : str) (db : accounts) (a : account) :
  find k db = Some a -> In (k, a) db.
Proof.
  induction db as [| [k' a'] db IH]; simpl; [discriminate |].
  destruct (str_eqb k k') eqn:Hk.
  - intros H. injection H as <-. apply str_eqb_true in Hk. subst. auto.
  - auto.
Qed.

Lemma find_none (k : str) (db : accounts) :
  find k db = None -> ~ In k (map fst db).
Proof.
  induction db as [| [k' a'] db IH]; simpl; [tauto |].
  destruct (str_eqb k k') eqn:Hk; [discriminate |].
  intros H [-> | Hin]; [rewrite str_eqb_refl in Hk; discriminate |].
  exact (IH H Hin).
Qed.

Lemma assign_absent (k : str) (a : account) (db : accounts) :
  find k db = None -> assign k a db = db ++ [(k, a)].
Proof.
  induction db as [| [k' a'] db IH]; simpl; [reflexivity |].
  destruct (str_eqb k k'); [discriminate |].
  intros H. rewrite (IH H). reflexivity.
Qed.

Lemma assign_present (k : str) (a a0 : account) (db : accounts)
    (P : str * account -> Prop) :
  find k db = Some a0 ->
  map fst (assign k a db) = map fst db /\
  length (assign k a db) = length db /\
  (Forall P db -> P (k, a) -> Forall P (assign k a db)).
Proof.
  induction db as [| [k' a'] db IH]; simpl; [discriminate |].
  destruct (str_eqb k k') eqn:Hk.
  - intros _. apply str_eqb_true in Hk. subst k'. simpl.
    repeat split. intros Hall Hp. inversion Hall. constructor; assumption.
  - intros H. destruct (IH H) as (Hkeys & Hlen & Hall). simpl.
    rewrite Hkeys, Hlen. repeat split.
    intros HP Hp. inversion HP. constructor; auto.
Qed.

Lemma remove_keys (k : str) (db : accounts) :
  NoDup (map fst db) -> NoDup (map fst (remove k db)).
Proof.
  induction db as [| [k' a'] db IH]; simpl; [auto |].
  intros H. inversion H as [| ? ? Hnot Hrest]. subst.
  destruct (str_eqb k k'); simpl; [auto |].
  constructor; [| auto].
  intros Hin. apply Hnot. unfold remove in Hin.
  apply in_map_iff in Hin. destruct Hin as ([k1 a1] & <- & Hin).
  apply filter_In in Hin. apply in_map_iff. exists (k1, a1). tauto.
Qed.

Lemma remove_absent (k : str) (db : accounts) :
  ~ In k (map fst db) -> remove k db = db.
Proof.
  induction db as [| [k' a'] db IH]; simpl; [reflexivity |].
  intros H. rewrite str_eqb_false by (intros ->; tauto). simpl.
  rewrite IH by tauto. reflexivity.
Qed.

Lemma remove_length (k : str) (a : account) (db : accounts) :
  NoDup (map fst db) -> find k db = Some a ->
  S (length (remove k db)) = length db.
Proof.
  induction db as [| [k' a'] db IH]; simpl; [discriminate |].
  intros H. inversion H as [| ? ? Hnot Hrest]. subst.
  destruct (str_eqb k k') eqn:Hk; simpl.
  - intros _. apply str_eqb_true in Hk. subst k'.
    fold (remove k db). rewrite remove_absent by exact Hnot. reflexivity.
  - intros Hfind. fold (remove k db). rewrite (IH Hrest Hfind). reflexivity.
Qed.

Lemma remove_all (P : str * account -> Prop) (k : str) (db : accounts) :
  Forall P db -> Forall P (remove k db).
Proof.
  intros H. apply Forall_forall. intros x Hx. apply filter_In in Hx.
  rewrite Forall_forall in H. apply H. tauto.
Qed.

Lemma find_remove (k o : str) (db : accounts) :
  find k (remove o db) = if str_eqb k o then None else find k db.
Proof.
  induction db as [| [k' a'] db IH]; simpl; [destruct (str_eqb k o); auto |].
  destruct (str_eqb o k') eqn:Hok; simpl.
  - apply str_eqb_true in Hok. subst k'. rewrite IH.
    destruct (str_eqb k o); reflexivity.
  - rewrite IH. destruct (str_eqb k k') eqn:Hkk; [| reflexivity].
    apply str_eqb_true in Hkk. subst k'.
    rewrite str_eqb_false; [reflexivity |].
    intros ->. rewrite str_eqb_refl in Hok. discriminate.
Qed.

Lemma find_app (k : str) (db more : accounts) :
  find k (db ++ more) =
    match find k db with Some a => Some a | None => find k more end.
Proof.
  induction db as [| [k' a'] db IH]; simpl; [reflexivity |].
  destruct (str_eqb k k'); [reflexivity | exact IH].
Qed.

Lemma email_update_cases (old_email new_email : str) (db : accounts) :
  let o := normalised old_email in
  let n := normalised new_email in
  (exists a, find o db = Some a /\ find n db = None /\
             succeeded (fst (update_account_email old_email new_email db))
               = true /\
             snd (update_account_email old_email new_email db)
               = remove o (db ++ [(n, set_email n a)])) \/
  (succeeded (fst (update_account_email old_email new_email db)) = false /\
   snd (update_account_email old_email new_email db) = db /\
   (find o db = None \/ find n db <> None)).
Proof.
  intros o n. unfold update_account_email. fold (normalised old_email).
  fold (normalised new_email). fold o. fold n.
  destruct (find o db) as [a |] eqn:Ho; [| right; auto].
  destruct (find n db) as [a' |] eqn:Hn.
  - right. repeat split; auto. right. discriminate.
  - left. exists a. rewrite (assign_absent n _ db Hn). auto.
Qed.

Lemma NoDup_snoc {A : Type} (x : A) (l : list A) :
  NoDup l -> ~ In x l -> NoDup (l ++ [x]).
Proof.
  induction l as [| y l IH]; simpl; intros Hl Hx.
  - constructor; [tauto | constructor].
  - inversion Hl as [| ? ? Hy Hrest]. subst. constructor.
    + intros Hin. apply in_app_or in Hin. destruct Hin as [Hin | [<- | []]];
        tauto.
    + apply IH; tauto.
Qed.

(** X19.  The account tools keep the book in order: after any call of
    [update_account_email] or [update_account_username] every account is
    still filed under its own address, no address is used twice and the
    number of accounts is what it was; a call that does not report
    success changes nothing. *)
Theorem account_tools_keep_book_consistent (c : call) (db : accounts) :
  consistent db ->
  consistent (perform c db) /\
  length (perform c db) = length db /\
  (succeeded (answer c db) = false -> perform c db = db).
Proof.
  intros [Hkeys Hfiled]. destruct c as [old_email new_email | e new_username].
  - unfold perform, answer.
    destruct (email_update_cases old_email new_email db)
      as [(a & Ho & Hn & Hok & ->) | (Hrefused & -> & _)];
      [| split; [split; assumption | split; [reflexivity | reflexivity]]].
    set (o := normalised old_email) in *. set (n := normalised new_email) in *.
    assert (Hkeys' : NoDup (map fst (db ++ [(n, set_email n a)]))).
    { rewrite map_app. apply NoDup_snoc; [exact Hkeys |].
      apply find_none. exact Hn. }
    split; [split |]; [| | split].
    + apply remove_keys. exact Hkeys'.
    + apply remove_all. apply Forall_app. split; [exact Hfiled |].
      constructor; [reflexivity | constructor].
    + assert (Hlen : S (length (remove o (db ++ [(n, set_email n a)])))
                     = length (db ++ [(n, set_email n a)])).
      { apply (remove_length o a); [exact Hkeys' |].
        rewrite find_app, Ho. reflexivity. }
      rewrite length_app in Hlen. simpl in Hlen. lia.
    + rewrite Hok. discriminate.
  - unfold perform, answer, update_account_username.
    set (k := strip (lower e)).
    destruct (find k db) as [a |] eqn:Hfind;
      [| split; [split; assumption | split; reflexivity]].
    destruct (length (split_words (strip new_username)) <? 2);
      [split; [split; assumption | split; reflexivity] |].
    cbn [fst snd].
    destruct (assign_present k (set_username (strip new_username) a) a db
                (fun entry => email (snd entry) = fst entry) Hfind)
      as (Hsame & Hlen & Hall).
    split; [split |]; [| | split].
    + rewrite Hsame. exact Hkeys.
    + apply Hall; [exact Hfiled |]. simpl.
      apply find_in in Hfind. rewrite Forall_forall in Hfiled.
      exact (Hfiled _ Hfind).
    + exact Hlen.
    + intros H. discriminate H.
Qed.

(** X20.  Round trip of an address change.  When the old address (lower
    case, trimmed) has an account and the new one has none,
    [update_account_email] succeeds; afterwards [get_account_info] finds
    under the new address the same account with only its [email]
    changed, reports the old address as not found, and answers for every
    other address as before. *)
Theorem email_update_round_trip (old_email new_email : str) (db : accounts)
    (a : account) :
  find (normalised old_email) db = Some a ->
  find (normalised new_email) db = None ->
  let db' := snd (update_account_email old_email new_email db) in
  succeeded (fst (update_account_email old_email new_email db)) = true /\
  get_account_info new_email (lit "all") db'
    = JObject (account_fields (set_email (normalised new_email) a)) /\
  (forall field,
     get_account_info old_email field db'
       = error (lit "Account with email " ++ normalised old_email
                ++ lit " not found")) /\
  (forall other field,
     normalised other <> normalised old_email ->
     normalised other <> normalised new_email ->
     get_account_info other field db' = get_account_info other field db).
Proof.
  intros Ho Hn db'. subst db'.
  destruct (email_update_cases old_email new_email db)
    as [(a' & Ho' & _ & Hok & ->) | (_ & _ & [Hnone | Hsome])];
    [| congruence | congruence].
  rewrite Ho in Ho'. injection Ho' as <-.
  set (o := normalised old_email) in *. set (n := normalised new_email) in *.
  assert (Hon : o <> n) by (intros Heq; rewrite Heq in Ho; congruence).
  assert (Hfind : forall k,
            find k (remove o (db ++ [(n, set_email n a)])) =
              if str_eqb k o then None
              else match find k db with
                   | Some x => Some x
                   | None => if str_eqb k n then Some (set_email n a)
                             else None
                   end).
  { intros k. rewrite find_remove, find_app. reflexivity. }
  split; [exact Hok |]. split; [| split].
  - unfold get_account_info. fold (normalised new_email). fold n.
    rewrite Hfind, (str_eqb_false n o) by congruence.
    rewrite Hn, str_eqb_refl. reflexivity.
  - intros field. unfold get_account_info. fold (normalised old_email).
    fold o. rewrite Hfind, str_eqb_refl. reflexivity.
  - intros other field Ho' Hn'. unfold get_account_info.
    fold (normalised other). rewrite Hfind.
    rewrite (str_eqb_false _ o), (str_eqb_false _ n) by assumption.
    destruct (find (normalised other) db); reflexivity.
Qed.

End Accounts.

Lemma X19_witness :
  Tools.consistent Tools.ACCOUNTS_DB /\
  length
    (Tools.perform
       (Tools.UpdateEmail (lit " User@Example.com") (lit "john@example.com"))
       Tools.ACCOUNTS_DB) = 2.
Proof.
  assert (H : Tools.consistent Tools.ACCOUNTS_DB).
  { split.
    - simpl. constructor; [simpl; intros [H | []]; discriminate H |].
      constructor; [intros [] | constructor].
    - constructor; [reflexivity |]. constructor; [reflexivity |].
      constructor. }
  split; [exact H |].
  destruct (account_tools_keep_book_consistent
              (Tools.UpdateEmail (lit " User@Example.com")
                 (lit "john@example.com"))
              Tools.ACCOUNTS_DB H) as (_ & Hlen & _).
  exact Hlen.
Defined.

Lemma X20_witness :
  Tools.find (Book.normalised (lit " User@Example.com")) Tools.ACCOUNTS_DB
    <> None /\
  Tools.get_account_info (lit "john@example.com") (lit "username")
    (snd (Tools.update_account_email (lit " User@Example.com")
            (lit "John@example.com ") Tools.ACCOUNTS_DB))
  = Voice.JObject [(lit "username", Voice.JString (lit "johndoe"))] /\
  Tools.get_account_info (lit " User@Example.com") (lit "all")
    (snd (Tools.update_account_email (lit " User@Example.com")
            (lit "John@example.com ") Tools.ACCOUNTS_DB))
  = Tools.error (lit "Account with email user@example.com not found").
Proof.
  split; [discriminate |].
  destruct (email_update_round_trip (lit " User@Example.com")
              (lit "John@example.com ") Tools.ACCOUNTS_DB
              (Tools.mkAccount (lit "user@example.com") (lit "johndoe")
                 (lit "John Doe") (lit "555-123-4567")
                 (lit "123 Main St, New York, NY") (lit "2025-06-15") true))
    as (_ & _ & Hold & _); [reflexivity | reflexivity |].
  split; [reflexivity |].
  rewrite (Hold (lit "all")). reflexivity.
Defined.

Lemma X7_witness :
  Voice.deepgram_active Scenarios.listening = true /\
  Voice.serve Scenarios.stt_closed
    [Voice.BytesMessage (Sample.chunk Byte.x01);
     Voice.TextMessage Sample.ping_text] Scenarios.listening
  = (Ret tt,
     Voice.set_closed true
       (Traces.after_loop 0 [] 1 false Scenarios.listening)).
Proof.
  split; [reflexivity |].
  exact (send_failure_ends_or_skips Scenarios.stt_closed
           (Sample.chunk Byte.x01) (mkError ConnectionClosedOK (lit "closed"))
           [Voice.TextMessage Sample.ping_text] Scenarios.listening
           eq_refl eq_refl).
Defined.

Lemma X18_witness :
  Store._available Scenarios.archive = true /\
  Maintenance.delete_old_memories Scenarios.archive
    Scenarios.adelete_users_fail Scenarios.cutoff_may
    (lit "conversation-1") 30
  = (0%Z, [lit "agent_2025-03-01T10:00:05"]).
Proof.
  split; [reflexivity |].
  apply (failed_deletion_reports_zero Scenarios.archive
           Scenarios.adelete_users_fail Scenarios.cutoff_may
           (lit "conversation-1") 30 Scenarios.listed
           [lit "agent_2025-03-01T10:00:05"] []
           (lit "user_2025-03-01T10:00:00")
           (mkError OtherException (lit "write conflict"))).
  - reflexivity.
  - reflexivity.
  - reflexivity.
  - intros key [<- | []]. reflexivity.
  - reflexivity.
Defined.


(** ** Audio frames *)

Section AudioFrames.
Import Voice Traces.

Lemma spoken_nonempty (w : world) (text : str) (c : bytes) :
  In c (spoken w text) -> truthy c = true.
Proof.
  unfold spoken, TTS.generate_audio.
  destruct (negb (truthy (TTS.create_short_tts_version text 1500 5)));
    cbn [TTS.chunks]; [intros [] |].
  intros Hin. apply filter_In in Hin. tauto.
Qed.

Local Opaque spoken error_response.

Lemma audio_in (c : bytes) (l : list bytes) :
  In (Audio c) (map Audio l) -> In c l.
Proof.
  intros Hin. apply in_map_iff in Hin. destruct Hin as (c' & Heq & Hin).
  injection Heq as ->. exact Hin.
Qed.

Lemma synthesis_frames_audio (audio : list bytes) (fs : list frame)
    (c : bytes) :
  synthesis_frames audio fs -> In (Audio c) fs -> In c audio.
Proof.
  intros Hfs Hin. destruct Hfs as [| k | | msg]; simpl in Hin.
  - contradiction.
  - destruct Hin as [Hin | Hin]; [discriminate |].
    apply audio_in in Hin.
    rewrite <- (firstn_skipn k audio). apply in_or_app. auto.
  - destruct Hin as [Hin | Hin]; [discriminate |].
    apply in_app_or in Hin. destruct Hin as [Hin | [Hin | []]];
      [apply audio_in; exact Hin | discriminate].
  - destruct Hin as [Hin | Hin]; [discriminate |].
    apply in_app_or in Hin. destruct Hin as [Hin | [Hin | []]];
      [apply audio_in; exact Hin | discriminate].
Qed.

(** X21.  No turn ever sends an empty audio frame, nor audio of another
    text: every binary frame [process_transcription] sends is a non-empty
    chunk that the speech service yielded for the text of the
    [agent_response] frame of the same call, which is the turn's reply or
    the fallback text. *)
Theorem turn_never_sends_empty_audio (w : world) (now : Z) (user_text : str)
    (s : session) :
  exists frames,
    sent (snd (process_transcription w now user_text s)) = sent s ++ frames /\
    forall c, In (Audio c) frames ->
      truthy c = true /\
      exists text, In (AgentResponse text) frames /\ In c (spoken w text).
Proof.
  destruct (process_transcription_any w now user_text s)
    as (pre & fs & es & res & s' & Hrun & _ & Hpre & Hs & _ & _ & Heff).
  exists (pre ++ fs). rewrite Hrun. split; [exact Hs |].
  intros c Hin.
  assert (Hsource : exists text,
            In (AgentResponse text) fs /\ In c (spoken w text)).
  { apply in_app_or in Hin. destruct Hin as [Hin | Hin].
    - destruct Hpre as [-> | ->]; simpl in Hin; [contradiction |].
      destruct Hin as [Hin | []]. discriminate Hin.
    - destruct Heff as [Hblank | | response_text fs Hfs | ended];
        simpl in Hin.
      + contradiction.
      + destruct Hin as [Hin | []]. discriminate Hin.
      + destruct Hin as [Hin | [Hin | Hin]];
          [discriminate Hin | discriminate Hin |].
        exists response_text. split; [simpl; auto |].
        eapply synthesis_frames_audio; eassumption.
      + destruct Hin as [Hin | [Hin | [Hin | Hin]]];
          [discriminate Hin | discriminate Hin | discriminate Hin |].
        exists error_response. split; [simpl; auto |].
        apply in_app_or in Hin. destruct Hin as [Hin | Hin];
          [apply audio_in; exact Hin |].
        destruct ended; simpl in Hin; [| contradiction].
        destruct Hin as [Hin | []]. discriminate Hin. }
  destruct Hsource as (text & Hresp & Htext).
  split; [eapply spoken_nonempty; exact Htext |].
  exists text. split; [apply in_or_app; right; exact Hresp | exact Htext].
Qed.

End AudioFrames.

(* ===================================================================== *)
(** * The interruption coordinator in the sessions the program reaches *)
(* ===================================================================== *)

Section QuietTurn.
Import Voice Program.
Local Open Scope py_scope.
Variable w : world.
Hypothesis Hquiet : quiet w.

Lemma steady_ret {A : Type} (a : A) : steady (ret a).
Proof. intros s Hs. exact Hs. Qed.

Lemma steady_raise {A : Type} (e : exc) : steady (@raise session A e).
Proof. intros s Hs. exact Hs. Qed.

Lemma steady_lift {A : Type} (r : result A) : steady (lift r).
Proof. intros s Hs. exact Hs. Qed.

Lemma steady_bind {A B : Type} (m : M session A) (k : A -> M session B) :
  steady m -> (forall a, steady (k a)) -> steady (bind m k).
Proof.
  intros Hm Hk s Hs. unfold bind. specialize (Hm s Hs).
  destruct (m s) as [[a | e] s1]; simpl in *; [| exact Hm].
  apply Hk. exact Hm.
Qed.

Lemma steady_try {A : Type} (m : M session A) (caught : exc -> bool)
    (h : exc -> M session A) :
  steady m -> (forall e, steady (h e)) -> steady (try_except m caught h).
Proof.
  intros Hm Hh s Hs. unfold try_except. specialize (Hm s Hs).
  destruct (m s) as [[a | e] s1]; simpl in *; [exact Hm |].
  destruct (caught e); [| exact Hm].
  apply Hh. exact Hm.
Qed.

Lemma steady_if {A : Type} (b : bool) (m1 m2 : M session A) :
  steady m1 -> steady m2 -> steady (if b then m1 else m2).
Proof. destruct b; auto. Qed.

Lemma steady_send (f : frame) : steady (send f).
Proof. intros s Hs. exact Hs. Qed.

Lemma steady_is_set (cp : checkpoint) : steady (is_set w cp).
Proof.
  intros s Hs. unfold is_set. simpl. rewrite Hs, Hquiet. reflexivity.
Qed.

Lemma steady_clear : steady (modify (set_interruption_event false)).
Proof. intros s Hs. reflexivity. Qed.

Lemma steady_add_memory (text sender : str) :
  steady (add_memory w text sender).
Proof.
  apply steady_bind; [intros s Hs; exact Hs | intros; apply steady_lift].
Qed.

Lemma steady_count_message : steady count_message.
Proof. intros s Hs. exact Hs. Qed.

Lemma steady_remember (text sender : str) :
  steady (try_except (add_memory w text sender ;; count_message)
            is_Exception (fun _ => ret tt)).
Proof.
  apply steady_try; [| intros; apply steady_ret].
  apply steady_bind;
    [apply steady_add_memory | intros; apply steady_count_message].
Qed.

Lemma steady_forward_chunks (cs : list bytes) (e : option exc) :
  forall i, steady (forward_chunks w i cs e).
Proof.
  induction cs as [| c cs IH]; intros i; simpl.
  - destruct e; [apply steady_raise | apply steady_ret].
  - apply steady_bind; [apply steady_is_set | intros stop].
    apply steady_if; [apply steady_ret |].
    apply steady_bind; [apply steady_send | intros _; apply IH].
Qed.

Lemma steady_play (cs : list bytes) (e : option exc) : steady (play cs e).
Proof.
  induction cs as [| c cs IH]; simpl.
  - destruct e; [apply steady_raise | apply steady_ret].
  - apply steady_bind; [apply steady_send | intros _; exact IH].
Qed.

Lemma steady_synthesize (response_text : str) :
  steady (synthesize w response_text).
Proof.
  unfold synthesize.
  apply steady_try; [| intros e; apply steady_send].
  apply steady_bind; [apply steady_is_set | intros b1].
  apply steady_if; [apply steady_ret |].
  apply steady_bind; [apply steady_send | intros _].
  apply steady_bind.
  - apply steady_try; [| intros; apply steady_ret].
    apply steady_bind; [apply steady_forward_chunks | intros; apply steady_ret].
  - intros finished. apply steady_if; [apply steady_ret |].
    apply steady_bind; [apply steady_is_set | intros b2].
    apply steady_if; [apply steady_ret | apply steady_send].
Qed.

Lemma steady_synthesize_error_response :
  steady (synthesize_error_response w).
Proof.
  unfold synthesize_error_response.
  apply steady_try; [| intros; apply steady_ret].
  apply steady_bind; [apply steady_send | intros _].
  apply steady_bind; [apply steady_play | intros _].
  apply steady_send.
Qed.

Lemma steady_run_turn (user_text : str) : steady (run_turn w user_text).
Proof.
  unfold run_turn. apply steady_try.
  - apply steady_bind; [apply steady_is_set | intros was_interrupted].
    apply steady_bind; [apply steady_clear | intros _].
    apply steady_if; [apply steady_ret |].
    apply steady_bind; [apply steady_lift | intros recent_memories].
    apply steady_bind.
    + apply steady_try; [| intros; apply steady_ret].
      apply steady_bind; [apply steady_lift | intros; apply steady_ret].
    + intros [result |]; [| apply steady_ret].
      apply steady_bind; [apply steady_is_set | intros interrupted].
      apply steady_if; [apply steady_ret |].
      apply steady_bind; [apply steady_remember | intros _].
      apply steady_bind; [apply steady_send | intros _].
      apply steady_synthesize.
  - intros e.
    apply steady_bind; [apply steady_send | intros _].
    apply steady_synthesize_error_response.
Qed.

(** A turn that starts with no task registered and the event clear, and
    during which nothing else sets the event, ends with the event
    clear. *)
Lemma quiet_turn_leaves_event_clear (now : Z) (user_text : str)
    (s : session) :
  agent_is_responding s = false ->
  interruption_event s = false ->
  interruption_event (snd (process_transcription w now user_text s)) = false.
Proof.
  intros Hidle Hev. unfold process_transcription.
  destruct (negb (truthy (strip user_text))); [exact Hev |].
  erewrite bind_ret by (apply interrupt_idle; exact Hidle).
  apply steady_try; [| intros; apply steady_ret | exact Hev].
  apply steady_bind; [apply steady_send | intros _].
  apply steady_bind; [apply steady_remember | intros _].
  apply steady_run_turn.
Qed.

End QuietTurn.


Section Reachability.
Import Voice Traces Program.
Local Open Scope py_scope.

Lemma strip_truthy (text : str) :
  truthy (strip text) = true -> truthy text = true.
Proof. destruct text; [intros H; discriminate H | reflexivity]. Qed.

Local Opaque TTS.generate_audio lit strip.

Lemma no_interrupt_in_pongs (n : nat) :
  filter is_interrupt (repeat Pong n) = [].
Proof. induction n; [reflexivity | exact IHn]. Qed.

Lemma settled_is_idle (s : session) :
  coordinator_view s = coordinator_view initial ->
  agent_is_responding s = false /\
  current_agent_task s = None /\ current_tts_task s = None /\
  last_interruption_time s = 0%Z /\ cancelled s = [] /\
  filter is_interrupt (sent s) = [].
Proof.
  unfold coordinator_view. simpl. intros H.
  injection H as Ha Ht Hl Hc Hf.
  unfold agent_is_responding. rewrite Ha, Ht. auto 7.
Qed.

(** In every session the program reaches the coordinator's view is the
    one it started with, and the interruption event is clear. *)
Lemma reachable_settled (s : session) :
  reachable s ->
  coordinator_view s = coordinator_view initial /\
  interruption_event s = false.
Proof.
  induction 1 as [| s _ [IHv IHe] | message s _ [IHv IHe]
                  | w inbox s _ [IHv IHe] | w now user_text s Hq _ [IHv IHe]].
  - split; reflexivity.
  - split; [exact IHv | exact IHe].
  - split; [| exact IHe].
    rewrite (keeps_send (Ready message)) by reflexivity. exact IHv.
  - destruct (receive_loop_any w inbox s)
      as (res & p & a & r & b & Hrun & _).
    rewrite Hrun. split; [| exact IHe].
    rewrite <- IHv. unfold coordinator_view, after_loop. simpl.
    rewrite filter_app, no_interrupt_in_pongs, app_nil_r. reflexivity.
  - destruct (settled_is_idle s IHv) as [Hidle _]. split.
    + rewrite process_transcription_registers_no_task by exact Hidle.
      exact IHv.
    + apply quiet_turn_leaves_event_clear; assumption.
Qed.

Lemma try_keeps_state {A : Type} (m : M session A) (a : A) (s : session) :
  snd (try_except m is_Exception (fun _ => ret a) s) = snd (m s).
Proof.
  unfold try_except. destruct (m s) as [[x | e] s1]; [reflexivity |].
  destruct (is_Exception e); reflexivity.
Qed.

(** The consumer loop only reaches sessions of the program. *)
Lemma reachable_queue (turns : list (world * Z * option str)) :
  quiet_turns turns ->
  forall s, reachable s ->
            reachable (snd (process_transcription_queue turns s)).
Proof.
  induction 1 as [| [[w now] user_text] turns Hq _ IH]; intros s Hs;
    [exact Hs |].
  cbn [process_transcription_queue]. unfold bind at 1.
  set (turn := try_except _ _ _).
  assert (Hturn : reachable (snd (turn s))).
  { subst turn. rewrite try_keeps_state.
    destruct user_text as [text |]; [| exact Hs].
    destruct (truthy text); [| exact Hs].
    apply reach_turn; [exact Hq | exact Hs]. }
  destruct (turn s) as [[[] | e] s1]; simpl in *; [apply IH |]; exact Hturn.
Qed.

(** The frames of a turn that starts with no task registered: the
    [transcription] first, and no [interrupt] at all. *)
Lemma idle_turn_frames (w : world) (now : Z) (user_text : str)
    (s : session) :
  agent_is_responding s = false ->
  truthy (strip user_text) = true ->
  exists rest es,
    sent (snd (process_transcription w now user_text s))
      = sent s ++ Transcription user_text :: rest /\
    ~ In Interrupt rest /\
    stored (snd (process_transcription w now user_text s)) = stored s ++ es.
Proof.
  intros Hidle Hne.
  pose proof (process_transcription_registers_no_task w now user_text s Hidle)
    as Hkeep.
  destruct (process_transcription_any w now user_text s)
    as (pre & fs & es & res & s' & Hrun & _ & Hpre & Hs & Hst & _ & Heff).
  rewrite Hrun in *. simpl in *.
  assert (Hnone : filter is_interrupt (pre ++ fs) = []).
  { unfold coordinator_view in Hkeep. injection Hkeep as _ _ _ _ Hf.
    rewrite Hs, filter_app in Hf.
    rewrite <- (app_nil_r (filter is_interrupt (sent s))) in Hf at 2.
    apply app_inv_head in Hf. exact Hf. }
  destruct Hpre as [-> | ->]; [| discriminate Hnone].
  simpl in Hs, Hnone.
  assert (Hfs : exists rest, fs = Transcription user_text :: rest).
  { destruct Heff as [Hblank | | response_text fs0 _ | ended];
      [congruence | eauto ..]. }
  destruct Hfs as [rest ->]. exists rest, es.
  split; [exact Hs |]. split; [| exact Hst].
  intros Hin. simpl in Hnone.
  assert (Hf : In Interrupt (filter is_interrupt rest))
    by (apply filter_In; split; [exact Hin | reflexivity]).
  rewrite Hnone in Hf. exact Hf.
Qed.

Lemma queue_step (w : world) (now : Z) (text : str)
    (rest : list (world * Z * option str)) (s s1 : session) :
  truthy text = true ->
  process_transcription w now text s = (Ret tt, s1) ->
  process_transcription_queue ((w, now, Some text) :: rest) s
    = process_transcription_queue rest s1.
Proof.
  intros Ht Hrun. cbn [process_transcription_queue]. rewrite Ht.
  erewrite bind_ret by (apply try_ret; exact Hrun). reflexivity.
Qed.

Lemma queue_last (w : world) (now : Z) (text : str) (s : session) :
  truthy text = true ->
  snd (process_transcription_queue [(w, now, Some text)] s)
    = snd (process_transcription w now text s).
Proof.
  intros Ht. cbn [process_transcription_queue]. rewrite Ht.
  unfold bind, try_except.
  destruct (process_transcription w now text s) as [[[] | e] s1];
    [reflexivity |].
  destruct (is_Exception e); reflexivity.
Qed.

(** C1, on the code.  [process_transcription] binds the tasks it creates
    to locals and the consumer awaits each turn, so whenever a final
    transcript is accepted for processing, in any session the program
    reaches and however long after the last interruption, the coordinator
    finds no task in flight: [interrupt_current_response] returns at its
    guard, with no time recorded, the event not set, nothing cancelled
    and no [interrupt] sent; the frames of the new turn start with its
    [transcription] and hold no [interrupt], and the turn leaves no task
    registered either. *)
Theorem C1_coordinator_finds_no_task_in_flight (s : session) (w : world)
    (now : Z) (user_text : str) :
  reachable s ->
  truthy (strip user_text) = true ->
  agent_is_responding s = false /\
  interrupt_current_response now s = (Ret tt, s) /\
  let s' := snd (process_transcription w now user_text s) in
  (exists rest,
     sent s' = sent s ++ Transcription user_text :: rest /\
     ~ In Interrupt rest) /\
  filter is_interrupt (sent s') = [] /\
  cancelled s' = [] /\
  last_interruption_time s' = 0%Z /\
  current_agent_task s' = None /\ current_tts_task s' = None.
Proof.
  intros Hs Hne.
  destruct (reachable_settled s Hs) as [Hv _].
  destruct (settled_is_idle s Hv) as [Hidle _].
  split; [exact Hidle |]. split; [apply interrupt_idle; exact Hidle |].
  intros s'.
  destruct (idle_turn_frames w now user_text s Hidle Hne)
    as (rest & es & Hsent & Hno & _).
  split; [exists rest; split; assumption |].
  assert (Hv' : coordinator_view s' = coordinator_view initial).
  { subst s'.
    rewrite process_transcription_registers_no_task by exact Hidle.
    exact Hv. }
  destruct (settled_is_idle s' Hv') as (_ & Ha & Ht & Hl & Hc & Hf).
  auto 7.
Qed.

(** C5, on the code.  Whatever the times [t1] and [t2] at which two final
    transcripts are taken up, less than 500 ms apart or more, and
    whatever the program did before, the pair produces no [interrupt] and
    no cancellation, [last_interruption_time] is never written, and the
    coordinator still has nothing to interrupt afterwards: the debounce
    test is never reached. *)
Theorem C5_no_pair_of_events_interrupts (s : session) (w1 w2 : world)
    (t1 t2 : Z) (text1 text2 : str) :
  reachable s ->
  quiet w1 ->
  quiet w2 ->
  let s' :=
    snd (process_transcription_queue
           [(w1, t1, Some text1); (w2, t2, Some text2)] s) in
  filter is_interrupt (sent s') = [] /\
  cancelled s' = [] /\
  last_interruption_time s' = 0%Z /\
  interruption_event s' = false /\
  forall now, interrupt_current_response now s' = (Ret tt, s').
Proof.
  intros Hs Hq1 Hq2 s'.
  assert (Hs' : reachable s').
  { apply reachable_queue; [| exact Hs].
    repeat constructor; assumption. }
  destruct (reachable_settled s' Hs') as [Hv He].
  destruct (settled_is_idle s' Hv) as (Hidle & _ & _ & Hl & Hc & Hf).
  repeat split; auto.
  intros now. apply interrupt_idle. exact Hidle.
Qed.

(** C2, on the code.  A turn in its Synthesize stage is never
    interrupted.  When a second final transcript is spoken while the
    reply to the first is being synthesized, the consumer is still
    awaiting the first turn: that turn forwards every chunk and sends
    [tts_end], and only then is the second transcript taken up, with its
    [transcription] next and no [interrupt] anywhere; nothing is
    cancelled, and the memory store has held the reply since before the
    synthesis began. *)
Theorem C2_synthesis_is_never_interrupted (s : session) (w1 w2 : world)
    (t1 t2 : Z) (text1 text2 : str) (r : option str) :
  reachable s ->
  quiet w1 ->
  quiet w2 ->
  truthy (strip text1) = true ->
  truthy (strip text2) = true ->
  (forall st, user_input st = text1 -> ainvoke w1 st = Ret r) ->
  TTS.ending (TTS.generate_audio (speak w1) (reply (Ret r)) 1500 5) = None ->
  let s' :=
    snd (process_transcription_queue
           [(w1, t1, Some text1); (w2, t2, Some text2)] s) in
  exists rest more,
    sent s' =
      sent s
      ++ [Transcription text1; AgentResponse (reply (Ret r)); TtsStart]
      ++ map Audio (spoken w1 (reply (Ret r)))
      ++ [TtsEnd]
      ++ Transcription text2 :: rest /\
    ~ In Interrupt rest /\
    filter is_interrupt (sent s') = [] /\
    cancelled s' = [] /\
    stored s' =
      stored s ++ [(lit "user", text1); (lit "agent", reply (Ret r))]
      ++ more.
Proof.
  intros Hs Hq1 Hq2 Hne1 Hne2 Hag Hend s'.
  destruct (reachable_settled s Hs) as [Hv He].
  destruct (settled_is_idle s Hv) as [Hidle _].
  pose proof (completed_turn w1 t1 text1 s r Hne1 (or_introl Hidle) He Hq1
                Hag Hend) as Hfirst.
  set (s1 := emit _ _ false s) in Hfirst.
  assert (Hs1 : reachable s1).
  { replace s1 with (snd (process_transcription w1 t1 text1 s))
      by (rewrite Hfirst; reflexivity).
    apply reach_turn; assumption. }
  destruct (reachable_settled s1 Hs1) as [Hv1 _].
  destruct (settled_is_idle s1 Hv1) as [Hidle1 _].
  destruct (idle_turn_frames w2 t2 text2 s1 Hidle1 Hne2)
    as (rest & more & Hsent & Hno & Hstored).
  assert (Hs' : reachable s').
  { apply reachable_queue; [| exact Hs]. repeat constructor; assumption. }
  destruct (reachable_settled s' Hs') as [Hv' _].
  destruct (settled_is_idle s' Hv') as (_ & _ & _ & _ & Hc & Hf).
  assert (Heq : s' = snd (process_transcription w2 t2 text2 s1)).
  { subst s'.
    rewrite (queue_step w1 t1 text1 _ s s1 (strip_truthy _ Hne1) Hfirst).
    apply queue_last. apply strip_truthy. exact Hne2. }
  exists rest, more. rewrite Heq in *.
  split; [| split; [exact Hno | split; [exact Hf | split; [exact Hc |]]]].
  - rewrite Hsent. subst s1. unfold emit, spoken. cbn [sent].
    rewrite <- !app_assoc. reflexivity.
  - rewrite Hstored. subst s1. unfold emit. cbn [stored].
    rewrite <- !app_assoc. reflexivity.
Qed.

End Reachability.

(** ** The text handed to speech synthesis: the budget *)

Section BudgetOverrun.
Import Re TTS Budget.

(** C7, on the code.  For a text whose cleaned form is over a budget
    [max_chars >= 0] and whose leading whole sentences within the budget
    come to fewer than 100 characters, [create_short_tts_version] takes
    the first [max_chars] characters of the cleaned text, cuts them back
    to their last space only when that space lies beyond four fifths of
    the budget, and then appends [...].  So the text handed to synthesis
    is longer than the budget, which the docstring calls the maximum,
    unless that space lies at least three characters before the end of
    the budget; when no space lies beyond four fifths of the budget the
    cut is made after character [max_chars], wherever that falls, and the
    result is three characters over the budget. *)
Theorem C7_fallback_exceeds_budget (text : str)
    (max_chars max_sentences : Z) :
  (0 <= max_chars < Z.of_nat (length (clean_text_for_tts text)))%Z ->
  (length (kept_sentences (clean_text_for_tts text) max_chars max_sentences)
   <? 100) = true ->
  let cleaned := clean_text_for_tts text in
  let out := create_short_tts_version text max_chars max_sentences in
  let last_space := rfind (ch " ") (firstn (Z.to_nat max_chars) cleaned) in
  out =
    (if (4 * max_chars <? 5 * last_space)%Z
     then firstn (Z.to_nat last_space) cleaned
     else firstn (Z.to_nat max_chars) cleaned) ++ ellipsis /\
  Z.of_nat (length out) =
    ((if (4 * max_chars <? 5 * last_space)%Z then last_space else max_chars)
     + 3)%Z /\
  ((max_chars < Z.of_nat (length out))%Z <->
   (5 * last_space <= 4 * max_chars \/ max_chars - 3 < last_space)%Z).
Proof.
  intros Hm Hk cleaned out last_space.
  assert (Hout : out = truncate_at_word cleaned max_chars).
  { unfold out, create_short_tts_version.
    destruct text as [| c text]; [simpl in Hm; lia |].
    cbn [truthy negb]. fold cleaned. unfold shorten.
    destruct (Z.leb_spec (Z.of_nat (length cleaned)) max_chars) as [? | _];
      [unfold cleaned in *; lia |].
    cbv zeta.
    change (take_fitting max_chars []
              (slice_to max_sentences
                 (combine_sentences (split delimiter cleaned))))
      with (kept_sentences cleaned max_chars max_sentences).
    unfold cleaned. rewrite Hk, orb_true_r. reflexivity. }
  assert (Hcut : truncate_at_word cleaned max_chars =
            (if (4 * max_chars <? 5 * last_space)%Z
             then firstn (Z.to_nat last_space) cleaned
             else firstn (Z.to_nat max_chars) cleaned) ++ ellipsis /\
            ((4 * max_chars < 5 * last_space)%Z ->
             (0 <= last_space < max_chars)%Z)).
  { unfold truncate_at_word, slice_to.
    destruct (Z.leb_spec 0 max_chars) as [_ | ?]; [| lia].
    fold last_space.
    assert (Hlen : length (firstn (Z.to_nat max_chars) cleaned)
                   = Z.to_nat max_chars).
    { rewrite length_firstn. unfold cleaned. lia. }
    pose proof (rfind_spec (ch " ") (firstn (Z.to_nat max_chars) cleaned))
      as Hspec.
    fold last_space in Hspec. rewrite Hlen in Hspec.
    destruct Hspec as [[Hr _] | (Hrange & _)].
    - rewrite Hr.
      destruct (Z.ltb_spec (4 * max_chars) (5 * -1)) as [? | _]; [lia |].
      split; [reflexivity | lia].
    - destruct (Z.ltb_spec (4 * max_chars) (5 * last_space)) as [Hfar | _];
        [| split; [reflexivity | lia]].
      destruct (Z.leb_spec 0 last_space) as [_ | ?]; [| lia].
      rewrite firstn_firstn.
      replace (Nat.min (Z.to_nat last_space) (Z.to_nat max_chars))
        with (Z.to_nat last_space) by lia.
      split; [reflexivity | lia]. }
  destruct Hcut as [Hcut Hrange].
  rewrite Hout, Hcut.
  assert (Hlen : Z.of_nat
            (length ((if (4 * max_chars <? 5 * last_space)%Z
                      then firstn (Z.to_nat last_space) cleaned
                      else firstn (Z.to_nat max_chars) cleaned) ++ ellipsis))
            = ((if (4 * max_chars <? 5 * last_space)%Z
                then last_space else max_chars) + 3)%Z).
  { rewrite length_app. change (length ellipsis) with 3.
    destruct (Z.ltb_spec (4 * max_chars) (5 * last_space)) as [Hfar | _];
      rewrite length_firstn; [specialize (Hrange Hfar) |];
      unfold cleaned in *; lia. }
  split; [reflexivity |]. split; [exact Hlen |].
  rewrite Hlen.
  destruct (Z.ltb_spec (4 * max_chars) (5 * last_space)); lia.
Qed.

End BudgetOverrun.

Lemma C7_witness :
  (0 <= 1500
   < Z.of_nat (length (TTS.clean_text_for_tts Sample.long_reply)))%Z /\
  (length (Budget.kept_sentences (TTS.clean_text_for_tts Sample.long_reply)
             1500 5) <? 100) = true /\
  Z.of_nat (length (TTS.create_short_tts_version Sample.long_reply 1500 5))
  = 1503%Z.
Proof.
  assert (H1 : (0 <= 1500
                < Z.of_nat
                    (length (TTS.clean_text_for_tts Sample.long_reply)))%Z).
  { split; vm_compute; [discriminate | reflexivity]. }
  assert (H2 : (length
                  (Budget.kept_sentences
                     (TTS.clean_text_for_tts Sample.long_reply) 1500 5)
                <? 100) = true) by (vm_compute; reflexivity).
  split; [exact H1 |]. split; [exact H2 |].
  destruct (C7_fallback_exceeds_budget Sample.long_reply 1500 5 H1 H2)
    as (_ & Hlen & _).
  rewrite Hlen. vm_compute. reflexivity.
Defined.

Lemma C1_witness :
  Program.reachable
    (snd (Voice.process_transcription Sample.calm 1000 Sample.question
            Voice.initial)) /\
  truthy (strip Sample.barge_in) = true /\
  Voice.interrupt_current_response 1400
    (snd (Voice.process_transcription Sample.calm 1000 Sample.question
            Voice.initial))
  = (Ret tt,
     snd (Voice.process_transcription Sample.calm 1000 Sample.question
            Voice.initial)).
Proof.
  assert (H : Program.reachable
                (snd (Voice.process_transcription Sample.calm 1000
                        Sample.question Voice.initial))).
  { apply Program.reach_turn;
      [apply never_is_quiet | apply Program.reach_initial]. }
  split; [exact H |]. split; [reflexivity |].
  destruct (C1_coordinator_finds_no_task_in_flight _ Sample.calm 1400
              Sample.barge_in H eq_refl)
    as (_ & Hnoop & _).
  exact Hnoop.
Defined.

Lemma C5_witness :
  Program.reachable Voice.initial /\
  Voice.quiet Sample.calm /\
  Voice.cancelled
    (snd (Voice.process_transcription_queue
            [(Sample.calm, 1000%Z, Some Sample.question);
             (Sample.calm, 1100%Z, Some Sample.barge_in)] Voice.initial))
  = [].
Proof.
  split; [apply Program.reach_initial |]. split; [apply never_is_quiet |].
  destruct (C5_no_pair_of_events_interrupts Voice.initial Sample.calm
              Sample.calm 1000 1100 Sample.question Sample.barge_in
              Program.reach_initial (never_is_quiet _) (never_is_quiet _))
    as (_ & Hc & _).
  exact Hc.
Defined.

Lemma C2_witness :
  Program.reachable Voice.initial /\
  Voice.quiet Sample.calm /\
  truthy (strip Sample.question) = true /\
  truthy (strip Sample.barge_in) = true /\
  TTS.ending
    (TTS.generate_audio (Voice.speak Sample.calm)
       (Voice.reply (Ret (Some Sample.shipped))) 1500 5) = None /\
  exists rest,
    Voice.sent
      (snd (Voice.process_transcription_queue
              [(Sample.calm, 1000%Z, Some Sample.question);
               (Sample.calm, 1400%Z, Some Sample.barge_in)] Voice.initial))
    = Voice.sent Voice.initial
      ++ [Voice.Transcription Sample.question;
          Voice.AgentResponse (Voice.reply (Ret (Some Sample.shipped)));
          Voice.TtsStart]
      ++ map Voice.Audio
           (Traces.spoken Sample.calm
              (Voice.reply (Ret (Some Sample.shipped))))
      ++ [Voice.TtsEnd]
      ++ Voice.Transcription Sample.barge_in :: rest /\
    ~ In Voice.Interrupt rest.
Proof.
  split; [apply Program.reach_initial |]. split; [apply never_is_quiet |].
  split; [reflexivity |]. split; [reflexivity |]. split; [reflexivity |].
  destruct (C2_synthesis_is_never_interrupted Voice.initial Sample.calm
              Sample.calm 1000 1400 Sample.question Sample.barge_in
              (Some Sample.shipped) Program.reach_initial
              (never_is_quiet _) (never_is_quiet _) eq_refl eq_refl
              (fun st _ => eq_refl) eq_refl)
    as (rest & more & Hsent & Hno & _).
  exists rest. split; [exact Hsent | exact Hno].
Defined.
